(** * Box2D QML plugin: the world wrapper and its unit conversions

    A shallow embedding of [box2dworld.h].  The header declares the
    [Box2DWorld] item, its [StepDriver], and the inline helpers that convert
    between Box2D units (meters, radians, y up, single precision) and QML
    units (pixels, degrees, y down, [qreal]).

    Floating-point values are IEEE 754 binary floats, represented by
    [spec_float] and computed with the round-to-nearest-even operations of
    [SpecFloat]: C++ [float] is binary32 and [double] is binary64, and each
    operation rounds to the format of its C++ type. *)

From Stdlib Require Import ZArith QArith Qabs Qpower Lia Lqa Bool List.
From Stdlib Require Import Floats.SpecFloat.
From stdpp Require Import gmap strings.
Import ListNotations.

Local Open Scope Z_scope.

(** ** IEEE 754 formats *)

(** C++ [float]: 24 bits of precision, exponents below 128. *)
Module Binary32.
Definition prec : Z := 24.
Definition emax : Z := 128.
Definition valid (f : spec_float) : bool := valid_binary prec emax f.
Definition mul : spec_float -> spec_float -> spec_float := SFmul prec emax.
Definition div : spec_float -> spec_float -> spec_float := SFdiv prec emax.
(** Conversion of an integer, as for the [int] literal [180] in a [float]
    expression. *)
Definition of_int (n : Z) : spec_float := binary_normalize prec emax n 0 false.
(** Conversion of a value of another binary format to [float]. *)
Definition of_float (f : spec_float) : spec_float :=
  match f with
  | S754_finite s m e => binary_round prec emax s m e
  | _ => f
  end.
End Binary32.

(** C++ [double]: 53 bits of precision, exponents below 1024. *)
Module Binary64.
Definition prec : Z := 53.
Definition emax : Z := 1024.
Definition valid (f : spec_float) : bool := valid_binary prec emax f.
Definition mul : spec_float -> spec_float -> spec_float := SFmul prec emax.
Definition div : spec_float -> spec_float -> spec_float := SFdiv prec emax.
Definition of_int (n : Z) : spec_float := binary_normalize prec emax n 0 false.
Definition of_float (f : spec_float) : spec_float :=
  match f with
  | S754_finite s m e => binary_round prec emax s m e
  | _ => f
  end.
End Binary64.

(** Box2D declares [typedef float float32]; Qt declares [typedef double qreal]
    in its default configuration.  Both declarations live in the wrapped
    libraries, not in this repository. *)
Definition float32 : Type := spec_float.
Definition qreal : Type := spec_float.

(** Box2D's [b2Vec2]: two [float32] members. *)
Module b2Vec2.
Record t : Type := mk { x : float32; y : float32 }.
Definition valid (v : t) : bool := Binary32.valid (x v) && Binary32.valid (y v).
End b2Vec2.

(** Qt's [QPointF]: two [qreal] coordinates. *)
Module QPointF.
Record t : Type := mk { x : qreal; y : qreal }.
Definition valid (p : t) : bool := Binary64.valid (x p) && Binary64.valid (y p).
End QPointF.

(** [exponent_in lo hi f]: [f] is zero, infinite or NaN, or its exponent is
    between [lo] and [hi].  For a valid single with mantissa [m] and exponent
    [e] the magnitude is [m * 2^e], with [m < 2^24], and [2^23 <= m] unless
    [e = -149]. *)
Definition exponent_in (lo hi : Z) (f : spec_float) : bool :=
  match f with
  | S754_finite _ _ e => (lo <=? e) && (e <=? hi)
  | _ => true
  end.

(** The largest finite single, [(2^24 - 1) * 2^104], and the smallest
    positive one, [2^-149]. *)
Definition max_float32 : float32 := SFmax_float Binary32.prec Binary32.emax.
Definition min_float32 : float32 := S754_finite false 1 (-149).

(** The sign of a float as a factor. *)
Definition sign_of (s : bool) : Q := if s then -1 else 1.

(** The rational value of a finite float; zero for the others. *)
Definition SF2Q (f : spec_float) : Q :=
  match f with
  | S754_finite s m e => sign_of s * (inject_Z (Z.pos m) * 2 ^ e)
  | _ => 0
  end.

Definition is_finite (f : spec_float) : bool :=
  match f with
  | S754_finite _ _ _ | S754_zero _ => true
  | _ => false
  end.

(** [rel_err eps x y]: [x] is within the relative error [eps] of [y]. *)
Definition rel_err (eps x y : Q) : Prop := (Qabs (x - y) <= eps * Qabs y)%Q.

(** [recovers eps a b]: the result [a] recovers [b] within the relative
    tolerance [eps]; either it is [b] itself, or both are finite and
    differ by at most [eps * |b|]. *)
Definition recovers (eps : Q) (a b : spec_float) : Prop :=
  a = b \/
  (is_finite a = true /\ is_finite b = true /\ rel_err eps (SF2Q a) (SF2Q b)).

(** [located mrs t]: the shift record [mrs] describes the position of the
    rational [t] between its mantissa and the next integer, as rounding
    reads it: on the integer, below the midpoint, on it, or above it. *)
Definition located (mrs : shr_record) (t : Q) : Prop :=
  match shr_r mrs, shr_s mrs with
  | false, false => (t == inject_Z (shr_m mrs))%Q
  | false, true => (inject_Z (shr_m mrs) < t /\ t < inject_Z (shr_m mrs) + (1 # 2))%Q
  | true, false => (t == inject_Z (shr_m mrs) + (1 # 2))%Q
  | true, true => (inject_Z (shr_m mrs) + (1 # 2) < t /\ t < inject_Z (shr_m mrs) + 1)%Q
  end.

(** Unit roundoff of single precision, [2^-24]. *)
Definition roundoff32 : Q := 1 # 16777216.

(** The relative error of two roundings in a row, [(1 + u)^2 - 1], and of
    four, [(1 + u)^4 - 1], which is below [5 * 2^-24]. *)
Definition two_roundings : Q := roundoff32 + roundoff32 + roundoff32 * roundoff32.
Definition four_roundings : Q :=
  two_roundings + two_roundings + two_roundings * two_roundings.

(** The tolerance of an angle round trip: five units of roundoff. *)
Definition angle_tolerance : Q := 5 * roundoff32.

(** A positive normal single in the binade of pi, from 2 up to 4. *)
Definition in_binade_of_pi (f : float32) : bool :=
  match f with
  | S754_finite false m e => (Z.pos (digits2_pos m) =? 24)%Z && (e =? -22)%Z
  | _ => false
  end.

(** ** Conversion constants *)

(** [static const float pixelsPerMeter = 32.0f;]: the literal is the
    integer 32. *)
Definition pixelsPerMeter : float32 := Binary32.of_int 32.
(** [static const float metersPerPixel = 1.0f / pixelsPerMeter;] *)
Definition metersPerPixel : float32 := Binary32.div (Binary32.of_int 1) pixelsPerMeter.
(** [static const float pixelsPerMeterY = -pixelsPerMeter;] *)
Definition pixelsPerMeterY : float32 := SFopp pixelsPerMeter.
(** [static const float metersPerPixelY = -metersPerPixel;] *)
Definition metersPerPixelY : float32 := SFopp metersPerPixel.

(** Box2D's [b2Settings.h] has [#define b2_pi 3.14159265359f]; the nearest
    binary32 value is [13176795 * 2^-22].  The helpers below take [b2_pi]
    as a parameter, this is the value Box2D gives it. *)
Definition b2_pi_literal : float32 := S754_finite false 13176795 (-22).

(** ** Conversion helpers *)

(** [inline QPointF invertY(const b2Vec2 &vec)] *)
Definition invertY_b2Vec2 (vec : b2Vec2.t) : QPointF.t :=
  QPointF.mk (Binary64.of_float (b2Vec2.x vec))
             (Binary64.of_float (SFopp (b2Vec2.y vec))).

(** [inline b2Vec2 invertY(const QPointF &vec)] *)
Definition invertY_QPointF (vec : QPointF.t) : b2Vec2.t :=
  b2Vec2.mk (Binary32.of_float (QPointF.x vec))
            (Binary32.of_float (SFopp (QPointF.y vec))).

(** [inline float toPixels(float length)] *)
Definition toPixels (length : float32) : float32 :=
  Binary32.mul length pixelsPerMeter.

(** [inline float toMeters(float length)] *)
Definition toMeters (length : float32) : float32 :=
  Binary32.mul length metersPerPixel.

(** [inline QPointF toPixels(const b2Vec2 &vec)]: both products are [float]
    products, widened when the [QPointF] is built. *)
Definition toPixels_b2Vec2 (vec : b2Vec2.t) : QPointF.t :=
  QPointF.mk (Binary64.of_float (Binary32.mul (b2Vec2.x vec) pixelsPerMeter))
             (Binary64.of_float (Binary32.mul (b2Vec2.y vec) pixelsPerMeterY)).

(** [inline b2Vec2 toMeters(const QPointF &point)]: the [float] constant is
    promoted, both products are [qreal] products, narrowed when the [b2Vec2]
    is built. *)
Definition toMeters_QPointF (point : QPointF.t) : b2Vec2.t :=
  b2Vec2.mk
    (Binary32.of_float (Binary64.mul (QPointF.x point) (Binary64.of_float metersPerPixel)))
    (Binary32.of_float (Binary64.mul (QPointF.y point) (Binary64.of_float metersPerPixelY))).

Section Angles.
Variable b2_pi : float32.

(** [inline float toDegrees(float radians)]: [-radians * 180 / b2_pi]
    groups as [((-radians) * 180) / b2_pi]. *)
Definition toDegrees (radians : float32) : float32 :=
  Binary32.div (Binary32.mul (SFopp radians) (Binary32.of_int 180)) b2_pi.

(** [inline float toRadians(float degrees)]: [-degrees * b2_pi / 180]
    groups as [((-degrees) * b2_pi) / 180]. *)
Definition toRadians (degrees : float32) : float32 :=
  Binary32.div (Binary32.mul (SFopp degrees) b2_pi) (Binary32.of_int 180).
End Angles.

(** ** The world wrapper *)

(** A [Box2DContact], identified by the engine contact it wraps. *)
Definition contact : Type := positive.

(** The [signals:] section of [Box2DWorld]. *)
Inductive signal : Type :=
| initialized
| preSolve (c : contact)
| postSolve (c : contact)
| timeStepChanged
| velocityIterationsChanged
| positionIterationsChanged
| gravityChanged
| autoClearForcesChanged
| runningChanged
| stepped.

(** What an operation of the wrapper does to the outside, in order: signal
    emissions, calls into the engine, and requests to the animation
    facility that calls the step driver back. *)
Inductive event : Type :=
| Emit (s : signal)
| EngineStep (timeStep : float32) (velocityIterations positionIterations : Z)
| EngineSolve (c : contact)
| EngineClearForces
| EngineSetGravity (gravity : b2Vec2.t)
| EngineSetAutoClearForces (flag : bool)
| DriverStart
| DriverStop.

(** A call completes, or it stops with a fault raised by the code it called
    into. *)
Inductive origin : Type := Engine | Framework.
Inductive outcome (A : Type) : Type :=
| Done (a : A)
| Fault (o : origin).
Arguments Done {A} a.
Arguments Fault {A} o.

(** The part of [b2World] the wrapper calls; the engine is Box2D's and is a
    parameter of the wrapper.  [b2_Step] is
    [b2World::Step(timeStep, velocityIterations, positionIterations)]; it
    gives the contacts solved during the advance, in solving order, and the
    world after it. *)
Class b2WorldOps (W : Type) : Type := {
  b2_GetGravity : W -> b2Vec2.t;
  b2_SetGravity : b2Vec2.t -> W -> outcome W;
  b2_GetAutoClearForces : W -> bool;
  b2_SetAutoClearForces : bool -> W -> outcome W;
  b2_ClearForces : W -> outcome W;
  b2_Step : float32 -> Z -> Z -> W -> outcome (list contact * W)
}.

(** [QAbstractAnimation::State] of the step driver. *)
Inductive AnimationState : Type := Stopped | Running.

Module Box2DWorld.
(** The private members of [Box2DWorld].  [mStepDriver] points to the
    world's [StepDriver]; the driver's only state is that of the animation
    it derives from.  [mContactListener] points to the object that turns the
    contact callbacks of the engine into signals; it keeps no state and has
    no field here. *)
Record t (W : Type) : Type := mk {
  mWorld : W;
  mTimeStep : float32;
  mVelocityIterations : Z;
  mPositionIterations : Z;
  mIsRunning : bool;
  mStepDriver : AnimationState
}.
Arguments mk {W}.
Arguments mWorld {W}.
Arguments mTimeStep {W}.
Arguments mVelocityIterations {W}.
Arguments mPositionIterations {W}.
Arguments mIsRunning {W}.
Arguments mStepDriver {W}.
End Box2DWorld.

(** Methods run on the world object, log their events, and stop at the
    first fault. *)
Definition M (W A : Type) : Type :=
  Box2DWorld.t W -> list event * outcome (A * Box2DWorld.t W).

Section Wrapper.
Context {W : Type}.

Definition ret {A} (a : A) : M W A := fun w => ([], Done (a, w)).

Definition bind {A B} (m : M W A) (f : A -> M W B) : M W B :=
  fun w =>
    match m w with
    | (tr, Done (a, w')) => let '(tr', r) := f a w' in (tr ++ tr', r)
    | (tr, Fault o) => (tr, Fault o)
    end.

Definition gets {A} (f : Box2DWorld.t W -> A) : M W A := fun w => ([], Done (f w, w)).
Definition modify (f : Box2DWorld.t W -> Box2DWorld.t W) : M W unit :=
  fun w => ([], Done (tt, f w)).
Definition log (e : event) : M W unit := fun w => ([e], Done (tt, w)).
Definition emit (s : signal) : M W unit := log (Emit s).

(** A call into the engine with result [r], logged as [e]. *)
Definition engine {A} (e : event) (call : W -> outcome (A * W)) : M W A :=
  fun w =>
    match call (Box2DWorld.mWorld w) with
    | Done (a, b2) =>
        ([e], Done (a, Box2DWorld.mk b2 (Box2DWorld.mTimeStep w)
                         (Box2DWorld.mVelocityIterations w)
                         (Box2DWorld.mPositionIterations w)
                         (Box2DWorld.mIsRunning w) (Box2DWorld.mStepDriver w)))
    | Fault o => ([e], Fault o)
    end.

(** The same for an engine call that returns nothing. *)
Definition engine_do (e : event) (call : W -> outcome W) : M W unit :=
  engine e (fun b2 => match call b2 with
                      | Done b2' => Done (tt, b2')
                      | Fault o => Fault o
                      end).
End Wrapper.

Notation "x <- m ;; k" := (bind m (fun x => k))
  (at level 100, m at next level, right associativity).
Notation "m ;;; k" := (bind m (fun _ => k))
  (at level 100, right associativity).

Section Methods.
Context {W : Type} `{b2WorldOps W}.

(** [inline float Box2DWorld::timeStep() const] *)
Definition timeStep : M W float32 := gets Box2DWorld.mTimeStep.

(** [inline bool Box2DWorld::isRunning() const] *)
Definition isRunning : M W bool := gets Box2DWorld.mIsRunning.

(** [inline int Box2DWorld::velocityIterations() const] *)
Definition velocityIterations : M W Z := gets Box2DWorld.mVelocityIterations.

(** [inline int Box2DWorld::positionIterations() const] *)
Definition positionIterations : M W Z := gets Box2DWorld.mPositionIterations.

(** [inline bool Box2DWorld::autoClearForces() const] *)
Definition autoClearForces : M W bool :=
  gets (fun w => b2_GetAutoClearForces (Box2DWorld.mWorld w)).

(** [inline b2World &Box2DWorld::world()] *)
Definition world : M W W := gets Box2DWorld.mWorld.

(** [inline void Box2DWorld::clearForces()] *)
Definition clearForces : M W unit := engine_do EngineClearForces b2_ClearForces.

(** Modelled from the spec: the constructor is defined in box2dworld.cpp,
    not in the header.  The defaults are the ones the doc
    comments of [timeStep()], [velocityIterations()] and
    [positionIterations()] state: 1 / 60, 8 and 3.  The initial value of
    [running] is stated nowhere and is an argument here; the driver is
    asked for callbacks exactly when the world is running. *)
Definition Box2DWorld_new (b2 : W) (running : bool) : Box2DWorld.t W :=
  Box2DWorld.mk b2
    (Binary32.div (Binary32.of_int 1) (Binary32.of_int 60)) 8 3
    running (if running then Running else Stopped).

(** Modelled from the spec: [setTimeStep] is defined in box2dworld.cpp.  A
    property write stores the value in the member the getter reads and
    emits the property's [NOTIFY] signal. *)
Definition setTimeStep (timeStep : float32) : M W unit :=
  modify (fun w => Box2DWorld.mk (Box2DWorld.mWorld w) timeStep
                     (Box2DWorld.mVelocityIterations w)
                     (Box2DWorld.mPositionIterations w)
                     (Box2DWorld.mIsRunning w) (Box2DWorld.mStepDriver w)) ;;;
  emit timeStepChanged.

(** Modelled from the spec: [setVelocityIterations] is defined in
    box2dworld.cpp; a write as for [setTimeStep]. *)
Definition setVelocityIterations (iterations : Z) : M W unit :=
  modify (fun w => Box2DWorld.mk (Box2DWorld.mWorld w) (Box2DWorld.mTimeStep w)
                     iterations
                     (Box2DWorld.mPositionIterations w)
                     (Box2DWorld.mIsRunning w) (Box2DWorld.mStepDriver w)) ;;;
  emit velocityIterationsChanged.

(** Modelled from the spec: [setPositionIterations] is defined in
    box2dworld.cpp; a write as for [setTimeStep]. *)
Definition setPositionIterations (iterations : Z) : M W unit :=
  modify (fun w => Box2DWorld.mk (Box2DWorld.mWorld w) (Box2DWorld.mTimeStep w)
                     (Box2DWorld.mVelocityIterations w)
                     iterations
                     (Box2DWorld.mIsRunning w) (Box2DWorld.mStepDriver w)) ;;;
  emit positionIterationsChanged.

(** Modelled from the spec: [gravity] and [setGravity] are defined in
    box2dworld.cpp.  The property is the gravity of the engine's world, read
    and written through the inversion of the y axis. *)
Definition gravity : M W QPointF.t :=
  gets (fun w => invertY_b2Vec2 (b2_GetGravity (Box2DWorld.mWorld w))).

Definition setGravity (gravity : QPointF.t) : M W unit :=
  engine_do (EngineSetGravity (invertY_QPointF gravity))
    (b2_SetGravity (invertY_QPointF gravity)) ;;;
  emit gravityChanged.

(** Modelled from the spec: [setAutoClearForces] is defined in
    box2dworld.cpp.  The write goes to the flag of the engine's world that
    [autoClearForces] reads. *)
Definition setAutoClearForces (autoClearForces : bool) : M W unit :=
  engine_do (EngineSetAutoClearForces autoClearForces)
    (b2_SetAutoClearForces autoClearForces) ;;;
  emit autoClearForcesChanged.

(** Modelled from the spec: [setRunning] is defined in box2dworld.cpp.  The
    world requests continuous callbacks while [running] is true: a write
    starts or stops the step driver accordingly. *)
Definition setRunning (running : bool) : M W unit :=
  modify (fun w => Box2DWorld.mk (Box2DWorld.mWorld w) (Box2DWorld.mTimeStep w)
                     (Box2DWorld.mVelocityIterations w)
                     (Box2DWorld.mPositionIterations w)
                     running (if running then Running else Stopped)) ;;;
  emit runningChanged ;;;
  log (if running then DriverStart else DriverStop).

(** Modelled from the spec: the contact listener is defined outside the
    header.  The world emits a notification before and after each
    constraint-solving pass of the advance. *)
Fixpoint solverPasses (cs : list contact) : M W unit :=
  match cs with
  | [] => ret tt
  | c :: cs' =>
      emit (preSolve c) ;;; log (EngineSolve c) ;;; emit (postSolve c) ;;;
      solverPasses cs'
  end.

(** Modelled from the spec: [Box2DWorld::step] is defined in
    box2dworld.cpp.  One step is one fixed-timestep advance of the
    simulation with the current [timeStep], [velocityIterations] and
    [positionIterations], followed by the [stepped] notification. *)
Definition step : M W unit :=
  dt <- timeStep ;;
  vi <- velocityIterations ;;
  pi <- positionIterations ;;
  cs <- engine (EngineStep dt vi pi) (b2_Step dt vi pi) ;;
  solverPasses cs ;;;
  emit stepped.

(** Modelled from the spec: [StepDriver::updateCurrentTime] is defined in
    box2dworld.cpp.  Each callback requests one advance of the world. *)
Definition updateCurrentTime (currentTime : Z) : M W unit := step.

(** Modelled from the spec: the animation facility of the host delivers a
    display frame to the step driver while the driver is started. *)
Definition frame (currentTime : Z) : M W unit :=
  fun w =>
    match Box2DWorld.mStepDriver w with
    | Running => updateCurrentTime currentTime w
    | Stopped => ret tt w
    end.

(** What reaches the world from outside between two frames. *)
Inductive input : Type :=
| Frame (currentTime : Z)
| SetRunning (running : bool)
| SetTimeStep (timeStep : float32)
| SetVelocityIterations (iterations : Z)
| SetPositionIterations (iterations : Z)
| SetGravity (gravity : QPointF.t)
| SetAutoClearForces (autoClearForces : bool)
| ClearForces.

Definition handle (i : input) : M W unit :=
  match i with
  | Frame t => frame t
  | SetRunning b => setRunning b
  | SetTimeStep dt => setTimeStep dt
  | SetVelocityIterations n => setVelocityIterations n
  | SetPositionIterations n => setPositionIterations n
  | SetGravity g => setGravity g
  | SetAutoClearForces b => setAutoClearForces b
  | ClearForces => clearForces
  end.

Fixpoint run (inputs : list input) : M W unit :=
  match inputs with
  | [] => ret tt
  | i :: rest => handle i ;;; run rest
  end.
End Methods.

(** The result and the trace of a method call. *)
Definition trace {W A} (r : list event * outcome (A * Box2DWorld.t W)) : list event := fst r.
Definition result {W A} (r : list event * outcome (A * Box2DWorld.t W)) :
  outcome (A * Box2DWorld.t W) := snd r.

Definition is_advance (e : event) : bool :=
  match e with EngineStep _ _ _ => true | _ => false end.
Definition is_stepped (e : event) : bool :=
  match e with Emit stepped => true | _ => false end.
Definition is_pass (e : event) : bool :=
  match e with EngineSolve _ => true | _ => false end.
Definition is_engine_call (e : event) : bool :=
  match e with
  | EngineStep _ _ _ | EngineClearForces
  | EngineSetGravity _ | EngineSetAutoClearForces _ => true
  | _ => false
  end.

Definition count (p : event -> bool) (tr : list event) : nat :=
  length (List.filter p tr).

(** The events of one constraint-solving pass over the contact [c]. *)
Definition pass_events (c : contact) : list event :=
  [Emit (preSolve c); EngineSolve c; Emit (postSolve c)].

(** The number of frames among [inputs] that arrive while the world is
    running, for a world that is [running] when the inputs start. *)
Fixpoint frames_while_running (running : bool) (inputs : list input) : nat :=
  match inputs with
  | [] => 0
  | Frame _ :: rest => (if running then 1 else 0) + frames_while_running running rest
  | SetRunning b :: rest => frames_while_running b rest
  | _ :: rest => frames_while_running running rest
  end.

(** The step driver asks for callbacks exactly while the world is running. *)
Definition driver_follows_running {W} (w : Box2DWorld.t W) : Prop :=
  Box2DWorld.mStepDriver w = if Box2DWorld.mIsRunning w then Running else Stopped.

(** ** The inline functions as the header writes them *)

(** The bodies of the header's inline functions, as syntax.  An expression
    names its parameter, a namespace-scope constant, a data member of the
    world object or a member function of [mWorld], as C++ lets any function
    body do; evaluating it is what tells which of these a body uses.
    Identifiers are spelled as in the header. *)
Module Cpp.

Inductive expr : Type :=
| Param
| Constant (name : string)
| IntLiteral (n : Z)
| Member (name : string)
| Field (object : expr) (name : string)
| Negate (e : expr)
| Multiply (a b : expr)
| Divide (a b : expr)
| Construct (type_name : string) (x y : expr)
| WorldCall (method : string).

(** [return e;], the expression statement [e;], and
    [try { block } catch (...) { handler }]. *)
Inductive body : Type :=
| Return (e : expr)
| Evaluate (e : expr)
| TryCatch (block handler : body).

Inductive type : Type :=
| TVoid | TBool | TInt | TFloat | TReal | TVec2 | TPointF | TWorld.

Inductive value (W : Type) : Type :=
| VVoid
| VBool (b : bool)
| VInt (n : Z)
| VFloat (f : float32)
| VReal (d : qreal)
| VVec2 (v : b2Vec2.t)
| VPointF (p : QPointF.t)
| VWorld (b2 : W).
Arguments VVoid {W}.
Arguments VBool {W} b.
Arguments VInt {W} n.
Arguments VFloat {W} f.
Arguments VReal {W} d.
Arguments VVec2 {W} v.
Arguments VPointF {W} p.
Arguments VWorld {W} b2.

Definition type_of {W} (v : value W) : type :=
  match v with
  | VVoid => TVoid
  | VBool _ => TBool
  | VInt _ => TInt
  | VFloat _ => TFloat
  | VReal _ => TReal
  | VVec2 _ => TVec2
  | VPointF _ => TPointF
  | VWorld _ => TWorld
  end.

(** How an evaluation can fail.  [Propagated o] is the fault of a call made
    into the engine or the framework; the others are failures of the
    evaluated code itself: the undefined behaviour of [int] arithmetic, and
    an expression that has no type ([Stuck]), which C++ does not compile. *)
Inductive failure : Type :=
| Propagated (o : origin)
| DivisionByZero
| IntegerOverflow
| Stuck.

(** An evaluation logs its events and gives a value and the world object
    after it, or a failure. *)
Definition result (W : Type) : Type :=
  list event * (value W * Box2DWorld.t W + failure).

Definition andThen {W} (r : result W)
    (k : value W -> Box2DWorld.t W -> result W) : result W :=
  match r with
  | (tr, inl (v, w)) => let '(tr', r') := k v w in ((tr ++ tr')%list, r')
  | (tr, inr f) => (tr, inr f)
  end.

(** [int] is 32 bits wide; a result out of its range is undefined. *)
Definition int_value {W} (n : Z) : value W + failure :=
  if (- 2 ^ 31 <=? n) && (n <? 2 ^ 31) then inl (VInt n) else inr IntegerOverflow.

(** The conversions of an arithmetic operand to [float] and to [qreal]. *)
Definition to_float {W} (v : value W) : option float32 :=
  match v with
  | VInt n => Some (Binary32.of_int n)
  | VFloat f => Some f
  | VReal d => Some (Binary32.of_float d)
  | _ => None
  end.

Definition to_real {W} (v : value W) : option qreal :=
  match v with
  | VInt n => Some (Binary64.of_int n)
  | VFloat f => Some (Binary64.of_float f)
  | VReal d => Some d
  | _ => None
  end.

(** A binary operator after the usual arithmetic conversions: on two
    [int]s it is the [int] operator; with a [qreal] operand it is the
    [qreal] operator on both operands converted; otherwise, with a [float]
    operand, the [float] operator. *)
Definition arithmetic {W} (on_int : Z -> Z -> value W + failure)
    (on_float on_real : spec_float -> spec_float -> spec_float)
    (a b : value W) : value W + failure :=
  match a, b with
  | VInt m, VInt n => on_int m n
  | VReal _, _ | _, VReal _ =>
      match to_real a, to_real b with
      | Some x, Some y => inl (VReal (on_real x y))
      | _, _ => inr Stuck
      end
  | VFloat _, _ | _, VFloat _ =>
      match to_float a, to_float b with
      | Some x, Some y => inl (VFloat (on_float x y))
      | _, _ => inr Stuck
      end
  | _, _ => inr Stuck
  end.

Definition multiply {W} : value W -> value W -> value W + failure :=
  arithmetic (fun m n => int_value (m * n)) Binary32.mul Binary64.mul.

Definition divide {W} : value W -> value W -> value W + failure :=
  arithmetic (fun m n => if n =? 0 then inr DivisionByZero else int_value (Z.quot m n))
             Binary32.div Binary64.div.

Definition negate {W} (a : value W) : value W + failure :=
  match a with
  | VInt n => int_value (- n)
  | VFloat f => inl (VFloat (SFopp f))
  | VReal d => inl (VReal (SFopp d))
  | _ => inr Stuck
  end.

(** [vec.x], [vec.y] of a [b2Vec2] and [vec.x()], [vec.y()] of a
    [QPointF]. *)
Definition field {W} (object : value W) (name : string) : value W + failure :=
  match object, name with
  | VVec2 v, "x" => inl (VFloat (b2Vec2.x v))
  | VVec2 v, "y" => inl (VFloat (b2Vec2.y v))
  | VPointF p, "x" => inl (VReal (QPointF.x p))
  | VPointF p, "y" => inl (VReal (QPointF.y p))
  | _, _ => inr Stuck
  end.

(** [QPointF(x, y)] converts its arguments to [qreal], [b2Vec2(x, y)] to
    [float32]. *)
Definition construct {W} (type_name : string) (x y : value W) : value W + failure :=
  match type_name with
  | "QPointF" =>
      match to_real x, to_real y with
      | Some a, Some b => inl (VPointF (QPointF.mk a b))
      | _, _ => inr Stuck
      end
  | "b2Vec2" =>
      match to_float x, to_float y with
      | Some a, Some b => inl (VVec2 (b2Vec2.mk a b))
      | _, _ => inr Stuck
      end
  | _ => inr Stuck
  end.

Section Evaluation.
Context {W : Type} `{b2WorldOps W}.
Variable b2_pi : float32.

(** The constants of the header, and [b2_pi] of Box2D. *)
Definition constant (name : string) : option float32 :=
  match name with
  | "pixelsPerMeter" => Some pixelsPerMeter
  | "metersPerPixel" => Some metersPerPixel
  | "pixelsPerMeterY" => Some pixelsPerMeterY
  | "metersPerPixelY" => Some metersPerPixelY
  | "b2_pi" => Some b2_pi
  | _ => None
  end.

(** The data members of the world object that hold a value. *)
Definition member (name : string) (w : Box2DWorld.t W) : value W + failure :=
  match name with
  | "mWorld" => inl (VWorld (Box2DWorld.mWorld w))
  | "mTimeStep" => inl (VFloat (Box2DWorld.mTimeStep w))
  | "mVelocityIterations" => inl (VInt (Box2DWorld.mVelocityIterations w))
  | "mPositionIterations" => inl (VInt (Box2DWorld.mPositionIterations w))
  | "mIsRunning" => inl (VBool (Box2DWorld.mIsRunning w))
  | _ => inr Stuck
  end.

(** The member functions of [b2World] that the header calls on [mWorld].
    [ClearForces] changes the engine's world and is logged; a fault of the
    engine is passed on. *)
Definition worldCall (method : string) (w : Box2DWorld.t W) : result W :=
  match method with
  | "GetAutoClearForces" =>
      ([], inl (VBool (b2_GetAutoClearForces (Box2DWorld.mWorld w)), w))
  | "ClearForces" =>
      match b2_ClearForces (Box2DWorld.mWorld w) with
      | Done b2 =>
          ([EngineClearForces],
           inl (VVoid, Box2DWorld.mk b2 (Box2DWorld.mTimeStep w)
                         (Box2DWorld.mVelocityIterations w)
                         (Box2DWorld.mPositionIterations w)
                         (Box2DWorld.mIsRunning w) (Box2DWorld.mStepDriver w)))
      | Fault o => ([EngineClearForces], inr (Propagated o))
      end
  | _ => ([], inr Stuck)
  end.

Definition finish (w : Box2DWorld.t W) (r : value W + failure) : result W :=
  match r with
  | inl v => ([], inl (v, w))
  | inr f => ([], inr f)
  end.

(** The evaluation of an expression of a function called with the argument
    [param], on the world object [w]; operands are evaluated from left to
    right. *)
Fixpoint eval (e : expr) (param : value W) (w : Box2DWorld.t W) : result W :=
  match e with
  | Param => ([], inl (param, w))
  | Constant name =>
      finish w match constant name with
               | Some f => inl (VFloat f)
               | None => inr Stuck
               end
  | IntLiteral n => finish w (int_value n)
  | Member name => finish w (member name w)
  | Field object name =>
      andThen (eval object param w) (fun v w' => finish w' (field v name))
  | Negate a => andThen (eval a param w) (fun v w' => finish w' (negate v))
  | Multiply a b =>
      andThen (eval a param w) (fun x w' =>
      andThen (eval b param w') (fun y w'' => finish w'' (multiply x y)))
  | Divide a b =>
      andThen (eval a param w) (fun x w' =>
      andThen (eval b param w') (fun y w'' => finish w'' (divide x y)))
  | Construct type_name a b =>
      andThen (eval a param w) (fun x w' =>
      andThen (eval b param w') (fun y w'' => finish w'' (construct type_name x y)))
  | WorldCall method => worldCall method w
  end.

(** A call of a function with the body [b].  A handler catches the fault of
    a call made by its block, and runs on the world object as the block
    found it; a failure of the code itself is undefined behaviour and is
    not caught. *)
Fixpoint run (b : body) (param : value W) (w : Box2DWorld.t W) : result W :=
  match b with
  | Return e => eval e param w
  | Evaluate e => andThen (eval e param w) (fun _ w' => ([], inl (VVoid, w')))
  | TryCatch block handler =>
      match run block param w with
      | (tr, inr (Propagated _)) =>
          let '(tr', r) := run handler param w in ((tr ++ tr')%list, r)
      | r => r
      end
  end.
End Evaluation.

(** The bodies, in the order of the header. *)
Module Body.
(** [return mTimeStep;] *)
Definition timeStep : body := Return (Member "mTimeStep").
(** [return mIsRunning;] *)
Definition isRunning : body := Return (Member "mIsRunning").
(** [return mVelocityIterations;] *)
Definition velocityIterations : body := Return (Member "mVelocityIterations").
(** [return mPositionIterations;] *)
Definition positionIterations : body := Return (Member "mPositionIterations").
(** [return mWorld.GetAutoClearForces();] *)
Definition autoClearForces : body := Return (WorldCall "GetAutoClearForces").
(** [return mWorld;] *)
Definition world : body := Return (Member "mWorld").
(** [mWorld.ClearForces();] *)
Definition clearForces : body := Evaluate (WorldCall "ClearForces").
(** [return QPointF(vec.x, -vec.y);] *)
Definition invertY_b2Vec2 : body :=
  Return (Construct "QPointF" (Field Param "x") (Negate (Field Param "y"))).
(** [return b2Vec2(vec.x(), -vec.y());] *)
Definition invertY_QPointF : body :=
  Return (Construct "b2Vec2" (Field Param "x") (Negate (Field Param "y"))).
(** [return length * pixelsPerMeter;] *)
Definition toPixels : body := Return (Multiply Param (Constant "pixelsPerMeter")).
(** [return length * metersPerPixel;] *)
Definition toMeters : body := Return (Multiply Param (Constant "metersPerPixel")).
(** [return QPointF(vec.x * pixelsPerMeter, vec.y * pixelsPerMeterY);] *)
Definition toPixels_b2Vec2 : body :=
  Return (Construct "QPointF"
            (Multiply (Field Param "x") (Constant "pixelsPerMeter"))
            (Multiply (Field Param "y") (Constant "pixelsPerMeterY"))).
(** [return b2Vec2(point.x() * metersPerPixel, point.y() * metersPerPixelY);] *)
Definition toMeters_QPointF : body :=
  Return (Construct "b2Vec2"
            (Multiply (Field Param "x") (Constant "metersPerPixel"))
            (Multiply (Field Param "y") (Constant "metersPerPixelY"))).
(** [return -radians * 180 / b2_pi;] *)
Definition toDegrees : body :=
  Return (Divide (Multiply (Negate Param) (IntLiteral 180)) (Constant "b2_pi")).
(** [return -degrees * b2_pi / 180;] *)
Definition toRadians : body :=
  Return (Divide (Multiply (Negate Param) (Constant "b2_pi")) (IntLiteral 180)).
End Body.
End Cpp.

(** The result of a method of the world, read as the result of an
    evaluation: the fault of a method is the fault of the engine call it
    made. *)
Definition evaluated {W A} (inj : A -> Cpp.value W)
    (r : list event * outcome (A * Box2DWorld.t W)) : Cpp.result W :=
  (fst r,
   match snd r with
   | Done (a, w) => inl (inj a, w)
   | Fault o => inr (Cpp.Propagated o)
   end).

(** The conversion helpers, each with the type of its parameter. *)
Definition conversion_helpers : list (Cpp.body * Cpp.type) :=
  [(Cpp.Body.invertY_b2Vec2, Cpp.TVec2); (Cpp.Body.invertY_QPointF, Cpp.TPointF);
   (Cpp.Body.toPixels, Cpp.TFloat); (Cpp.Body.toMeters, Cpp.TFloat);
   (Cpp.Body.toPixels_b2Vec2, Cpp.TVec2); (Cpp.Body.toMeters_QPointF, Cpp.TPointF);
   (Cpp.Body.toDegrees, Cpp.TFloat); (Cpp.Body.toRadians, Cpp.TFloat)].

(** The inline member functions of [Box2DWorld]; they take no argument. *)
Definition inline_members : list (Cpp.body * Cpp.type) :=
  [(Cpp.Body.timeStep, Cpp.TVoid); (Cpp.Body.isRunning, Cpp.TVoid);
   (Cpp.Body.velocityIterations, Cpp.TVoid); (Cpp.Body.positionIterations, Cpp.TVoid);
   (Cpp.Body.autoClearForces, Cpp.TVoid); (Cpp.Body.world, Cpp.TVoid);
   (Cpp.Body.clearForces, Cpp.TVoid)].

(** A function is pure: called on an argument of its parameter type, it
    gives a value that does not depend on the world object it is called
    from, logs no event and leaves the world object as it was. *)
Definition pure_function (b2_pi : float32) (f : Cpp.body * Cpp.type) : Prop :=
  forall (W : Type) (ops : b2WorldOps W) (a : Cpp.value W),
    Cpp.type_of a = snd f ->
    exists v : Cpp.value W,
      forall w : Box2DWorld.t W, Cpp.run b2_pi (fst f) a w = ([], inl (v, w)).

(** A function has no failure of its own, and neither retries nor recovers:
    it calls the engine once at most; a call that completes has swallowed
    no fault of the engine; a call that fails does so with the fault of the
    engine call it made last. *)
Definition no_failure_of_its_own (b2_pi : float32) (f : Cpp.body * Cpp.type) : Prop :=
  forall (W : Type) (ops : b2WorldOps W) (a : Cpp.value W) (w : Box2DWorld.t W),
    Cpp.type_of a = snd f ->
    (count is_engine_call (fst (Cpp.run b2_pi (fst f) a w)) <= 1)%nat /\
    match snd (Cpp.run b2_pi (fst f) a w) with
    | inl _ =>
        In EngineClearForces (fst (Cpp.run b2_pi (fst f) a w)) ->
        exists b2, b2_ClearForces (Box2DWorld.mWorld w) = Done b2
    | inr x =>
        exists o, x = Cpp.Propagated o /\
                  last (fst (Cpp.run b2_pi (fst f) a w)) = Some EngineClearForces /\
                  b2_ClearForces (Box2DWorld.mWorld w) = Fault o
    end.

(** A small engine to run the wrapper on: its world counts the advances,
    every advance solves the contacts 1 and 2, its gravity is fixed at
    (0, -10), and no call faults. *)
#[global] Instance counting_engine : b2WorldOps nat := {
  b2_GetGravity := fun _ => b2Vec2.mk (Binary32.of_int 0) (Binary32.of_int (-10));
  b2_SetGravity := fun _ n => Done n;
  b2_GetAutoClearForces := fun _ => true;
  b2_SetAutoClearForces := fun _ n => Done n;
  b2_ClearForces := fun n => Done n;
  b2_Step := fun _ _ _ n => Done ([1%positive; 2%positive], S n)
}.

(** ** The destruction listener *)

(** The engine objects whose implicit destruction the listener is told
    about: [b2Joint] and [b2Fixture], by address. *)
Inductive b2Object : Type :=
| b2Joint (address : positive)
| b2Fixture (address : positive).

(** Modelled from the spec: the wrapper objects of joints and fixtures
    ([Box2DJoint], [Box2DFixture]) are declared outside the header.  Each one
    holds a reference to its engine object, or none.  [joints] and
    [fixtures] are the engine objects whose memory is allocated. *)
Module Scene.
Record t : Type := mk {
  joints : gset positive;
  fixtures : gset positive;
  jointWrappers : gmap positive (option positive);
  fixtureWrappers : gmap positive (option positive)
}.
End Scene.

Definition clear_reference (a : positive) (r : option positive) : option positive :=
  if decide (r = Some a) then None else r.

(** Modelled from the spec: the two overloads of [Box2DWorld::SayGoodbye],
    for a joint and for a fixture, are defined in box2dworld.cpp.  The
    callback clears the reference of any wrapper object to the object that
    is being destroyed. *)
Definition SayGoodbye (o : b2Object) (s : Scene.t) : Scene.t :=
  match o with
  | b2Joint a =>
      Scene.mk (Scene.joints s) (Scene.fixtures s)
        (clear_reference a <$> Scene.jointWrappers s) (Scene.fixtureWrappers s)
  | b2Fixture a =>
      Scene.mk (Scene.joints s) (Scene.fixtures s)
        (Scene.jointWrappers s) (clear_reference a <$> Scene.fixtureWrappers s)
  end.

(** Modelled from the spec: the engine releases the memory of an object it
    destroys. *)
Definition b2Free (o : b2Object) (s : Scene.t) : Scene.t :=
  match o with
  | b2Joint a =>
      Scene.mk (Scene.joints s ∖ {[a]}) (Scene.fixtures s)
        (Scene.jointWrappers s) (Scene.fixtureWrappers s)
  | b2Fixture a =>
      Scene.mk (Scene.joints s) (Scene.fixtures s ∖ {[a]})
        (Scene.jointWrappers s) (Scene.fixtureWrappers s)
  end.

Inductive destruction_event : Type :=
| Goodbye (o : b2Object)
| Freed (o : b2Object).

(** Modelled from the spec: the engine's destruction-callback contract.  For
    every joint or fixture it destroys implicitly (as when their body is
    destroyed), the engine calls the listener and then frees the object. *)
Fixpoint destroyImplicitly (objects : list b2Object) (s : Scene.t) :
  list destruction_event * Scene.t :=
  match objects with
  | [] => ([], s)
  | o :: rest =>
      let '(tr, s') := destroyImplicitly rest (b2Free o (SayGoodbye o s)) in
      (Goodbye o :: Freed o :: tr, s')
  end.

(** The wrapper object [w] refers to the engine object [o]. *)
Definition refers_to (s : Scene.t) (w : positive) (o : b2Object) : Prop :=
  match o with
  | b2Joint a => Scene.jointWrappers s !! w = Some (Some a)
  | b2Fixture a => Scene.fixtureWrappers s !! w = Some (Some a)
  end.

Definition allocated (s : Scene.t) (o : b2Object) : Prop :=
  match o with
  | b2Joint a => a ∈ Scene.joints s
  | b2Fixture a => a ∈ Scene.fixtures s
  end.

(** No wrapper object refers to freed memory. *)
Definition no_dangling (s : Scene.t) : Prop :=
  forall w o, refers_to s w o -> allocated s o.

(** * Properties *)

(** ** Rounding of representable values *)

Lemma digits2_pos_size (m : positive) : digits2_pos m = Pos.size m.
Proof. induction m as [m IH|m IH|]; simpl; congruence. Qed.

Lemma digits2_pos_log2 (m : positive) :
  Z.pos (digits2_pos m) = Z.log2 (Z.pos m) + 1.
Proof.
  destruct m as [m|m|]; simpl; rewrite ?digits2_pos_size; lia.
Qed.

Lemma digits2_pos_shift (m M : positive) (n : Z) :
  0 <= n -> Z.pos M = Z.pos m * 2 ^ n ->
  Z.pos (digits2_pos M) = Z.pos (digits2_pos m) + n.
Proof.
  intros Hn HM. rewrite !digits2_pos_log2, HM.
  rewrite Z.log2_mul_pow2 by lia. lia.
Qed.

Lemma iter_pos_nat {A} (f : A -> A) (p : positive) (a : A) :
  SpecFloat.iter_pos f p a = Nat.iter (Pos.to_nat p) f a.
Proof.
  revert a. induction p as [p IH|p IH|]; intros a; cbn [SpecFloat.iter_pos].
  - rewrite !IH, Pos2Nat.inj_xI.
    replace (S (2 * Pos.to_nat p)) with (Pos.to_nat p + Pos.to_nat p + 1)%nat by lia.
    rewrite !Nat.iter_add. reflexivity.
  - rewrite !IH, Pos2Nat.inj_xO.
    replace (2 * Pos.to_nat p)%nat with (Pos.to_nat p + Pos.to_nat p)%nat by lia.
    now rewrite Nat.iter_add.
  - reflexivity.
Qed.

(** Shifting an exact record right by [n] bits divides an exact multiple of
    [2^n]. *)
Lemma shr_iter_exact (n : nat) (m : positive) (M : Z) :
  M = Z.pos m * 2 ^ Z.of_nat n ->
  Nat.iter n shr_1 (Build_shr_record M false false) =
  Build_shr_record (Z.pos m) false false.
Proof.
  revert M. induction n as [|n IH]; intros M HM.
  - simpl. f_equal. rewrite HM. simpl. lia.
  - rewrite Nat.iter_succ_r.
    assert (HM' : M = 2 * (Z.pos m * 2 ^ Z.of_nat n)).
    { rewrite HM, Nat2Z.inj_succ, Z.pow_succ_r by lia. ring. }
    destruct (Z.pos m * 2 ^ Z.of_nat n) as [|q|q] eqn:Hq; try lia.
    rewrite HM'. simpl. apply IH. lia.
Qed.

Section Format.
Variables prec emax : Z.

Lemma shr_exact (m M : positive) (e n : Z) :
  0 <= n -> Z.pos M = Z.pos m * 2 ^ n ->
  shr (Build_shr_record (Z.pos M) false false) e n =
  (Build_shr_record (Z.pos m) false false, e + n).
Proof.
  intros Hn HM. unfold shr. destruct n as [|p|p]; try lia.
  - f_equal; [|lia]. f_equal. lia.
  - f_equal. rewrite iter_pos_nat. apply shr_iter_exact.
    now rewrite positive_nat_Z.
Qed.

Lemma binary_round_aux_exact (s : bool) (m M : positive) (e n : Z) :
  bounded prec emax m e = true ->
  0 <= n -> Z.pos M = Z.pos m * 2 ^ n ->
  binary_round_aux prec emax s (Z.pos M) (e - n) loc_Exact = S754_finite s m e.
Proof.
  intros Hb Hn HM.
  unfold bounded, canonical_mantissa in Hb.
  apply andb_true_iff in Hb as [Hc He].
  apply Z.eqb_eq in Hc. apply Z.leb_le in He.
  pose proof (digits2_pos_shift m M n Hn HM) as Hd.
  unfold binary_round_aux, shr_fexp. simpl Zdigits2. simpl shr_record_of_loc.
  replace (Z.pos (digits2_pos M) + (e - n)) with (Z.pos (digits2_pos m) + e) by lia.
  rewrite Hc.
  replace (e - (e - n)) with n by lia.
  rewrite (shr_exact m M (e - n) n Hn HM).
  simpl. replace (e - n + n) with e by lia.
  rewrite Hc, Z.sub_diag. simpl.
  apply Z.leb_le in He. now rewrite He.
Qed.

Lemma binary_round_exact_down (s : bool) (m M : positive) (e n : Z) :
  bounded prec emax m e = true ->
  0 <= n -> Z.pos M = Z.pos m * 2 ^ n ->
  binary_round prec emax s M (e - n) = S754_finite s m e.
Proof.
  intros Hb Hn HM. unfold binary_round, shl_align.
  pose proof (digits2_pos_shift m M n Hn HM) as Hd.
  pose proof Hb as Hc. unfold bounded, canonical_mantissa in Hc.
  apply andb_true_iff in Hc as [Hc _]. apply Z.eqb_eq in Hc.
  replace (Z.pos (digits2_pos M) + (e - n)) with (Z.pos (digits2_pos m) + e) by lia.
  rewrite Hc. replace (e - (e - n)) with n by lia.
  destruct n as [|p|p]; try lia; now apply binary_round_aux_exact.
Qed.

Lemma binary_round_exact_up (s : bool) (m M : positive) (e k : Z) :
  bounded prec emax m e = true ->
  0 <= k -> Z.pos m = Z.pos M * 2 ^ k ->
  binary_round prec emax s M (e + k) = S754_finite s m e.
Proof.
  intros Hb Hk Hm. unfold binary_round, shl_align.
  pose proof (digits2_pos_shift M m k Hk Hm) as Hd.
  pose proof Hb as Hc. unfold bounded, canonical_mantissa in Hc.
  apply andb_true_iff in Hc as [Hc _]. apply Z.eqb_eq in Hc.
  replace (Z.pos (digits2_pos M) + (e + k)) with (Z.pos (digits2_pos m) + e) by lia.
  rewrite Hc. replace (e - (e + k)) with (- k) by lia.
  destruct k as [|p|p]; try lia.
  - change (- 0) with 0. cbv beta iota. replace (e + 0) with (e - 0) by lia.
    apply binary_round_aux_exact; [assumption|lia|lia].
  - change (- Z.pos p) with (Z.neg p). cbv beta iota.
    replace (binary_round_aux prec emax s (Z.pos (Pos.iter xO M p)) e)
      with (binary_round_aux prec emax s (Z.pos (Pos.iter xO M p)) (e - 0))
      by (f_equal; lia).
    apply binary_round_aux_exact; [assumption|lia|].
    change (Pos.iter xO M p) with (shift_pos p M).
    rewrite shift_pos_correct, Z.pow_pos_fold. lia.
Qed.

(** Rounding is symmetric in the sign. *)
Lemma binary_round_aux_opp (s : bool) (M E : Z) (l : location) :
  binary_round_aux prec emax (negb s) M E l =
  SFopp (binary_round_aux prec emax s M E l).
Proof.
  unfold binary_round_aux.
  destruct (shr_fexp prec emax M E l) as [mrs e'].
  destruct (shr_fexp prec emax _ e' loc_Exact) as [mrs' e''].
  destruct (shr_m mrs'); try reflexivity.
  now destruct (e'' <=? emax - prec).
Qed.

Lemma binary_round_opp (s : bool) (m : positive) (e : Z) :
  binary_round prec emax (negb s) m e = SFopp (binary_round prec emax s m e).
Proof.
  unfold binary_round. destruct (shl_align m e _) as [mz ez].
  apply binary_round_aux_opp.
Qed.

Lemma SFmul_comm (a b : spec_float) : SFmul prec emax a b = SFmul prec emax b a.
Proof.
  destruct a as [sa|sa| |sa ma ea], b as [sb|sb| |sb mb eb]; simpl;
    rewrite ?(xorb_comm sa sb); try reflexivity.
  now rewrite (Pos.mul_comm ma mb), (Z.add_comm ea eb).
Qed.

Lemma SFmul_opp_l (a b : spec_float) :
  SFmul prec emax (SFopp a) b = SFopp (SFmul prec emax a b).
Proof.
  destruct a as [sa|sa| |sa ma ea], b as [sb|sb| |sb mb eb]; simpl;
    rewrite <- ?negb_xorb_l; try reflexivity.
  apply binary_round_aux_opp.
Qed.

Lemma SFmul_opp_r (a b : spec_float) :
  SFmul prec emax a (SFopp b) = SFopp (SFmul prec emax a b).
Proof. now rewrite SFmul_comm, SFmul_opp_l, SFmul_comm. Qed.

Lemma SFdiv_opp_l (a b : spec_float) :
  SFdiv prec emax (SFopp a) b = SFopp (SFdiv prec emax a b).
Proof.
  destruct a as [sa|sa| |sa ma ea], b as [sb|sb| |sb mb eb]; simpl;
    rewrite <- ?negb_xorb_l; try reflexivity.
  destruct (SFdiv_core_binary prec emax (Z.pos ma) ea (Z.pos mb) eb) as [[mz ez] lz].
  apply binary_round_aux_opp.
Qed.

(** A product whose exact value [m * 2^e] is representable is that value. *)
Lemma SFmul_exact (sa sb : bool) (ma mb m : positive) (ea eb e n : Z) :
  bounded prec emax m e = true ->
  0 <= n -> Z.pos ma * Z.pos mb = Z.pos m * 2 ^ n -> ea + eb = e - n ->
  SFmul prec emax (S754_finite sa ma ea) (S754_finite sb mb eb) =
  S754_finite (xorb sa sb) m e.
Proof.
  intros Hb Hn Hm He. simpl. rewrite He.
  apply binary_round_aux_exact; [assumption..|]. now rewrite Pos2Z.inj_mul.
Qed.
End Format.

(** ** Single and double precision values *)

Lemma pixelsPerMeter_eq : pixelsPerMeter = S754_finite false 8388608 (-18).
Proof. reflexivity. Qed.

Lemma metersPerPixel_eq : metersPerPixel = S754_finite false 8388608 (-28).
Proof. reflexivity. Qed.

Lemma metersPerPixel_double :
  Binary64.of_float metersPerPixel = S754_finite false 4503599627370496 (-57).
Proof. reflexivity. Qed.

(** A valid single is normal (24 digits) or subnormal (exponent -149). *)
Lemma valid32_inv (s : bool) (m : positive) (e : Z) :
  Binary32.valid (S754_finite s m e) = true ->
  1 <= Z.pos (digits2_pos m) <= 24 /\ -149 <= e <= 104 /\
  (Z.pos (digits2_pos m) = 24 \/ e = -149).
Proof.
  unfold Binary32.valid, valid_binary, bounded, canonical_mantissa, fexp, emin,
    Binary32.prec, Binary32.emax.
  intros H. apply andb_true_iff in H as [Hc He].
  apply Z.eqb_eq in Hc. apply Z.leb_le in He. lia.
Qed.

Lemma bounded32_intro (m : positive) (e : Z) :
  -149 <= e <= 104 -> Z.pos (digits2_pos m) <= 24 ->
  (Z.pos (digits2_pos m) = 24 \/ e = -149) ->
  bounded Binary32.prec Binary32.emax m e = true.
Proof.
  intros He Hd Hn.
  unfold bounded, canonical_mantissa, fexp, emin, Binary32.prec, Binary32.emax.
  apply andb_true_iff. split.
  - apply Z.eqb_eq. lia.
  - apply Z.leb_le. lia.
Qed.

Lemma bounded64_intro (m : positive) (e : Z) :
  -1074 <= e <= 971 -> Z.pos (digits2_pos m) <= 53 ->
  (Z.pos (digits2_pos m) = 53 \/ e = -1074) ->
  bounded Binary64.prec Binary64.emax m e = true.
Proof.
  intros He Hd Hn.
  unfold bounded, canonical_mantissa, fexp, emin, Binary64.prec, Binary64.emax.
  apply andb_true_iff. split.
  - apply Z.eqb_eq. lia.
  - apply Z.leb_le. lia.
Qed.

(** The positive number [m * 2^k]. *)
Lemma scaled_mantissa (m : positive) (k : Z) :
  0 <= k -> exists m' : positive, Z.pos m' = Z.pos m * 2 ^ k.
Proof.
  intros Hk. exists (Z.to_pos (Z.pos m * 2 ^ k)).
  rewrite Z2Pos.id; [reflexivity|]. pose proof (Z.pow_pos_nonneg 2 k). lia.
Qed.

(** Scaling a single by [2^5]: the mantissa is kept when the value is normal
    and shifted left by [k] bits when it is subnormal. *)
Lemma toPixels_finite (s : bool) (m : positive) (e : Z) :
  Binary32.valid (S754_finite s m e) = true -> e <= 99 ->
  exists (m' : positive) (k : Z),
    0 <= k <= 5 /\ Z.pos m' = Z.pos m * 2 ^ k /\
    bounded Binary32.prec Binary32.emax m' (e + 5 - k) = true /\
    toPixels (S754_finite s m e) = S754_finite s m' (e + 5 - k).
Proof.
  intros Hv He. pose proof (valid32_inv s m e Hv) as (Hd & Hr & Hn).
  set (k := Z.min 5 (24 - Z.pos (digits2_pos m))).
  assert (Hk : 0 <= k <= 5) by lia.
  destruct (scaled_mantissa m k) as [m' Hm']; [lia|].
  assert (Hb : bounded Binary32.prec Binary32.emax m' (e + 5 - k) = true).
  { pose proof (digits2_pos_shift m m' k (proj1 Hk) Hm').
    apply bounded32_intro; lia. }
  exists m', k. repeat split; try lia; try assumption.
  unfold toPixels, Binary32.mul. rewrite pixelsPerMeter_eq.
  rewrite (SFmul_exact Binary32.prec Binary32.emax s false m 8388608 m'
             e (-18) (e + 5 - k) (23 - k)); try assumption; try lia.
  - now rewrite xorb_false_r.
  - rewrite Hm', <- Z.mul_assoc, <- Z.pow_add_r by lia.
    replace (k + (23 - k)) with 23 by lia. reflexivity.
Qed.

Lemma toMeters_finite_scaled (s : bool) (m m' : positive) (e k : Z) :
  bounded Binary32.prec Binary32.emax m e = true ->
  0 <= k -> Z.pos m' = Z.pos m * 2 ^ k ->
  toMeters (S754_finite s m' (e + 5 - k)) = S754_finite s m e.
Proof.
  intros Hb Hk Hm'. unfold toMeters, Binary32.mul. rewrite metersPerPixel_eq.
  rewrite (SFmul_exact Binary32.prec Binary32.emax s false m' 8388608 m
             (e + 5 - k) (-28) e (23 + k)); try assumption; try lia.
  - now rewrite xorb_false_r.
  - rewrite Hm', Z.pow_add_r by lia. change (2 ^ 23) with 8388608. ring.
Qed.

(** Below [2^123] the scaling by 32 is undone exactly. *)
Lemma toMeters_toPixels_exact (L : float32) :
  Binary32.valid L = true -> exponent_in (-149) 99 L = true ->
  toMeters (toPixels L) = L.
Proof.
  intros Hv Hr. destruct L as [s|s| |s m e]; try reflexivity.
  - destruct s; vm_compute; reflexivity.
  - destruct s; vm_compute; reflexivity.
  - simpl in Hr. apply andb_true_iff in Hr as [_ Hr]. apply Z.leb_le in Hr.
    destruct (toPixels_finite s m e Hv Hr) as (m' & k & Hk & Hm' & _ & ->).
    apply toMeters_finite_scaled; [exact Hv|lia|exact Hm'].
Qed.

(** From [2^-121] up the scaling by 1/32 is undone exactly. *)
Lemma toPixels_toMeters_exact (L : float32) :
  Binary32.valid L = true -> exponent_in (-144) 104 L = true ->
  toPixels (toMeters L) = L.
Proof.
  intros Hv Hr. destruct L as [s|s| |s m e]; try reflexivity.
  - destruct s; vm_compute; reflexivity.
  - destruct s; vm_compute; reflexivity.
  - simpl in Hr. apply andb_true_iff in Hr as [Hr _]. apply Z.leb_le in Hr.
    pose proof (valid32_inv s m e Hv) as (Hd & He & Hn).
    assert (Hb : bounded Binary32.prec Binary32.emax m (e - 5) = true)
      by (apply bounded32_intro; lia).
    replace (toMeters (S754_finite s m e)) with (S754_finite s m (e - 5)).
    + destruct (toPixels_finite s m (e - 5) Hb ltac:(lia))
        as (m' & k & Hk & Hm' & Hb' & ->).
      pose proof (digits2_pos_shift m m' k (proj1 Hk) Hm') as Hd'.
      pose proof (valid32_inv s m' _ Hb'). assert (k = 0) by lia. subst k.
      rewrite Z.pow_0_r in Hm'. f_equal; lia.
    + symmetry. replace e with (e - 5 + 5 - 0) at 1 by lia.
      apply toMeters_finite_scaled; [exact Hb|lia|lia].
Qed.

(** Widening a single to a double keeps the value: the mantissa is shifted
    left to 53 digits. *)
Lemma widen_finite (s : bool) (m : positive) (e : Z) :
  Binary32.valid (S754_finite s m e) = true ->
  exists (m64 : positive) (j : Z),
    0 <= j /\ Z.pos m64 = Z.pos m * 2 ^ j /\
    Z.pos (digits2_pos m64) = 53 /\
    Binary64.of_float (S754_finite s m e) = S754_finite s m64 (e - j).
Proof.
  intros Hv. pose proof (valid32_inv s m e Hv) as (Hd & He & Hn).
  set (j := 53 - Z.pos (digits2_pos m)).
  destruct (scaled_mantissa m j) as [m64 Hm]; [lia|].
  pose proof (digits2_pos_shift m m64 j ltac:(lia) Hm) as Hd'.
  exists m64, j. repeat split; try lia.
  unfold Binary64.of_float. replace e with (e - j + j) at 1 by lia.
  apply binary_round_exact_up; [|lia|exact Hm].
  apply bounded64_intro; lia.
Qed.

Lemma narrow_widen (f : float32) :
  Binary32.valid f = true -> Binary32.of_float (Binary64.of_float f) = f.
Proof.
  intros Hv. destruct f as [s|s| |s m e]; try reflexivity.
  destruct (widen_finite s m e Hv) as (m64 & j & Hj & Hm & _ & ->).
  now apply binary_round_exact_down.
Qed.

Lemma SFopp_involutive (f : spec_float) : SFopp (SFopp f) = f.
Proof. destruct f as [s|s| |s m e]; simpl; now rewrite ?negb_involutive. Qed.

Lemma of_float64_opp (f : spec_float) :
  Binary64.of_float (SFopp f) = SFopp (Binary64.of_float f).
Proof. destruct f as [s|s| |s m e]; try reflexivity. apply binary_round_opp. Qed.

Lemma of_float32_opp (f : spec_float) :
  Binary32.of_float (SFopp f) = SFopp (Binary32.of_float f).
Proof. destruct f as [s|s| |s m e]; try reflexivity. apply binary_round_opp. Qed.

(** Scaling a widened single by 1/32 in double precision. *)
Lemma mul64_metersPerPixel (s : bool) (m64 : positive) (e64 : Z) :
  Z.pos (digits2_pos m64) = 53 -> -1069 <= e64 <= 976 ->
  Binary64.mul (S754_finite s m64 e64) (Binary64.of_float metersPerPixel) =
  S754_finite s m64 (e64 - 5).
Proof.
  intros Hd He. unfold Binary64.mul. rewrite metersPerPixel_double.
  rewrite (SFmul_exact Binary64.prec Binary64.emax s false m64 4503599627370496 m64
             e64 (-57) (e64 - 5) 52);
    [now rewrite xorb_false_r|apply bounded64_intro; lia|lia|reflexivity|lia].
Qed.

(** One coordinate of [toMeters (toPixels v)], without the sign inversion. *)
Lemma coordinate_pixels_meters (a : float32) :
  Binary32.valid a = true -> exponent_in (-149) 99 a = true ->
  Binary32.of_float
    (Binary64.mul (Binary64.of_float (toPixels a)) (Binary64.of_float metersPerPixel)) = a.
Proof.
  intros Hv Hr. destruct a as [s|s| |s m e]; try reflexivity.
  - destruct s; vm_compute; reflexivity.
  - destruct s; vm_compute; reflexivity.
  - simpl in Hr. apply andb_true_iff in Hr as [_ Hr]. apply Z.leb_le in Hr.
    pose proof (valid32_inv s m e Hv) as (_ & He & _).
    destruct (toPixels_finite s m e Hv Hr) as (m' & k & Hk & Hm' & Hb' & ->).
    destruct (widen_finite s m' _ Hb') as (m64 & j & Hj & Hm & Hd & ->).
    pose proof (valid32_inv s m' _ Hb') as (Hd' & _ & _).
    pose proof (digits2_pos_shift m' m64 j Hj Hm) as Hdj.
    rewrite mul64_metersPerPixel by lia.
    unfold Binary32.of_float.
    replace (e + 5 - k - j - 5) with (e - (k + j)) by lia.
    apply binary_round_exact_down; [exact Hv|lia|].
    rewrite Hm, Hm', Z.pow_add_r by lia. ring.
Qed.

(** The inverted-axis products are the negated products. *)
Lemma mul_pixelsPerMeterY (a : float32) :
  Binary32.mul a pixelsPerMeterY = SFopp (toPixels a).
Proof. apply SFmul_opp_r. Qed.

Lemma mul_metersPerPixelY (a : qreal) :
  Binary64.mul a (Binary64.of_float metersPerPixelY) =
  SFopp (Binary64.mul a (Binary64.of_float metersPerPixel)).
Proof.
  unfold metersPerPixelY. rewrite of_float64_opp. apply SFmul_opp_r.
Qed.

(** ** The helpers on concrete values *)

(** One meter is 32 pixels, and back. *)
Example toPixels_one :
  toPixels (Binary32.of_int 1) = Binary32.of_int 32 /\
  toMeters (Binary32.of_int 32) = Binary32.of_int 1.
Proof. split; reflexivity. Qed.

(** The point 1 m to the right and 2 m up is 32 pixels to the right and 64
    pixels up the screen, where y grows downwards. *)
Example toPixels_vector :
  toPixels_b2Vec2 (b2Vec2.mk (Binary32.of_int 1) (Binary32.of_int 2)) =
  QPointF.mk (Binary64.of_int 32) (Binary64.of_int (-64)).
Proof. reflexivity. Qed.

(** Half a turn counter-clockwise is 180 degrees clockwise. *)
Example toDegrees_pi :
  toDegrees b2_pi_literal b2_pi_literal = Binary32.of_int (-180) /\
  toRadians b2_pi_literal (Binary32.of_int (-180)) = b2_pi_literal.
Proof. split; reflexivity. Qed.

(** An angle need not come back exactly: [12345679 * 2^-23], about 1.47
    radians, returns one unit in the last place higher. *)
Example toRadians_toDegrees_inexact :
  toRadians b2_pi_literal (toDegrees b2_pi_literal (S754_finite false 12345679 (-23))) =
  S754_finite false 12345680 (-23).
Proof. reflexivity. Qed.

(** [13176795 * 2^-22] is the single nearest to the literal 3.14159265359:
    they differ by less than half a unit in the last place. *)
Lemma b2_pi_literal_nearest :
  (2 * Z.abs (13176795 * 10 ^ 11 - 314159265359 * 2 ^ 22) < 10 ^ 11)%Z /\
  in_binade_of_pi b2_pi_literal = true /\ Binary32.valid b2_pi_literal = true.
Proof. split; [reflexivity|]. split; reflexivity. Qed.

(** The default time step is the single nearest to 1/60. *)
Example default_timeStep :
  Binary32.div (Binary32.of_int 1) (Binary32.of_int 60) = S754_finite false 8947849 (-29).
Proof. reflexivity. Qed.

(** ** Rounding error *)

Local Open Scope Q_scope.

Lemma inject_Z_xO (p : positive) : inject_Z (Z.pos p~0) == 2 * inject_Z (Z.pos p).
Proof. rewrite Pos2Z.inj_xO, inject_Z_mult. reflexivity. Qed.

Lemma inject_Z_xI (p : positive) : inject_Z (Z.pos p~1) == 2 * inject_Z (Z.pos p) + 1.
Proof. rewrite Pos2Z.inj_xI, inject_Z_plus, inject_Z_mult. reflexivity. Qed.

(** One shift step halves the located value. *)
Lemma shr_1_located (mrs : shr_record) (t : Q) :
  (0 <= shr_m mrs)%Z -> located mrs t ->
  located (shr_1 mrs) (t * (1 # 2)) /\ (0 <= shr_m (shr_1 mrs))%Z.
Proof.
  destruct mrs as [m r s]. unfold located. cbn [shr_m shr_r shr_s].
  intros Hm Ht. destruct m as [|p|p]; [| |lia].
  - change (inject_Z 0) with 0 in Ht.
    destruct r, s; cbn [shr_1 orb shr_m shr_r shr_s]; change (inject_Z 0) with 0;
      (split; [lra|lia]).
  - destruct p as [p|p|]; destruct r, s; cbn [shr_1 orb shr_m shr_r shr_s];
      rewrite ?inject_Z_xO, ?inject_Z_xI in Ht;
      change (inject_Z 1) with 1 in Ht; change (inject_Z 0) with 0;
      (split; [lra|lia]).
Qed.

Lemma pow2_pos (e : Z) : 0 < 2 ^ e.
Proof. apply Qpower_0_lt. lra. Qed.

Lemma pow2_add (a b : Z) : 2 ^ (a + b) == 2 ^ a * 2 ^ b.
Proof. apply Qpower_plus. lra. Qed.

Lemma pow2_inv (a : Z) : 2 ^ a * 2 ^ (- a) == 1.
Proof. rewrite <- pow2_add, Z.add_opp_diag_r. reflexivity. Qed.

Lemma pow2_Z (n : Z) : (0 <= n)%Z -> inject_Z (2 ^ n) == 2 ^ n.
Proof. intros Hn. now rewrite Zpower_Qpower. Qed.

Lemma located_ext (mrs : shr_record) (t t' : Q) :
  t == t' -> located mrs t -> located mrs t'.
Proof.
  intros Heq. unfold located. destruct (shr_r mrs), (shr_s mrs); rewrite Heq; tauto.
Qed.

Lemma shr_iter_located (n : nat) (mrs : shr_record) (t : Q) :
  (0 <= shr_m mrs)%Z -> located mrs t ->
  located (Nat.iter n shr_1 mrs) (t * 2 ^ (- Z.of_nat n)) /\
  (0 <= shr_m (Nat.iter n shr_1 mrs))%Z.
Proof.
  induction n as [|n IH]; intros Hm Ht.
  - cbn [Nat.iter]. split; [|exact Hm].
    apply (located_ext mrs t); [|exact Ht]. change (2 ^ (- Z.of_nat 0)) with 1. lra.
  - destruct (IH Hm Ht) as [Hl Hp].
    destruct (shr_1_located _ _ Hp Hl) as [Hl' Hp'].
    cbn [Nat.iter]. split; [|exact Hp'].
    eapply located_ext; [|exact Hl'].
    replace (- Z.of_nat (S n))%Z with (- Z.of_nat n + -1)%Z by lia.
    rewrite pow2_add. change (2 ^ (-1)) with (1 # 2). lra.
Qed.

Lemma located_bounds (mrs : shr_record) (t : Q) :
  located mrs t -> inject_Z (shr_m mrs) <= t /\ t < inject_Z (shr_m mrs) + 1.
Proof. unfold located. destruct (shr_r mrs), (shr_s mrs); intros Ht; lra. Qed.

Lemma located_of_loc (M : Z) (l : location) : shr_m (shr_record_of_loc M l) = M.
Proof. now destruct l as [|[]]. Qed.

(** Rounding to nearest moves the mantissa by at most one half. *)
Lemma round_nearest_even_located (mrs : shr_record) (t : Q) :
  located mrs t ->
  (shr_m mrs <= round_nearest_even (shr_m mrs) (loc_of_shr_record mrs) <= shr_m mrs + 1)%Z /\
  - (1 # 2) <= inject_Z (round_nearest_even (shr_m mrs) (loc_of_shr_record mrs)) - t /\
  inject_Z (round_nearest_even (shr_m mrs) (loc_of_shr_record mrs)) - t <= 1 # 2.
Proof.
  destruct mrs as [m r s]. unfold located. cbn [shr_m shr_r shr_s loc_of_shr_record].
  intros Ht.
  destruct r, s; cbn [round_nearest_even];
    try destruct (Z.even m); rewrite ?inject_Z_plus; change (inject_Z 1) with 1;
    (split; [lia|lra]).
Qed.

Lemma Zdigits2_log2 (M : Z) : (0 < M)%Z -> Zdigits2 M = (Z.log2 M + 1)%Z.
Proof. destruct M as [|p|p]; try lia. intros _. apply digits2_pos_log2. Qed.

Lemma Zdigits2_bounds (M : Z) :
  (0 < M)%Z -> (2 ^ (Zdigits2 M - 1) <= M < 2 ^ Zdigits2 M)%Z.
Proof.
  intros HM. rewrite Zdigits2_log2 by assumption.
  replace (Z.log2 M + 1 - 1)%Z with (Z.log2 M) by lia.
  pose proof (Z.log2_spec M HM). unfold Z.succ in *. lia.
Qed.

Lemma Zdigits2_pos (M : Z) : (0 < M)%Z -> (0 < Zdigits2 M)%Z.
Proof.
  intros HM. rewrite Zdigits2_log2 by assumption.
  pose proof (Z.log2_nonneg M). lia.
Qed.

(** Powers of two compare as their exponents. *)
Lemma pow2_lt_inv (a b : Z) : (0 <= b)%Z -> (2 ^ a < 2 ^ b)%Z -> (a < b)%Z.
Proof. intros Hb H. apply (Z.pow_lt_mono_r_iff 2); [lia|exact Hb|exact H]. Qed.

Lemma Zdigits2_unique (M k : Z) :
  (0 < k)%Z -> (2 ^ (k - 1) <= M < 2 ^ k)%Z -> Zdigits2 M = k.
Proof.
  intros Hk HM.
  assert (0 < M)%Z by (pose proof (Z.pow_pos_nonneg 2 (k - 1)); lia).
  rewrite Zdigits2_log2 by assumption.
  rewrite (Z.log2_unique M (k - 1)); [lia|lia|].
  replace (Z.succ (k - 1)) with k by lia. exact HM.
Qed.

Lemma shr_nat (mrs : shr_record) (e n : Z) :
  (0 <= n)%Z -> shr mrs e n = (Nat.iter (Z.to_nat n) shr_1 mrs, (e + n)%Z).
Proof.
  intros Hn. unfold shr. destruct n as [|p|p]; try lia.
  - cbn. now rewrite Z.add_0_r.
  - now rewrite iter_pos_nat.
Qed.

Lemma Qlt_inject_Z (a b : Z) : inject_Z a < inject_Z b -> (a < b)%Z.
Proof. now rewrite <- Zlt_Qlt. Qed.

Lemma rel_err_ext (eps x x' y y' : Q) :
  x == x' -> y == y' -> rel_err eps x y -> rel_err eps x' y'.
Proof. unfold rel_err. now intros -> ->. Qed.

Lemma SF2Q_finite (s : bool) (m : positive) (e : Z) :
  SF2Q (S754_finite s m e) == sign_of s * (inject_Z (Z.pos m) * 2 ^ e).
Proof. reflexivity. Qed.

Lemma sign_of_xorb (a b : bool) : sign_of (xorb a b) == sign_of a * sign_of b.
Proof. now destruct a, b. Qed.

Lemma rel_err_sign (eps x y : Q) (s : bool) :
  rel_err eps x y -> rel_err eps (sign_of s * x) (sign_of s * y).
Proof.
  unfold rel_err, sign_of. intros H. destruct s; [|now rewrite !Qmult_1_l].
  assert (He : -1 * x - -1 * y == - (x - y)) by ring.
  assert (Hy : -1 * y == - y) by ring.
  now rewrite He, Hy, !Qabs_opp.
Qed.

Lemma digits_bounds (m : positive) (k : Z) :
  Z.pos (digits2_pos m) = k -> (2 ^ (k - 1) <= Z.pos m < 2 ^ k)%Z.
Proof. intros <-. apply (Zdigits2_bounds (Z.pos m)). lia. Qed.

Ltac solve_located :=
  match goal with
  | |- _ /\ _ => split; nra
  | Hd : 0 < ?c |- _ == _ => apply (Qmult_inj_r _ _ c); [lra|first [lra|nra]]
  end.

(** The location that the division computes for the remainder [r]. *)
Lemma new_location_located (q d r : Z) (t : Q) :
  (0 < d)%Z -> (0 <= r < d)%Z ->
  t * inject_Z d == inject_Z q * inject_Z d + inject_Z r ->
  located (shr_record_of_loc q (new_location d r)) t.
Proof.
  intros Hd Hr Ht.
  assert (Hd' : 0 < inject_Z d) by (change 0 with (inject_Z 0); now rewrite <- Zlt_Qlt).
  assert (Hr' : 0 <= inject_Z r) by (change 0 with (inject_Z 0); now rewrite <- Zle_Qle).
  assert (Hrd : inject_Z r < inject_Z d) by (rewrite <- Zlt_Qlt; lia).
  assert (Hcmp : forall c, (2 * r ?= d)%Z = c ->
            match c with
            | Lt => 2 * inject_Z r < inject_Z d
            | Eq => 2 * inject_Z r == inject_Z d
            | Gt => inject_Z d < 2 * inject_Z r
            end).
  { intros c Hc. change 2 with (inject_Z 2). rewrite <- inject_Z_mult.
    destruct c.
    - apply Z.compare_eq in Hc. now rewrite Hc.
    - rewrite <- Zlt_Qlt. now apply Z.compare_lt_iff.
    - rewrite <- Zlt_Qlt. now apply Z.compare_gt_iff. }
  unfold new_location. destruct (Z.even d) eqn:Heven.
  - unfold new_location_even. destruct (Z.eqb_spec r 0) as [->|Hr0].
    + unfold located. cbn [shr_record_of_loc shr_m shr_r shr_s].
      change (inject_Z 0) with 0 in Ht. solve_located.
    + assert (0 < inject_Z r) by (change 0 with (inject_Z 0); rewrite <- Zlt_Qlt; lia).
      pose proof (Hcmp _ eq_refl) as Hc.
      destruct (2 * r ?= d)%Z; cbv beta iota in Hc; unfold located;
        cbn [shr_record_of_loc shr_m shr_r shr_s]; solve_located.
  - unfold new_location_odd. destruct (Z.eqb_spec r 0) as [->|Hr0].
    + unfold located. cbn [shr_record_of_loc shr_m shr_r shr_s].
      change (inject_Z 0) with 0 in Ht. solve_located.
    + assert (0 < inject_Z r) by (change 0 with (inject_Z 0); rewrite <- Zlt_Qlt; lia).
      assert (Hodd : (2 * r <> d)%Z).
      { intros <-. rewrite Z.even_mul in Heven. discriminate. }
      destruct (2 * r + 1 ?= d)%Z eqn:Hc1.
      * apply Z.compare_eq in Hc1.
        assert (Hlt : (2 * r ?= d)%Z = Lt) by (apply Z.compare_lt_iff; lia).
        pose proof (Hcmp _ Hlt) as Hc. cbv beta iota in Hc.
        unfold located; cbn [shr_record_of_loc shr_m shr_r shr_s]; solve_located.
      * rewrite Z.compare_lt_iff in Hc1.
        assert (Hlt : (2 * r ?= d)%Z = Lt) by (apply Z.compare_lt_iff; lia).
        pose proof (Hcmp _ Hlt) as Hc. cbv beta iota in Hc.
        unfold located; cbn [shr_record_of_loc shr_m shr_r shr_s]; solve_located.
      * rewrite Z.compare_gt_iff in Hc1.
        assert (Hgt : (2 * r ?= d)%Z = Gt) by (apply Z.compare_gt_iff; lia).
        pose proof (Hcmp _ Hgt) as Hc. cbv beta iota in Hc.
        unfold located; cbn [shr_record_of_loc shr_m shr_r shr_s]; solve_located.
Qed.

(** The left shift of the dividend in [SFdiv_core_binary]. *)
Lemma shiftl_dividend (m s : Z) :
  (0 < s)%Z ->
  match s with
  | Z.pos _ => Z.shiftl m s
  | Z0 => m
  | Z.neg _ => Z0
  end = (m * 2 ^ s)%Z.
Proof. intros Hs. destruct s; try lia. apply Z.shiftl_mul_pow2. lia. Qed.

Section Rounding.
Variables prec emax : Z.
Hypothesis prec_pos : (0 < prec)%Z.

(** The first shift of [binary_round_aux], in the normal range: the
mantissa gets [prec] digits and the record locates the scaled value. *)
Lemma shr_fexp_normal (M E : Z) (l : location) (t : Q) :
(0 < M)%Z -> located (shr_record_of_loc M l) t ->
(prec <= Zdigits2 M)%Z -> (emin prec emax <= Zdigits2 M + E - prec)%Z ->
exists mrs : shr_record,
shr_fexp prec emax M E l = (mrs, (Zdigits2 M + E - prec)%Z) /\
located mrs (t * 2 ^ (prec - Zdigits2 M)) /\
(2 ^ (prec - 1) <= shr_m mrs < 2 ^ prec)%Z /\
2 ^ (prec - 1) <= t * 2 ^ (prec - Zdigits2 M).
Proof.
intros HM Ht Hd He.
set (d := Zdigits2 M) in *. set (n := (d - prec)%Z).
assert (Hn : (0 <= n)%Z) by (unfold n; lia).
unfold shr_fexp, fexp. fold d.
rewrite Z.max_l by lia.
replace (d + E - prec - E)%Z with n by (unfold n; lia).
rewrite shr_nat by exact Hn.
replace (E + n)%Z with (d + E - prec)%Z by (unfold n; lia).
destruct (shr_iter_located (Z.to_nat n) (shr_record_of_loc M l) t) as [Hl Hp];
[rewrite located_of_loc; lia|exact Ht|].
rewrite Z2Nat.id in Hl by exact Hn.
replace (- n)%Z with (prec - d)%Z in Hl by (unfold n; lia).
eexists. split; [reflexivity|]. split; [exact Hl|].
set (mrs := Nat.iter (Z.to_nat n) shr_1 (shr_record_of_loc M l)) in *.
set (t1 := t * 2 ^ (prec - d)) in *.
(* bounds on t, from the digits of M *)
pose proof (located_bounds _ _ Ht) as [HtM HtM1]. rewrite located_of_loc in HtM, HtM1.
pose proof (Zdigits2_bounds M HM) as [HlM HuM]. fold d in HlM, HuM.
assert (Hlo : 2 ^ (d - 1) <= t).
{ rewrite <- pow2_Z by lia. apply Qle_trans with (inject_Z M); [|exact HtM].
now rewrite <- Zle_Qle. }
assert (Hhi : t < 2 ^ d).
{ rewrite <- pow2_Z by lia. apply Qlt_le_trans with (inject_Z M + 1); [exact HtM1|].
change 1 with (inject_Z 1). rewrite <- inject_Z_plus, <- Zle_Qle. lia. }
assert (Hlo1 : 2 ^ (prec - 1) <= t1).
{ unfold t1. replace (prec - 1)%Z with ((d - 1) + (prec - d))%Z by lia.
rewrite pow2_add. pose proof (pow2_pos (prec - d)). nra. }
assert (Hhi1 : t1 < 2 ^ prec).
{ unfold t1. replace prec with (d + (prec - d))%Z at 2 by lia.
rewrite pow2_add. pose proof (pow2_pos (prec - d)). nra. }
split; [|exact Hlo1].
pose proof (located_bounds _ _ Hl) as [Hm1 Hm2]. fold t1 in Hm1, Hm2.
split.
- assert (Hlt : inject_Z (2 ^ (prec - 1)) < inject_Z (shr_m mrs + 1)).
{ rewrite pow2_Z by lia. rewrite inject_Z_plus. change (inject_Z 1) with 1. lra. }
apply Qlt_inject_Z in Hlt. lia.
- apply Qlt_inject_Z. rewrite pow2_Z by lia. lra.
Qed.

(** Rounding in the normal range: the result is a normal float within half
a unit in the last place, that is within the relative error
[2^-prec], of the located value [t * 2^E]. *)
Lemma binary_round_aux_normal (s : bool) (M E : Z) (l : location) (t : Q) :
(0 < M)%Z -> located (shr_record_of_loc M l) t ->
(prec <= Zdigits2 M)%Z -> (emin prec emax <= Zdigits2 M + E - prec)%Z ->
(Zdigits2 M + E < emax)%Z ->
exists (m : positive) (e : Z),
binary_round_aux prec emax s M E l = S754_finite s m e /\
Z.pos (digits2_pos m) = prec /\
(Zdigits2 M + E - prec <= e <= Zdigits2 M + E - prec + 1)%Z /\
rel_err (2 ^ (- prec)) (inject_Z (Z.pos m) * 2 ^ e) (t * 2 ^ E).
Proof.
intros HM Ht Hd He Ho.
destruct (shr_fexp_normal M E l t HM Ht Hd He) as (mrs & Hshr & Hl & Hm1 & Hlo1).
set (d := Zdigits2 M) in *. set (e1 := (d + E - prec)%Z) in *.
set (t1 := t * 2 ^ (prec - d)) in *.
pose proof (round_nearest_even_located mrs t1 Hl) as (Hm2 & Hr1 & Hr2).
set (m2 := round_nearest_even (shr_m mrs) (loc_of_shr_record mrs)) in *.
assert (Hx : t * 2 ^ E == t1 * 2 ^ e1).
{ unfold t1, e1. rewrite <- Qmult_assoc, <- pow2_add.
replace (prec - d + (d + E - prec))%Z with E by lia. reflexivity. }
assert (Hhalf : 2 ^ (- prec) * (2 ^ (prec - 1) * 2 ^ e1) == (1 # 2) * 2 ^ e1).
{ rewrite Qmult_assoc, <- pow2_add.
replace (- prec + (prec - 1))%Z with (-1)%Z by lia. reflexivity. }
pose proof (pow2_pos e1) as He1. pose proof (pow2_pos (- prec)) as Hu.
pose proof (pow2_pos (prec - 1)) as Hp1.
assert (Herr : rel_err (2 ^ (- prec)) (inject_Z m2 * 2 ^ e1) (t * 2 ^ E)).
{ unfold rel_err. rewrite Hx.
rewrite (Qabs_pos (t1 * 2 ^ e1)) by nra.
apply Qabs_Qle_condition.
assert (2 ^ (- prec) * (2 ^ (prec - 1) * 2 ^ e1) <= 2 ^ (- prec) * (t1 * 2 ^ e1)) by nra.
split; nra. }
unfold binary_round_aux. rewrite Hshr. fold m2.
assert (Hm2pos : (0 < m2)%Z) by (pose proof (Z.pow_pos_nonneg 2 (prec - 1)); lia).
destruct (Z.eq_dec m2 (2 ^ prec)%Z) as [Hcarry|Hnocarry].
- (* the rounded mantissa carries into the next binade *)
assert (Hdig : Zdigits2 m2 = (prec + 1)%Z).
{ apply Zdigits2_unique; [lia|]. rewrite Hcarry.
  replace (prec + 1 - 1)%Z with prec by lia.
  rewrite Z.pow_add_r by lia. pose proof (Z.pow_pos_nonneg 2 prec). lia. }
unfold shr_fexp, fexp. rewrite Hdig, Z.max_l by (unfold e1 in *; lia).
replace (prec + 1 + e1 - prec - e1)%Z with 1%Z by lia.
destruct (scaled_mantissa 1 (prec - 1)) as [p Hp]; [lia|].
assert (Hm2p : m2 = (Z.pos p * 2 ^ 1)%Z).
{ rewrite Hcarry, Hp. replace prec with (prec - 1 + 1)%Z at 1 by lia.
  rewrite Z.pow_add_r by lia. lia. }
destruct m2 as [|q|q]; try lia.
cbn [shr_record_of_loc]. rewrite (shr_exact p q e1 1) by (lia || exact Hm2p).
cbn [shr_m fst snd].
replace (e1 + 1 <=? emax - prec)%Z with true by (symmetry; apply Z.leb_le; unfold e1; lia).
exists p, (e1 + 1)%Z. split; [reflexivity|]. split.
+ rewrite digits2_pos_log2, Hp, Z.mul_1_l, Z.log2_pow2 by lia. lia.
+ split; [unfold e1; lia|].
  unfold rel_err in *. rewrite pow2_add. change (2 ^ 1) with 2.
  rewrite Hm2p in Herr. rewrite inject_Z_mult in Herr.
  change (inject_Z (2 ^ 1)) with 2 in Herr.
  assert (Heq : inject_Z (Z.pos p) * (2 ^ e1 * 2) == inject_Z (Z.pos p) * 2 * 2 ^ e1)
    by ring.
  now rewrite Heq.
- assert (Hdig : Zdigits2 m2 = prec) by (apply Zdigits2_unique; lia).
unfold shr_fexp, fexp. rewrite Hdig, Z.max_l by (unfold e1 in *; lia).
replace (prec + e1 - prec - e1)%Z with 0%Z by lia.
destruct m2 as [|q|q]; try lia.
cbn [shr_record_of_loc shr shr_m fst snd].
replace (e1 <=? emax - prec)%Z with true by (symmetry; apply Z.leb_le; unfold e1; lia).
exists q, e1. split; [reflexivity|]. split; [exact Hdig|].
split; [unfold e1; lia|exact Herr].
Qed.

(** A product of normal floats, in the normal range. *)
Lemma SFmul_normal (sa sb : bool) (ma mb : positive) (ea eb : Z) :
Z.pos (digits2_pos ma) = prec -> Z.pos (digits2_pos mb) = prec ->
(emin prec emax <= ea + eb + prec - 1)%Z -> (ea + eb + 2 * prec < emax)%Z ->
exists (m : positive) (e : Z),
SFmul prec emax (S754_finite sa ma ea) (S754_finite sb mb eb) =
  S754_finite (xorb sa sb) m e /\
Z.pos (digits2_pos m) = prec /\
(ea + eb + prec - 1 <= e <= ea + eb + prec + 1)%Z /\
rel_err (2 ^ (- prec)) (SF2Q (S754_finite (xorb sa sb) m e))
  (SF2Q (S754_finite sa ma ea) * SF2Q (S754_finite sb mb eb)).
Proof.
intros Hda Hdb Hlo Hhi.
pose proof (digits_bounds ma prec Hda) as [Hal Hau].
pose proof (digits_bounds mb prec Hdb) as [Hbl Hbu].
set (M := Z.pos (ma * mb)).
assert (HM : M = (Z.pos ma * Z.pos mb)%Z) by (unfold M; lia).
pose proof (Zdigits2_bounds M ltac:(lia)) as [HMl HMu].
pose proof (Zdigits2_pos M ltac:(lia)) as HMd.
pose proof (Z.pow_pos_nonneg 2 (prec - 1) ltac:(lia) ltac:(lia)) as Hp1.
assert (Hd : (2 * prec - 1 <= Zdigits2 M <= 2 * prec)%Z).
{ split.
- assert (Hlt : (2 ^ (2 * prec - 2) < 2 ^ Zdigits2 M)%Z).
  { apply Z.le_lt_trans with M; [|exact HMu].
    replace (2 * prec - 2)%Z with ((prec - 1) + (prec - 1))%Z by lia.
    rewrite Z.pow_add_r, HM by lia. nia. }
  apply pow2_lt_inv in Hlt; lia.
- assert (Hlt : (2 ^ (Zdigits2 M - 1) < 2 ^ (2 * prec))%Z).
  { apply Z.le_lt_trans with M; [exact HMl|].
    replace (2 * prec)%Z with (prec + prec)%Z by lia.
    rewrite Z.pow_add_r, HM by lia. nia. }
  apply pow2_lt_inv in Hlt; lia. }
destruct (binary_round_aux_normal (xorb sa sb) M (ea + eb) loc_Exact (inject_Z M))
as (m & e & Hr & Hdm & He & Herr); try lia.
{ unfold located. cbn. reflexivity. }
exists m, e. split; [exact Hr|]. split; [exact Hdm|]. split; [lia|].
eapply rel_err_ext; [| |apply (rel_err_sign _ _ _ (xorb sa sb) Herr)].
- now rewrite SF2Q_finite.
- rewrite !SF2Q_finite, sign_of_xorb, pow2_add, HM, inject_Z_mult. ring.
Qed.

(** A quotient of normal floats, in the normal range. *)
Lemma SFdiv_normal (sa sb : bool) (ma mb : positive) (ea eb : Z) :
Z.pos (digits2_pos ma) = prec -> Z.pos (digits2_pos mb) = prec ->
(emin prec emax <= ea - eb - prec)%Z -> (ea - eb + 1 < emax)%Z ->
exists (m : positive) (e : Z),
SFdiv prec emax (S754_finite sa ma ea) (S754_finite sb mb eb) =
  S754_finite (xorb sa sb) m e /\
Z.pos (digits2_pos m) = prec /\
(ea - eb - prec <= e <= ea - eb - prec + 2)%Z /\
rel_err (2 ^ (- prec)) (SF2Q (S754_finite (xorb sa sb) m e))
  (SF2Q (S754_finite sa ma ea) * / SF2Q (S754_finite sb mb eb)).
Proof.
intros Hda Hdb Hlo Hhi.
pose proof (digits_bounds ma prec Hda) as [Hal Hau].
pose proof (digits_bounds mb prec Hdb) as [Hbl Hbu].
pose proof (Z.pow_pos_nonneg 2 (prec - 1) ltac:(lia) ltac:(lia)) as Hp1.
assert (Hpp : (2 ^ prec = 2 * 2 ^ (prec - 1))%Z).
{ replace prec with (1 + (prec - 1))%Z at 1 by lia. now rewrite Z.pow_add_r by lia. }
cbn [SFdiv]. unfold SFdiv_core_binary. cbn [Zdigits2].
rewrite Hda, Hdb. unfold fexp.
replace (prec + ea - (prec + eb))%Z with (ea - eb)%Z by lia.
rewrite Z.max_l by lia. rewrite Z.min_l by lia.
replace (ea - eb - (ea - eb - prec))%Z with prec by lia.
rewrite shiftl_dividend by lia.
set (m' := (Z.pos ma * 2 ^ prec)%Z).
pose proof (Z_div_mod m' (Z.pos mb) ltac:(lia)) as Hdiv.
destruct (Z.div_eucl m' (Z.pos mb)) as [q r]. destruct Hdiv as [Hqr Hr].
assert (Hq : (2 ^ (prec - 1) <= q < 2 ^ (prec + 1))%Z).
{ replace (prec + 1)%Z with (1 + prec)%Z by lia. rewrite Z.pow_add_r by lia.
change (2 ^ 1)%Z with 2%Z. unfold m' in Hqr. split; nia. }
assert (Hdq : (prec <= Zdigits2 q <= prec + 1)%Z).
{ pose proof (Zdigits2_bounds q ltac:(lia)) as [Hql Hqu].
pose proof (Zdigits2_pos q ltac:(lia)) as Hqd. split.
- assert (Hlt : (2 ^ (prec - 1) < 2 ^ Zdigits2 q)%Z) by lia.
  apply pow2_lt_inv in Hlt; lia.
- assert (Hlt : (2 ^ (Zdigits2 q - 1) < 2 ^ (prec + 1))%Z) by lia.
  apply pow2_lt_inv in Hlt; lia. }
assert (Hbpos : 0 < inject_Z (Z.pos mb)) by (change 0 with (inject_Z 0); now rewrite <- Zlt_Qlt).
set (t := inject_Z m' * / inject_Z (Z.pos mb)).
assert (Ht : t * inject_Z (Z.pos mb) == inject_Z q * inject_Z (Z.pos mb) + inject_Z r).
{ unfold t. rewrite Hqr, inject_Z_plus, inject_Z_mult. field. lra. }
destruct (binary_round_aux_normal (xorb sa sb) q (ea - eb - prec)
          (new_location (Z.pos mb) r) t)
as (m & e & Hres & Hdm & He & Herr); try lia.
{ apply new_location_located; [lia|lia|exact Ht]. }
exists m, e. split; [exact Hres|]. split; [exact Hdm|]. split; [lia|].
eapply rel_err_ext; [| |apply (rel_err_sign _ _ _ (xorb sa sb) Herr)].
- now rewrite SF2Q_finite.
- rewrite !SF2Q_finite, sign_of_xorb. unfold t, m'.
rewrite inject_Z_mult, pow2_Z by lia.
replace (ea - eb - prec)%Z with (ea + (- eb + - prec))%Z by lia.
rewrite !pow2_add.
pose proof (pow2_pos eb). pose proof (pow2_pos prec).
pose proof (pow2_inv eb) as Hie. pose proof (pow2_inv prec) as Hip.
assert (Hsb : sign_of sb * sign_of sb == 1) by (destruct sb; reflexivity).
assert (Hsn : ~ sign_of sb == 0) by (destruct sb; unfold sign_of; lra).
assert (Heb : 2 ^ (- eb) == / 2 ^ eb) by (apply Qpower_opp).
assert (Hpr : 2 ^ (- prec) == / 2 ^ prec) by (apply Qpower_opp).
assert (Hsi : / sign_of sb == sign_of sb) by (destruct sb; reflexivity).
rewrite Heb, Hpr. field_simplify_eq; [|repeat split; lra].
destruct sb; unfold sign_of; ring.
Qed.

(** Conversion of a float with at least [prec] digits, in the normal
range. *)
Lemma binary_round_normal (s : bool) (m : positive) (e : Z) :
(prec <= Z.pos (digits2_pos m))%Z ->
(emin prec emax <= Z.pos (digits2_pos m) + e - prec)%Z ->
(Z.pos (digits2_pos m) + e < emax)%Z ->
exists (m' : positive) (e' : Z),
binary_round prec emax s m e = S754_finite s m' e' /\
Z.pos (digits2_pos m') = prec /\
(Z.pos (digits2_pos m) + e - prec <= e' <= Z.pos (digits2_pos m) + e - prec + 1)%Z /\
rel_err (2 ^ (- prec)) (SF2Q (S754_finite s m' e')) (SF2Q (S754_finite s m e)).
Proof.
intros Hd Hlo Hhi. unfold binary_round, shl_align, fexp.
rewrite Z.max_l by lia.
destruct (Z.pos (digits2_pos m) + e - prec - e)%Z as [|p|p] eqn:Hs; try lia;
(destruct (binary_round_aux_normal s (Z.pos m) e loc_Exact (inject_Z (Z.pos m)))
   as (m' & e' & Hr & Hdm & He & Herr);
 [lia|unfold located; cbn; reflexivity|exact Hd|exact Hlo|exact Hhi|];
 exists m', e'; split; [exact Hr|]; split; [exact Hdm|]; split; [exact He|];
 eapply rel_err_ext; [| |apply (rel_err_sign _ _ _ s Herr)];
 now rewrite SF2Q_finite).
Qed.

(** Rounding below the normal range: the result is zero or has the
  smallest exponent, within half a unit of that exponent of the located
  value. *)
Lemma binary_round_aux_subnormal (s : bool) (M E : Z) (l : location) (t : Q) :
(0 < M)%Z -> located (shr_record_of_loc M l) t ->
(Zdigits2 M + E - prec < emin prec emax)%Z -> (E <= emin prec emax)%Z ->
(emin prec emax <= emax - prec)%Z ->
exists m2 : Z,
  (0 <= m2 <= 2 ^ (prec - 1))%Z /\
  binary_round_aux prec emax s M E l =
    match m2 with
    | Z.pos m => S754_finite s m (emin prec emax)
    | _ => S754_zero s
    end /\
  Qabs (inject_Z m2 * 2 ^ emin prec emax - t * 2 ^ E) <= (1 # 2) * 2 ^ emin prec emax.
Proof.
intros HM Ht Hsub HE Hfmt.
set (d := Zdigits2 M) in *. set (n := (emin prec emax - E)%Z).
assert (Hn : (0 <= n)%Z) by (unfold n; lia).
pose proof (Zdigits2_pos M HM) as Hdpos. fold d in Hdpos.
unfold binary_round_aux, shr_fexp at 1. unfold fexp at 1. fold d.
rewrite Z.max_r by lia. fold n.
rewrite shr_nat by exact Hn.
replace (E + n)%Z with (emin prec emax) by (unfold n; lia).
destruct (shr_iter_located (Z.to_nat n) (shr_record_of_loc M l) t) as [Hl Hp];
  [rewrite located_of_loc; lia|exact Ht|].
rewrite Z2Nat.id in Hl by exact Hn.
set (mrs := Nat.iter (Z.to_nat n) shr_1 (shr_record_of_loc M l)) in *.
set (t1 := t * 2 ^ (- n)) in *.
pose proof (located_bounds _ _ Ht) as [HtM HtM1]. rewrite located_of_loc in HtM, HtM1.
pose proof (Zdigits2_bounds M HM) as [HlM HuM]. fold d in HlM, HuM.
assert (Hhi : t < 2 ^ d).
{ rewrite <- pow2_Z by lia. apply Qlt_le_trans with (inject_Z M + 1); [exact HtM1|].
  change 1 with (inject_Z 1). rewrite <- inject_Z_plus, <- Zle_Qle. lia. }
assert (Hhi1 : t1 < 2 ^ (prec - 1)).
{ unfold t1. apply Qlt_le_trans with (2 ^ d * 2 ^ (- n)).
  - pose proof (pow2_pos (- n)). nra.
  - rewrite <- pow2_add. apply Qpower_le_compat_l; [unfold n; lia|lra]. }
pose proof (located_bounds _ _ Hl) as [Hm1 Hm2]. fold t1 in Hm1, Hm2.
assert (Hm1hi : (shr_m mrs < 2 ^ (prec - 1))%Z).
{ apply Qlt_inject_Z. rewrite pow2_Z by lia. lra. }
pose proof (round_nearest_even_located mrs t1 Hl) as (Hm2' & Hr1 & Hr2).
set (m2 := round_nearest_even (shr_m mrs) (loc_of_shr_record mrs)) in *.
exists m2. split; [lia|].
assert (Hx : t * 2 ^ E == t1 * 2 ^ emin prec emax).
{ unfold t1. rewrite <- Qmult_assoc, <- pow2_add.
  replace (- n + emin prec emax)%Z with E by (unfold n; lia). reflexivity. }
pose proof (pow2_pos (emin prec emax)) as Hpe.
split.
- destruct m2 as [|q|q] eqn:Hq; try lia.
  + unfold shr_fexp, fexp. cbn [Zdigits2 shr_record_of_loc].
    rewrite Z.max_r by lia. rewrite Z.sub_diag. reflexivity.
  + assert (Hdq : (Zdigits2 (Z.pos q) <= prec)%Z).
    { pose proof (Zdigits2_bounds (Z.pos q) ltac:(lia)) as [Hql _].
      pose proof (Zdigits2_pos (Z.pos q) ltac:(lia)).
      assert (Hlt : (2 ^ (Zdigits2 (Z.pos q) - 1) < 2 ^ prec)%Z).
      { assert (2 ^ (prec - 1) < 2 ^ prec)%Z by (apply Z.pow_lt_mono_r; lia). lia. }
      apply pow2_lt_inv in Hlt; lia. }
    unfold shr_fexp, fexp. rewrite Z.max_r by lia. rewrite Z.sub_diag.
    cbn [shr_record_of_loc shr shr_m fst snd].
    replace (emin prec emax <=? emax - prec)%Z with true
      by (symmetry; now apply Z.leb_le).
    reflexivity.
- rewrite Hx. apply Qabs_Qle_condition. split; nra.
Qed.
End Rounding.

(** ** Relative errors *)

Lemma rel_err_scale (eps x y c : Q) :
  rel_err eps x y -> rel_err eps (x * c) (y * c).
Proof.
  unfold rel_err. intros H.
  assert (He : x * c - y * c == (x - y) * c) by ring.
  rewrite He, !Qabs_Qmult. pose proof (Qabs_nonneg c). nra.
Qed.

Lemma rel_err_trans (a b x y z : Q) :
  0 <= a -> rel_err a x y -> rel_err b y z -> rel_err (a + b + a * b) x z.
Proof.
  unfold rel_err. intros Ha Hxy Hyz.
  assert (He : x - z == (x - y) + (y - z)) by ring.
  pose proof (Qabs_triangle (x - y) (y - z)) as Htri. rewrite <- He in Htri.
  assert (Hy : Qabs y <= Qabs z + Qabs (y - z)).
  { assert (Hy' : y == z + (y - z)) by ring. rewrite Hy' at 1. apply Qabs_triangle. }
  pose proof (Qabs_nonneg z). pose proof (Qabs_nonneg (y - z)).
  pose proof (Qabs_nonneg (x - y)). nra.
Qed.

Lemma rel_err_weaken (eps eps' x y : Q) :
  eps <= eps' -> rel_err eps x y -> rel_err eps' x y.
Proof. unfold rel_err. intros He H. pose proof (Qabs_nonneg y). nra. Qed.

(** ** Single-precision products and quotients *)

Lemma mul32_normal (sa sb : bool) (ma mb : positive) (ea eb : Z) :
  Z.pos (digits2_pos ma) = 24%Z -> Z.pos (digits2_pos mb) = 24%Z ->
  (-172 <= ea + eb <= 79)%Z ->
  exists (m : positive) (e : Z),
    Binary32.mul (S754_finite sa ma ea) (S754_finite sb mb eb) =
      S754_finite (xorb sa sb) m e /\
    Z.pos (digits2_pos m) = 24%Z /\ (ea + eb + 23 <= e <= ea + eb + 25)%Z /\
    rel_err roundoff32 (SF2Q (S754_finite (xorb sa sb) m e))
      (SF2Q (S754_finite sa ma ea) * SF2Q (S754_finite sb mb eb)).
Proof.
  intros Ha Hb He.
  destruct (SFmul_normal Binary32.prec Binary32.emax ltac:(reflexivity) sa sb ma mb ea eb)
    as (m & e & Hr & Hd & Hre & Herr);
    try assumption; unfold emin, Binary32.prec, Binary32.emax in *; try lia.
  exists m, e. repeat split; try assumption; lia.
Qed.

Lemma div32_normal (sa sb : bool) (ma mb : positive) (ea eb : Z) :
  Z.pos (digits2_pos ma) = 24%Z -> Z.pos (digits2_pos mb) = 24%Z ->
  (-125 <= ea - eb <= 126)%Z ->
  exists (m : positive) (e : Z),
    Binary32.div (S754_finite sa ma ea) (S754_finite sb mb eb) =
      S754_finite (xorb sa sb) m e /\
    Z.pos (digits2_pos m) = 24%Z /\ (ea - eb - 24 <= e <= ea - eb - 22)%Z /\
    rel_err roundoff32 (SF2Q (S754_finite (xorb sa sb) m e))
      (SF2Q (S754_finite sa ma ea) * / SF2Q (S754_finite sb mb eb)).
Proof.
  intros Ha Hb He.
  destruct (SFdiv_normal Binary32.prec Binary32.emax ltac:(reflexivity) sa sb ma mb ea eb)
    as (m & e & Hr & Hd & Hre & Herr);
    try assumption; unfold emin, Binary32.prec, Binary32.emax in *; try lia.
  exists m, e. repeat split; try assumption; lia.
Qed.

(** ** Angles *)

Lemma of_int_180 : Binary32.of_int 180 = S754_finite false 11796480 (-16).
Proof. reflexivity. Qed.

Lemma SF2Q_180 : SF2Q (S754_finite false 11796480 (-16)) == 180.
Proof. reflexivity. Qed.

Lemma in_binade_of_pi_inv (f : float32) :
  in_binade_of_pi f = true ->
  exists m : positive, f = S754_finite false m (-22) /\ Z.pos (digits2_pos m) = 24%Z.
Proof.
  destruct f as [s|s| |[|] m e]; try discriminate. cbn [in_binade_of_pi].
  intros H. apply andb_true_iff in H as [Hd He].
  apply Z.eqb_eq in Hd, He. subst e. now exists m.
Qed.

Lemma SF2Q_pos (m : positive) (e : Z) : 0 < SF2Q (S754_finite false m e).
Proof.
  unfold SF2Q, sign_of. pose proof (pow2_pos e).
  assert (0 < inject_Z (Z.pos m)) by (change 0 with (inject_Z 0); now rewrite <- Zlt_Qlt).
  nra.
Qed.

Lemma SF2Q_opp (f : spec_float) : SF2Q (SFopp f) == - SF2Q f.
Proof.
  destruct f as [s|s| |s m e]; cbn [SFopp SF2Q]; try reflexivity.
  destruct s; unfold sign_of; cbn [negb]; ring.
Qed.

(** [toDegrees] of a normal single: the result is normal, of opposite sign,
    and within two roundings of [- A * 180 / pi]. *)
Lemma toDegrees_normal (b2_pi : float32) (s : bool) (m : positive) (e : Z) :
  in_binade_of_pi b2_pi = true ->
  Z.pos (digits2_pos m) = 24%Z -> (-149 <= e <= 95)%Z ->
  exists (m' : positive) (e' : Z),
    toDegrees b2_pi (S754_finite s m e) = S754_finite (negb s) m' e' /\
    Z.pos (digits2_pos m') = 24%Z /\ (e + 5 <= e' <= e + 9)%Z /\
    rel_err two_roundings (SF2Q (S754_finite (negb s) m' e'))
      (- SF2Q (S754_finite s m e) * 180 * / SF2Q b2_pi).
Proof.
  intros Hpi Hd He.
  destruct (in_binade_of_pi_inv b2_pi Hpi) as (mp & -> & Hdp).
  unfold toDegrees. rewrite of_int_180. cbn [SFopp].
  destruct (mul32_normal (negb s) false m 11796480 e (-16) Hd eq_refl ltac:(lia))
    as (m1 & e1 & -> & Hd1 & He1 & Herr1).
  destruct (div32_normal (xorb (negb s) false) false m1 mp e1 (-22) Hd1 Hdp ltac:(lia))
    as (m2 & e2 & -> & Hd2 & He2 & Herr2).
  rewrite !xorb_false_r in *.
  exists m2, e2. split; [reflexivity|]. split; [exact Hd2|]. split; [lia|].
  apply (rel_err_scale _ _ _ (/ SF2Q (S754_finite false mp (-22)))) in Herr1.
  pose proof (rel_err_trans roundoff32 roundoff32 _ _ _
                ltac:(unfold roundoff32; lra) Herr2 Herr1) as Herr.
  eapply rel_err_ext; [reflexivity| |exact Herr].
  rewrite SF2Q_180. change (S754_finite (negb s) m e) with (SFopp (S754_finite s m e)).
  rewrite SF2Q_opp. reflexivity.
Qed.

(** [toRadians] of a normal single. *)
Lemma toRadians_normal (b2_pi : float32) (s : bool) (m : positive) (e : Z) :
  in_binade_of_pi b2_pi = true ->
  Z.pos (digits2_pos m) = 24%Z -> (-142 <= e <= 101)%Z ->
  exists (m' : positive) (e' : Z),
    toRadians b2_pi (S754_finite s m e) = S754_finite (negb s) m' e' /\
    Z.pos (digits2_pos m') = 24%Z /\ (e - 7 <= e' <= e - 3)%Z /\
    rel_err two_roundings (SF2Q (S754_finite (negb s) m' e'))
      (- SF2Q (S754_finite s m e) * SF2Q b2_pi * / 180).
Proof.
  intros Hpi Hd He.
  destruct (in_binade_of_pi_inv b2_pi Hpi) as (mp & -> & Hdp).
  unfold toRadians. rewrite of_int_180. cbn [SFopp].
  destruct (mul32_normal (negb s) false m mp e (-22) Hd Hdp ltac:(lia))
    as (m1 & e1 & -> & Hd1 & He1 & Herr1).
  destruct (div32_normal (xorb (negb s) false) false m1 11796480 e1 (-16) Hd1 eq_refl
              ltac:(lia))
    as (m2 & e2 & -> & Hd2 & He2 & Herr2).
  rewrite !xorb_false_r in *.
  exists m2, e2. split; [reflexivity|]. split; [exact Hd2|]. split; [lia|].
  apply (rel_err_scale _ _ _ (/ SF2Q (S754_finite false 11796480 (-16)))) in Herr1.
  pose proof (rel_err_trans roundoff32 roundoff32 _ _ _
                ltac:(unfold roundoff32; lra) Herr2 Herr1) as Herr.
  eapply rel_err_ext; [reflexivity| |exact Herr].
  rewrite SF2Q_180. change (S754_finite (negb s) m e) with (SFopp (S754_finite s m e)).
  rewrite SF2Q_opp. reflexivity.
Qed.

Lemma four_roundings_bound : four_roundings <= angle_tolerance.
Proof. apply Qle_bool_imp_le. reflexivity. Qed.

(** Degrees and back, on a normal single. *)
Lemma toRadians_toDegrees_normal (b2_pi : float32) (s : bool) (m : positive) (e : Z) :
  in_binade_of_pi b2_pi = true ->
  Z.pos (digits2_pos m) = 24%Z -> (-147 <= e <= 92)%Z ->
  exists (m' : positive) (e' : Z),
    toRadians b2_pi (toDegrees b2_pi (S754_finite s m e)) = S754_finite s m' e' /\
    rel_err four_roundings (SF2Q (S754_finite s m' e')) (SF2Q (S754_finite s m e)).
Proof.
  intros Hpi Hd He.
  destruct (toDegrees_normal b2_pi s m e Hpi Hd ltac:(lia))
    as (m1 & e1 & -> & Hd1 & He1 & Herr1).
  destruct (toRadians_normal b2_pi (negb s) m1 e1 Hpi Hd1 ltac:(lia))
    as (m2 & e2 & -> & Hd2 & He2 & Herr2).
  rewrite negb_involutive in *.
  exists m2, e2. split; [reflexivity|].
  destruct (in_binade_of_pi_inv b2_pi Hpi) as (mp & -> & Hdp).
  pose proof (SF2Q_pos mp (-22)) as Hpos.
  apply (rel_err_scale _ _ _ (- SF2Q (S754_finite false mp (-22)) * / 180)) in Herr1.
  assert (Hmid : rel_err two_roundings
                   (- SF2Q (S754_finite (negb s) m1 e1) * SF2Q (S754_finite false mp (-22)) * / 180)
                   (SF2Q (S754_finite s m e))).
  { eapply rel_err_ext; [| |exact Herr1]; [ring|field; lra]. }
  exact (rel_err_trans two_roundings two_roundings _ _ _
           ltac:(unfold two_roundings, roundoff32; lra) Herr2 Hmid).
Qed.

(** Radians and back, on a normal single. *)
Lemma toDegrees_toRadians_normal (b2_pi : float32) (s : bool) (m : positive) (e : Z) :
  in_binade_of_pi b2_pi = true ->
  Z.pos (digits2_pos m) = 24%Z -> (-142 <= e <= 98)%Z ->
  exists (m' : positive) (e' : Z),
    toDegrees b2_pi (toRadians b2_pi (S754_finite s m e)) = S754_finite s m' e' /\
    rel_err four_roundings (SF2Q (S754_finite s m' e')) (SF2Q (S754_finite s m e)).
Proof.
  intros Hpi Hd He.
  destruct (toRadians_normal b2_pi s m e Hpi Hd ltac:(lia))
    as (m1 & e1 & -> & Hd1 & He1 & Herr1).
  destruct (toDegrees_normal b2_pi (negb s) m1 e1 Hpi Hd1 ltac:(lia))
    as (m2 & e2 & -> & Hd2 & He2 & Herr2).
  rewrite negb_involutive in *.
  exists m2, e2. split; [reflexivity|].
  destruct (in_binade_of_pi_inv b2_pi Hpi) as (mp & -> & Hdp).
  pose proof (SF2Q_pos mp (-22)) as Hpos.
  apply (rel_err_scale _ _ _ (- (180) * / SF2Q (S754_finite false mp (-22)))) in Herr1.
  assert (Hmid : rel_err two_roundings
                   (- SF2Q (S754_finite (negb s) m1 e1) * 180 * / SF2Q (S754_finite false mp (-22)))
                   (SF2Q (S754_finite s m e))).
  { eapply rel_err_ext; [| |exact Herr1]; [ring|field; lra]. }
  exact (rel_err_trans two_roundings two_roundings _ _ _
           ltac:(unfold two_roundings, roundoff32; lra) Herr2 Hmid).
Qed.

Lemma normal_of_exponent (s : bool) (m : positive) (e lo hi : Z) :
  Binary32.valid (S754_finite s m e) = true ->
  exponent_in lo hi (S754_finite s m e) = true -> (-149 < lo)%Z ->
  Z.pos (digits2_pos m) = 24%Z /\ (lo <= e <= hi)%Z.
Proof.
  intros Hv Hr Hlo. cbn [exponent_in] in Hr.
  apply andb_true_iff in Hr as [H1 H2]. apply Z.leb_le in H1, H2.
  pose proof (valid32_inv s m e Hv) as (_ & _ & Hn). lia.
Qed.

(** Angle round trips on every single of magnitude from [2^-119] up to
    [2^116], and on the zeros, the infinities and NaN. *)
Lemma angle_round_trips (b2_pi A : float32) :
  in_binade_of_pi b2_pi = true ->
  Binary32.valid A = true -> exponent_in (-142) 92 A = true ->
  recovers angle_tolerance (toRadians b2_pi (toDegrees b2_pi A)) A /\
  recovers angle_tolerance (toDegrees b2_pi (toRadians b2_pi A)) A.
Proof.
  intros Hpi Hv Hr.
  destruct A as [s|s| |s m e].
  - destruct (in_binade_of_pi_inv b2_pi Hpi) as (mp & -> & _).
    split; left; destruct s; reflexivity.
  - destruct (in_binade_of_pi_inv b2_pi Hpi) as (mp & -> & _).
    split; left; destruct s; reflexivity.
  - split; left; reflexivity.
  - destruct (normal_of_exponent s m e _ _ Hv Hr ltac:(lia)) as [Hd He].
    split; right.
    + destruct (toRadians_toDegrees_normal b2_pi s m e Hpi Hd ltac:(lia))
        as (m' & e' & -> & Herr).
      repeat split. eapply rel_err_weaken; [apply four_roundings_bound|exact Herr].
    + destruct (toDegrees_toRadians_normal b2_pi s m e Hpi Hd ltac:(lia))
        as (m' & e' & -> & Herr).
      repeat split. eapply rel_err_weaken; [apply four_roundings_bound|exact Herr].
Qed.

(** ** Positions *)

Lemma toPixels_normal (s : bool) (m : positive) (e : Z) :
  Z.pos (digits2_pos m) = 24%Z -> (-149 <= e <= 99)%Z ->
  toPixels (S754_finite s m e) = S754_finite s m (e + 5).
Proof.
  intros Hd He. unfold toPixels, Binary32.mul. rewrite pixelsPerMeter_eq.
  rewrite (SFmul_exact Binary32.prec Binary32.emax s false m 8388608 m e (-18) (e + 5) 23);
    [now rewrite xorb_false_r|apply bounded32_intro; lia|lia|reflexivity|lia].
Qed.

Lemma valid64_inv (s : bool) (m : positive) (e : Z) :
  Binary64.valid (S754_finite s m e) = true ->
  (1 <= Z.pos (digits2_pos m) <= 53 /\ -1074 <= e <= 971 /\
   (Z.pos (digits2_pos m) = 53 \/ e = -1074))%Z.
Proof.
  unfold Binary64.valid, valid_binary, bounded, canonical_mantissa, fexp, emin,
    Binary64.prec, Binary64.emax.
  intros H. apply andb_true_iff in H as [Hc He].
  apply Z.eqb_eq in Hc. apply Z.leb_le in He. lia.
Qed.

(** Widening keeps the value. *)
Lemma widen_value (f : float32) :
  Binary32.valid f = true ->
  SF2Q (Binary64.of_float f) == SF2Q f /\
  is_finite (Binary64.of_float f) = is_finite f.
Proof.
  intros Hv. destruct f as [s|s| |s m e]; try (split; reflexivity).
  destruct (widen_finite s m e Hv) as (m64 & j & Hj & Hm & _ & ->).
  split; [|reflexivity].
  rewrite !SF2Q_finite, Hm, inject_Z_mult, pow2_Z by exact Hj.
  replace e with ((e - j) + j)%Z at 2 by lia. rewrite pow2_add. ring.
Qed.

(** One coordinate of [toPixels (toMeters p)], without the sign inversion:
    it is the coordinate rounded to single precision. *)
Lemma coordinate_recovered (p : qreal) :
  Binary64.valid p = true -> exponent_in (-173) 74 p = true ->
  recovers roundoff32
    (Binary64.of_float (toPixels (Binary32.of_float
       (Binary64.mul p (Binary64.of_float metersPerPixel))))) p.
Proof.
  intros Hv Hr. destruct p as [s|s| |s m e].
  - left. destruct s; vm_compute; reflexivity.
  - left. destruct s; vm_compute; reflexivity.
  - left. reflexivity.
  - right. cbn [exponent_in] in Hr.
    apply andb_true_iff in Hr as [H1 H2]. apply Z.leb_le in H1, H2.
    pose proof (valid64_inv s m e Hv) as (Hd & He & Hn).
    assert (Hd53 : Z.pos (digits2_pos m) = 53%Z) by lia.
    rewrite mul64_metersPerPixel by lia.
    unfold Binary32.of_float.
    destruct (binary_round_normal Binary32.prec Binary32.emax ltac:(reflexivity) s m (e - 5))
      as (m' & e' & -> & Hd' & He' & Herr);
      try (unfold emin, Binary32.prec, Binary32.emax; lia).
    unfold Binary32.prec in *.
    rewrite toPixels_normal by lia.
    assert (Hv' : Binary32.valid (S754_finite s m' (e' + 5)) = true)
      by (apply bounded32_intro; lia).
    destruct (widen_value _ Hv') as [Hval Hfin].
    split; [now rewrite Hfin|]. split; [reflexivity|].
    apply (rel_err_scale _ _ _ 32) in Herr.
    eapply rel_err_ext; [| |exact Herr].
    + rewrite Hval, !SF2Q_finite, pow2_add. change (2 ^ 5) with 32. ring.
    + rewrite !SF2Q_finite. replace e with ((e - 5) + 5)%Z at 2 by lia.
      rewrite pow2_add. change (2 ^ 5) with 32. ring.
Qed.

Lemma toPixels_opp (a : float32) : toPixels (SFopp a) = SFopp (toPixels a).
Proof. apply SFmul_opp_l. Qed.

Lemma toPixels_toMeters_coordinates (p : QPointF.t) :
  toPixels_b2Vec2 (toMeters_QPointF p) =
  QPointF.mk
    (Binary64.of_float (toPixels (Binary32.of_float
       (Binary64.mul (QPointF.x p) (Binary64.of_float metersPerPixel)))))
    (Binary64.of_float (toPixels (Binary32.of_float
       (Binary64.mul (QPointF.y p) (Binary64.of_float metersPerPixel))))).
Proof.
  unfold toPixels_b2Vec2, toMeters_QPointF. cbn [b2Vec2.x b2Vec2.y].
  rewrite mul_metersPerPixelY, of_float32_opp, mul_pixelsPerMeterY.
  now rewrite toPixels_opp, SFopp_involutive.
Qed.

Lemma mul64_opp_l (a b : qreal) : Binary64.mul (SFopp a) b = SFopp (Binary64.mul a b).
Proof. apply SFmul_opp_l. Qed.

Lemma toMeters_toPixels_vector (v : b2Vec2.t) :
  b2Vec2.valid v = true ->
  exponent_in (-149) 99 (b2Vec2.x v) = true ->
  exponent_in (-149) 99 (b2Vec2.y v) = true ->
  toMeters_QPointF (toPixels_b2Vec2 v) = v.
Proof.
  destruct v as [a b]. unfold b2Vec2.valid. cbn [b2Vec2.x b2Vec2.y].
  intros Hv Ha Hb. apply andb_true_iff in Hv as [Hva Hvb].
  unfold toMeters_QPointF, toPixels_b2Vec2. cbn [QPointF.x QPointF.y b2Vec2.x b2Vec2.y].
  change (Binary32.mul a pixelsPerMeter) with (toPixels a).
  rewrite coordinate_pixels_meters by assumption.
  rewrite mul_pixelsPerMeterY, of_float64_opp, mul_metersPerPixelY, mul64_opp_l.
  now rewrite SFopp_involutive, coordinate_pixels_meters.
Qed.

(** C4, as the code has it.  With [b2_pi] a single from 2 up to 4: an angle
    of magnitude from [2^-119] up to [2^116] (or zero, infinite, NaN) comes
    back from degrees, and from radians, within the relative error
    [5 * 2^-24]; a [b2Vec2] with coordinates of magnitude below [2^123]
    comes back from pixels exactly; a [QPointF] with coordinates of
    magnitude from [2^-121] up to [2^127] comes back from meters with each
    coordinate within the relative error [2^-24]. *)
Theorem angle_and_position_round_trips (b2_pi A : float32) (P : b2Vec2.t) (p : QPointF.t) :
  in_binade_of_pi b2_pi = true ->
  Binary32.valid A = true -> exponent_in (-142) 92 A = true ->
  b2Vec2.valid P = true ->
  exponent_in (-149) 99 (b2Vec2.x P) = true ->
  exponent_in (-149) 99 (b2Vec2.y P) = true ->
  QPointF.valid p = true ->
  exponent_in (-173) 74 (QPointF.x p) = true ->
  exponent_in (-173) 74 (QPointF.y p) = true ->
  recovers angle_tolerance (toRadians b2_pi (toDegrees b2_pi A)) A /\
  recovers angle_tolerance (toDegrees b2_pi (toRadians b2_pi A)) A /\
  toMeters_QPointF (toPixels_b2Vec2 P) = P /\
  recovers roundoff32 (QPointF.x (toPixels_b2Vec2 (toMeters_QPointF p))) (QPointF.x p) /\
  recovers roundoff32 (QPointF.y (toPixels_b2Vec2 (toMeters_QPointF p))) (QPointF.y p).
Proof.
  intros Hpi HvA HrA HvP HPx HPy Hvp Hpx Hpy.
  destruct (angle_round_trips b2_pi A Hpi HvA HrA) as [Hrd Hdr].
  split; [exact Hrd|]. split; [exact Hdr|].
  split; [now apply toMeters_toPixels_vector|].
  unfold QPointF.valid in Hvp. apply andb_true_iff in Hvp as [Hvx Hvy].
  rewrite toPixels_toMeters_coordinates. cbn [QPointF.x QPointF.y].
  split; now apply coordinate_recovered.
Qed.

(** The angle 1 radian, the vector (3, 5) and the point (0.1, 0.1) in
    double precision, with Box2D's [b2_pi]. *)
Lemma angle_and_position_round_trips_witness :
  recovers angle_tolerance
    (toRadians b2_pi_literal (toDegrees b2_pi_literal (Binary32.of_int 1)))
    (Binary32.of_int 1) /\
  recovers roundoff32
    (QPointF.x (toPixels_b2Vec2 (toMeters_QPointF
       (QPointF.mk (S754_finite false 7205759403792794 (-56))
                   (S754_finite false 7205759403792794 (-56))))))
    (S754_finite false 7205759403792794 (-56)).
Proof.
  destruct (angle_and_position_round_trips b2_pi_literal (Binary32.of_int 1)
              (b2Vec2.mk (Binary32.of_int 3) (Binary32.of_int 5))
              (QPointF.mk (S754_finite false 7205759403792794 (-56))
                          (S754_finite false 7205759403792794 (-56)))
              eq_refl eq_refl eq_refl eq_refl eq_refl eq_refl eq_refl eq_refl eq_refl)
    as (Ha & _ & _ & Hx & _).
  split; [exact Ha|exact Hx].
Defined.

(** The angle [2^125] and the vector ([2^125], 1) overflow on the way to
    degrees and to pixels: what comes back is infinite. *)
Lemma round_trips_overflow :
  Binary32.valid (S754_finite false 8388608 102) = true /\
  toRadians b2_pi_literal (toDegrees b2_pi_literal (S754_finite false 8388608 102)) =
    S754_infinity false /\
  b2Vec2.x (toMeters_QPointF (toPixels_b2Vec2
    (b2Vec2.mk (S754_finite false 8388608 102) (Binary32.of_int 1)))) =
    S754_infinity false /\
  (forall eps : Q,
     ~ recovers eps
         (toRadians b2_pi_literal (toDegrees b2_pi_literal (S754_finite false 8388608 102)))
         (S754_finite false 8388608 102)) /\
  (forall eps : Q,
     ~ recovers eps
         (b2Vec2.x (toMeters_QPointF (toPixels_b2Vec2
            (b2Vec2.mk (S754_finite false 8388608 102) (Binary32.of_int 1)))))
         (S754_finite false 8388608 102)).
Proof.
  assert (Ha : toRadians b2_pi_literal
                 (toDegrees b2_pi_literal (S754_finite false 8388608 102)) =
               S754_infinity false) by (vm_compute; reflexivity).
  assert (Hp : b2Vec2.x (toMeters_QPointF (toPixels_b2Vec2
                 (b2Vec2.mk (S754_finite false 8388608 102) (Binary32.of_int 1)))) =
               S754_infinity false) by (vm_compute; reflexivity).
  split; [reflexivity|]. split; [exact Ha|]. split; [exact Hp|].
  rewrite Ha, Hp. split; intros eps [Heq|[Hfin _]]; discriminate.
Qed.

Local Close Scope Q_scope.

(** ** Lengths below the normal range of [toMeters] *)

Local Open Scope Q_scope.

(** [toPixels] multiplies the value by 32 on the singles of the smallest
    exponent and on zero. *)
Lemma toPixels_small_value (s : bool) (m2 : Z) :
  (0 <= m2 <= 2 ^ 23)%Z ->
  is_finite (toPixels match m2 with
                      | Z.pos m => S754_finite s m (-149)
                      | _ => S754_zero s
                      end) = true /\
  SF2Q (toPixels match m2 with
                 | Z.pos m => S754_finite s m (-149)
                 | _ => S754_zero s
                 end) == sign_of s * (inject_Z m2 * 2 ^ (-149)) * 32.
Proof.
  intros Hm. destruct m2 as [|q|q]; try lia.
  - split; [now destruct s|]. destruct s; reflexivity.
  - assert (Hdq : (Z.pos (digits2_pos q) <= 24)%Z).
    { pose proof (Zdigits2_bounds (Z.pos q) ltac:(lia)) as [Hql _].
      pose proof (Zdigits2_pos (Z.pos q) ltac:(lia)) as Hqd. cbn [Zdigits2] in *.
      assert (Hlt : (2 ^ (Z.pos (digits2_pos q) - 1) < 2 ^ 24)%Z) by lia.
      apply pow2_lt_inv in Hlt; lia. }
    assert (Hv : Binary32.valid (S754_finite s q (-149)) = true)
      by (apply bounded32_intro; lia).
    destruct (toPixels_finite s q (-149) Hv ltac:(lia)) as (m' & k & Hk & Hm' & _ & ->).
    split; [reflexivity|].
    rewrite SF2Q_finite, Hm', inject_Z_mult, pow2_Z by lia.
    assert (Hp : 2 ^ k * 2 ^ (-149 + 5 - k) == 2 ^ (-149) * 32).
    { rewrite <- pow2_add. replace (k + (-149 + 5 - k))%Z with (-149 + 5)%Z by lia.
      reflexivity. }
    assert (Hassoc : forall a b c d : Q, a * (b * c * d) == a * b * (c * d))
      by (intros; ring).
    rewrite Hassoc, Hp. ring.
Qed.

(** Below [2^-121] the way to meters and back loses at most [2^-145]. *)
Lemma toPixels_toMeters_small (s : bool) (m : positive) (e : Z) :
  Binary32.valid (S754_finite s m e) = true -> (e < -144)%Z ->
  is_finite (toPixels (toMeters (S754_finite s m e))) = true /\
  Qabs (SF2Q (toPixels (toMeters (S754_finite s m e))) - SF2Q (S754_finite s m e))
    <= 2 ^ (-145).
Proof.
  intros Hv He. pose proof (valid32_inv s m e Hv) as (Hd & Her & Hn).
  unfold toMeters, Binary32.mul. rewrite metersPerPixel_eq. cbn [SFmul].
  rewrite xorb_false_r.
  set (M := Z.pos (m * 8388608)).
  assert (HM : M = (Z.pos m * 2 ^ 23)%Z) by (unfold M; lia).
  assert (HdM : Zdigits2 M = (Z.pos (digits2_pos m) + 23)%Z).
  { unfold M. cbn [Zdigits2]. apply digits2_pos_shift; lia. }
  destruct (binary_round_aux_subnormal Binary32.prec Binary32.emax ltac:(reflexivity)
              s M (e + -28) loc_Exact (inject_Z M))
    as (m2 & Hm2 & -> & Herr);
    try (unfold emin, Binary32.prec, Binary32.emax; lia).
  { unfold located. cbn. reflexivity. }
  change (emin Binary32.prec Binary32.emax) with (-149)%Z in *.
  change (2 ^ (Binary32.prec - 1))%Z with (2 ^ 23)%Z in Hm2.
  destruct (toPixels_small_value s m2 Hm2) as [Hfin Hval].
  split; [exact Hfin|].
  rewrite Hval, SF2Q_finite.
  assert (HL : inject_Z (Z.pos m) * 2 ^ e == inject_Z M * 2 ^ (e + -28) * 32).
  { assert (Hp : 2 ^ (e + -28) * 2 ^ 28 == 2 ^ e).
    { rewrite <- pow2_add. replace (e + -28 + 28)%Z with e by lia. reflexivity. }
    rewrite <- Hp, HM, inject_Z_mult.
    change (inject_Z (2 ^ 23)) with 8388608. change (2 ^ 28) with 268435456. ring. }
  rewrite HL.
  assert (Hs : sign_of s * (inject_Z m2 * 2 ^ (-149)) * 32 -
               sign_of s * (inject_Z M * 2 ^ (e + -28) * 32) ==
               sign_of s * ((inject_Z m2 * 2 ^ (-149) - inject_Z M * 2 ^ (e + -28)) * 32))
    by ring.
  rewrite Hs, Qabs_Qmult.
  assert (Hsa : Qabs (sign_of s) == 1) by (destruct s; reflexivity).
  rewrite Hsa, Qmult_1_l, Qabs_Qmult. change (Qabs 32) with 32.
  assert (H145 : 2 ^ (-145) == (1 # 2) * 2 ^ (-149) * 32) by reflexivity.
  rewrite H145.
  pose proof (Qabs_nonneg (inject_Z m2 * 2 ^ (-149) - inject_Z M * 2 ^ (e + -28))).
  nra.
Qed.

Local Close Scope Q_scope.

(** ** Lengths *)

(** C2, as the code has it.  Converting a single-precision length to pixels
    and back gives the length itself, exactly, unless it is a finite value
    of magnitude [2^123] or more.  Converting to meters and back gives the
    length itself, exactly, unless it is a nonzero value of magnitude below
    [2^-121]; whatever the finite length, the result is finite and at most
    [2^-145] away from it. *)
Theorem length_round_trips (L : float32) :
  Binary32.valid L = true ->
  (exponent_in (-149) 99 L = true -> toMeters (toPixels L) = L) /\
  (exponent_in (-144) 104 L = true -> toPixels (toMeters L) = L) /\
  (is_finite L = true ->
   is_finite (toPixels (toMeters L)) = true /\
   (Qabs (SF2Q (toPixels (toMeters L)) - SF2Q L) <= 2 ^ (-145))%Q).
Proof.
  intros Hv. split; [now apply toMeters_toPixels_exact|].
  split; [now apply toPixels_toMeters_exact|].
  intros Hfin. destruct L as [s|s| |s m e]; try discriminate.
  - rewrite toPixels_toMeters_exact by (exact Hv || reflexivity).
    split; [reflexivity|]. now apply Qle_bool_imp_le.
  - destruct (Z_lt_le_dec e (-144)) as [Hlt|Hge].
    + now apply toPixels_toMeters_small.
    + pose proof (valid32_inv s m e Hv) as (_ & He & _).
      rewrite toPixels_toMeters_exact;
        [|exact Hv|cbn [exponent_in]; apply andb_true_iff; split; apply Z.leb_le; lia].
      split; [reflexivity|].
      assert (H0 : (SF2Q (S754_finite s m e) - SF2Q (S754_finite s m e) == 0)%Q) by ring.
      rewrite H0. now apply Qle_bool_imp_le.
Qed.

(** The length 0.1f, [13421773 * 2^-27]. *)
Lemma length_round_trips_witness :
  toMeters (toPixels (S754_finite false 13421773 (-27))) = S754_finite false 13421773 (-27) /\
  toPixels (toMeters (S754_finite false 13421773 (-27))) = S754_finite false 13421773 (-27).
Proof.
  destruct (length_round_trips (S754_finite false 13421773 (-27)) eq_refl) as (Hp & Hm & _).
  split; [apply Hp|apply Hm]; reflexivity.
Defined.

(** The largest finite length overflows on the way to pixels: what comes
    back is infinite, within no tolerance of it. *)
Lemma length_round_trip_overflows :
  Binary32.valid max_float32 = true /\
  toMeters (toPixels max_float32) = S754_infinity false /\
  forall eps : Q, ~ recovers eps (toMeters (toPixels max_float32)) max_float32.
Proof.
  split; [reflexivity|]. split; [reflexivity|].
  intros eps [Heq|[Hfin _]]; discriminate.
Qed.

(** ** Scale and inversions *)

(** C3.  Lengths are scaled by the one constant [pixelsPerMeter], which is
    32; the y coordinate of a converted position is the product with
    [-pixelsPerMeter], the negated scaled coordinate; converted angles are
    the negated quotients. *)
Theorem conversion_scale_and_inversions (b2_pi : float32) (L : float32)
    (v : b2Vec2.t) (r d : float32) :
  toPixels L = Binary32.mul L pixelsPerMeter /\
  pixelsPerMeter = S754_finite false 8388608 (-18) /\
  (SF2Q pixelsPerMeter == 32)%Q /\
  QPointF.x (toPixels_b2Vec2 v) = Binary64.of_float (toPixels (b2Vec2.x v)) /\
  QPointF.y (toPixels_b2Vec2 v) =
    Binary64.of_float (Binary32.mul (SFopp pixelsPerMeter) (b2Vec2.y v)) /\
  QPointF.y (toPixels_b2Vec2 v) = SFopp (Binary64.of_float (toPixels (b2Vec2.y v))) /\
  toDegrees b2_pi r =
    SFopp (Binary32.div (Binary32.mul r (Binary32.of_int 180)) b2_pi) /\
  toRadians b2_pi d =
    SFopp (Binary32.div (Binary32.mul d b2_pi) (Binary32.of_int 180)).
Proof.
  split; [reflexivity|]. split; [reflexivity|]. split; [reflexivity|].
  split; [reflexivity|]. split.
  { cbn [toPixels_b2Vec2 QPointF.y]. f_equal. apply SFmul_comm. }
  split.
  { cbn [toPixels_b2Vec2 QPointF.y]. now rewrite mul_pixelsPerMeterY, of_float64_opp. }
  split.
  - unfold toDegrees, Binary32.div, Binary32.mul. now rewrite SFmul_opp_l, SFdiv_opp_l.
  - unfold toRadians, Binary32.div, Binary32.mul. now rewrite SFmul_opp_l, SFdiv_opp_l.
Qed.

(** ** The y inversion *)

Lemma invertY_QPointF_b2Vec2 (v : b2Vec2.t) :
  b2Vec2.valid v = true -> invertY_QPointF (invertY_b2Vec2 v) = v.
Proof.
  destruct v as [a b]. unfold b2Vec2.valid. cbn.
  intros Hv. apply andb_true_iff in Hv as [Ha Hb].
  unfold invertY_QPointF, invertY_b2Vec2. cbn.
  rewrite of_float64_opp, SFopp_involutive, !narrow_widen by assumption.
  reflexivity.
Qed.

Lemma invertY_b2Vec2_QPointF (p : QPointF.t) :
  invertY_b2Vec2 (invertY_QPointF p) =
  QPointF.mk (Binary64.of_float (Binary32.of_float (QPointF.x p)))
             (Binary64.of_float (Binary32.of_float (QPointF.y p))).
Proof.
  unfold invertY_QPointF, invertY_b2Vec2. cbn.
  now rewrite of_float32_opp, SFopp_involutive.
Qed.

(** C9, as the code has it.  [invertY] applied twice to a [b2Vec2] gives it
    back exactly.  Applied twice to a [QPointF] it gives the point with both
    coordinates rounded to single precision: the point itself when its
    coordinates are single-precision values.  Each [invertY] converts x to
    the precision of its result and does the same to y, negated; from
    [b2Vec2] to [QPointF] the value of x is kept and the value of y is
    negated, exactly. *)
Theorem invertY_twice (v : b2Vec2.t) (p : QPointF.t) :
  b2Vec2.valid v = true ->
  invertY_QPointF (invertY_b2Vec2 v) = v /\
  invertY_b2Vec2 (invertY_QPointF p) =
    QPointF.mk (Binary64.of_float (Binary32.of_float (QPointF.x p)))
               (Binary64.of_float (Binary32.of_float (QPointF.y p))) /\
  invertY_b2Vec2 (invertY_QPointF (invertY_b2Vec2 v)) = invertY_b2Vec2 v /\
  invertY_b2Vec2 v =
    QPointF.mk (Binary64.of_float (b2Vec2.x v)) (SFopp (Binary64.of_float (b2Vec2.y v))) /\
  invertY_QPointF p =
    b2Vec2.mk (Binary32.of_float (QPointF.x p)) (SFopp (Binary32.of_float (QPointF.y p))) /\
  (SF2Q (QPointF.x (invertY_b2Vec2 v)) == SF2Q (b2Vec2.x v))%Q /\
  (SF2Q (QPointF.y (invertY_b2Vec2 v)) == - SF2Q (b2Vec2.y v))%Q.
Proof.
  intros Hv. split; [now apply invertY_QPointF_b2Vec2|].
  split; [apply invertY_b2Vec2_QPointF|].
  split; [now rewrite invertY_QPointF_b2Vec2|].
  split; [unfold invertY_b2Vec2; now rewrite of_float64_opp|].
  split; [unfold invertY_QPointF; now rewrite of_float32_opp|].
  unfold b2Vec2.valid in Hv. apply andb_true_iff in Hv as [Hx Hy].
  unfold invertY_b2Vec2. cbn [QPointF.x QPointF.y].
  split; [now apply widen_value|].
  rewrite of_float64_opp, SF2Q_opp. now rewrite (proj1 (widen_value _ Hy)).
Qed.

(** The vector (3, 5). *)
Lemma invertY_twice_witness :
  invertY_QPointF (invertY_b2Vec2 (b2Vec2.mk (Binary32.of_int 3) (Binary32.of_int 5))) =
  b2Vec2.mk (Binary32.of_int 3) (Binary32.of_int 5).
Proof.
  exact (proj1 (invertY_twice (b2Vec2.mk (Binary32.of_int 3) (Binary32.of_int 5))
                  (QPointF.mk (Binary64.of_int 3) (Binary64.of_int 5)) eq_refl)).
Defined.

(** The point (0.1, 0.1), with 0.1 the double [7205759403792794 * 2^-56]:
    each coordinate comes back as the single nearest to 0.1. *)
Lemma invertY_QPointF_loses_precision :
  QPointF.valid (QPointF.mk (S754_finite false 7205759403792794 (-56))
                            (S754_finite false 7205759403792794 (-56))) = true /\
  invertY_b2Vec2 (invertY_QPointF
    (QPointF.mk (S754_finite false 7205759403792794 (-56))
                (S754_finite false 7205759403792794 (-56)))) <>
  QPointF.mk (S754_finite false 7205759403792794 (-56))
             (S754_finite false 7205759403792794 (-56)).
Proof.
  split; [reflexivity|]. vm_compute. discriminate.
Qed.

(** ** Defaults and constants *)

(** C10, as the code has it.  A new world has a time step of 1/60, 8
    velocity iterations and 3 position iterations; [pixelsPerMeter] is 32
    and [metersPerPixel] is 1/32, both exactly.  [toMeters] undoes
    [toPixels] exactly on every single that is not a finite value of
    magnitude [2^123] or more, and [toPixels] undoes [toMeters] exactly on
    every single that is not a nonzero value of magnitude below [2^-121]. *)
Theorem defaults_and_constants {W : Type} `{b2WorldOps W} (b2 : W) (running : bool)
    (L : float32) :
  Binary32.valid L = true ->
  (result (timeStep (Box2DWorld_new b2 running)) =
     Done (Binary32.div (Binary32.of_int 1) (Binary32.of_int 60), Box2DWorld_new b2 running) /\
   result (velocityIterations (Box2DWorld_new b2 running)) =
     Done (8, Box2DWorld_new b2 running) /\
   result (positionIterations (Box2DWorld_new b2 running)) =
     Done (3, Box2DWorld_new b2 running)) /\
  (metersPerPixel = Binary32.div (Binary32.of_int 1) pixelsPerMeter /\
   (SF2Q pixelsPerMeter == 32)%Q /\ (SF2Q metersPerPixel == 1 # 32)%Q) /\
  (exponent_in (-149) 99 L = true -> toMeters (toPixels L) = L) /\
  (exponent_in (-144) 104 L = true -> toPixels (toMeters L) = L).
Proof.
  intros Hv. split; [now repeat split|]. split; [now repeat split|].
  split; intros Hr.
  - now apply toMeters_toPixels_exact.
  - now apply toPixels_toMeters_exact.
Qed.

(** The length 1.5f in a world on the counting engine. *)
Lemma defaults_and_constants_witness :
  toMeters (toPixels (S754_finite false 12582912 (-23))) = S754_finite false 12582912 (-23).
Proof.
  destruct (defaults_and_constants 0%nat true (S754_finite false 12582912 (-23)) eq_refl)
    as (_ & _ & Hp & _).
  apply Hp. reflexivity.
Defined.

(** The smallest positive single underflows to zero on the way to meters. *)
Lemma toPixels_toMeters_underflows :
  Binary32.valid min_float32 = true /\
  toPixels (toMeters min_float32) = S754_zero false /\
  toPixels (toMeters min_float32) <> min_float32.
Proof.
  split; [reflexivity|]. split; [reflexivity|]. discriminate.
Qed.

(** ** The world's methods *)

Section MethodFacts.
Context {W : Type} `{b2WorldOps W}.

Lemma solverPasses_run (cs : list contact) (w : Box2DWorld.t W) :
  solverPasses cs w = (flat_map pass_events cs, Done (tt, w)).
Proof.
  induction cs as [|c cs IH]; [reflexivity|].
  cbn [solverPasses]. unfold bind, emit, log at 1 2 3. rewrite IH. reflexivity.
Qed.

(** One step: the engine call, then the passes it solved, then [stepped];
    or the engine call alone when it faults. *)
Lemma step_run (w : Box2DWorld.t W) :
  step w =
  let dt := Box2DWorld.mTimeStep w in
  let vi := Box2DWorld.mVelocityIterations w in
  let pi := Box2DWorld.mPositionIterations w in
  match b2_Step dt vi pi (Box2DWorld.mWorld w) with
  | Done (cs, b2) =>
      (EngineStep dt vi pi :: flat_map pass_events cs ++ [Emit stepped],
       Done (tt, Box2DWorld.mk b2 dt vi pi (Box2DWorld.mIsRunning w)
                   (Box2DWorld.mStepDriver w)))
  | Fault o => ([EngineStep dt vi pi], Fault o)
  end.
Proof.
  unfold step, bind, timeStep, velocityIterations, positionIterations, gets, engine.
  cbn. destruct (b2_Step _ _ _ _) as [[cs b2]|o]; [|reflexivity].
  rewrite solverPasses_run. reflexivity.
Qed.

Lemma count_app (p : event -> bool) (tr tr' : list event) :
  count p (tr ++ tr') = (count p tr + count p tr')%nat.
Proof. unfold count. now rewrite List.filter_app, length_app. Qed.

Lemma count_passes (p : event -> bool) (cs : list contact) :
  (forall c, count p (pass_events c) = 0%nat) ->
  count p (flat_map pass_events cs) = 0%nat.
Proof.
  intros Hp. induction cs as [|c cs IH]; [reflexivity|].
  cbn [flat_map]. now rewrite count_app, Hp, IH.
Qed.

Lemma handle_keeps_driver (i : input) (w w' : Box2DWorld.t W) (tr : list event) :
  driver_follows_running w -> handle i w = (tr, Done (tt, w')) ->
  driver_follows_running w'.
Proof.
  unfold driver_follows_running. intros Hw Hi. destruct i as [t|b|dt|n|n|g|a|]; cbn in Hi.
  - unfold frame in Hi. destruct (Box2DWorld.mStepDriver w) eqn:Hd.
    + inversion Hi; subst. congruence.
    + unfold updateCurrentTime in Hi. rewrite step_run in Hi. cbv zeta in Hi.
      destruct (b2_Step _ _ _ _) as [[cs b2]|o]; [|discriminate].
      inversion Hi; subst. cbn. congruence.
  - inversion Hi; subst. reflexivity.
  - inversion Hi; subst. exact Hw.
  - inversion Hi; subst. exact Hw.
  - inversion Hi; subst. exact Hw.
  - unfold setGravity, bind, engine_do, engine in Hi.
    destruct (b2_SetGravity _ _) as [b2|o]; [|discriminate].
    inversion Hi; subst. exact Hw.
  - unfold setAutoClearForces, bind, engine_do, engine in Hi.
    destruct (b2_SetAutoClearForces _ _) as [b2|o]; [|discriminate].
    inversion Hi; subst. exact Hw.
  - unfold clearForces, engine_do, engine in Hi.
    destruct (b2_ClearForces _) as [b2|o]; [|discriminate].
    inversion Hi; subst. exact Hw.
Qed.

Lemma run_keeps_driver (inputs : list input) (w w' : Box2DWorld.t W) (tr : list event) :
  driver_follows_running w -> run inputs w = (tr, Done (tt, w')) ->
  driver_follows_running w'.
Proof.
  revert w tr. induction inputs as [|i rest IH]; intros w tr Hw Hr.
  - now inversion Hr; subst.
  - cbn [run] in Hr. unfold bind in Hr.
    destruct (handle i w) as [tr1 [[[] w1]|o]] eqn:Hi; [|discriminate].
    destruct (run rest w1) as [tr2 r2] eqn:Hrest.
    inversion Hr; subst.
    eapply IH; [|exact Hrest]. eapply handle_keeps_driver; eauto.
Qed.

(** What one input adds to the trace of a run that completes. *)
Lemma handle_counts (i : input) (w w' : Box2DWorld.t W) (tr : list event) :
  driver_follows_running w -> handle i w = (tr, Done (tt, w')) ->
  count is_advance tr = frames_while_running (Box2DWorld.mIsRunning w) [i] /\
  count is_stepped tr = frames_while_running (Box2DWorld.mIsRunning w) [i] /\
  forall rest,
    frames_while_running (Box2DWorld.mIsRunning w) (i :: rest) =
    (frames_while_running (Box2DWorld.mIsRunning w) [i] +
     frames_while_running (Box2DWorld.mIsRunning w') rest)%nat.
Proof.
  unfold driver_follows_running. intros Hw Hi. destruct i as [t|b|dt|n|n|g|a|]; cbn in Hi.
  - unfold frame in Hi. destruct (Box2DWorld.mIsRunning w) eqn:Hr; rewrite Hw in Hi.
    + unfold updateCurrentTime in Hi. rewrite step_run in Hi. cbv zeta in Hi.
      destruct (b2_Step _ _ _ _) as [[cs b2]|o]; [|discriminate].
      inversion Hi; subst. cbn [Box2DWorld.mIsRunning frames_while_running].
      change (EngineStep (Box2DWorld.mTimeStep w) (Box2DWorld.mVelocityIterations w)
                (Box2DWorld.mPositionIterations w)
              :: flat_map pass_events cs ++ [Emit stepped])
        with ([EngineStep (Box2DWorld.mTimeStep w) (Box2DWorld.mVelocityIterations w)
                 (Box2DWorld.mPositionIterations w)]
              ++ flat_map pass_events cs ++ [Emit stepped]).
      rewrite !count_app, !count_passes by reflexivity. rewrite Hr. now repeat split.
    + inversion Hi; subst. cbn [frames_while_running]. rewrite Hr. now repeat split.
  - inversion Hi; subst. cbn [Box2DWorld.mIsRunning frames_while_running].
    split; [now destruct b|]. split; [now destruct b|]. reflexivity.
  - inversion Hi; subst. now repeat split.
  - inversion Hi; subst. now repeat split.
  - inversion Hi; subst. now repeat split.
  - unfold setGravity, bind, engine_do, engine in Hi.
    destruct (b2_SetGravity _ _) as [b2|o]; [|discriminate].
    inversion Hi; subst. now repeat split.
  - unfold setAutoClearForces, bind, engine_do, engine in Hi.
    destruct (b2_SetAutoClearForces _ _) as [b2|o]; [|discriminate].
    inversion Hi; subst. now repeat split.
  - unfold clearForces, engine_do, engine in Hi.
    destruct (b2_ClearForces _) as [b2|o]; [|discriminate].
    inversion Hi; subst. now repeat split.
Qed.

(** In a run that completes, the advances and the [stepped] notifications
    are as many as the frames that arrived while the world was running. *)
Lemma run_counts (inputs : list input) (w w' : Box2DWorld.t W) (tr : list event) :
  driver_follows_running w -> run inputs w = (tr, Done (tt, w')) ->
  count is_advance tr = frames_while_running (Box2DWorld.mIsRunning w) inputs /\
  count is_stepped tr = frames_while_running (Box2DWorld.mIsRunning w) inputs.
Proof.
  revert w tr. induction inputs as [|i rest IH]; intros w tr Hw Hr.
  - inversion Hr; subst. now split.
  - cbn [run] in Hr. unfold bind in Hr.
    destruct (handle i w) as [tr1 [[[] w1]|o]] eqn:Hi; [|discriminate].
    destruct (run rest w1) as [tr2 r2] eqn:Hrest.
    inversion Hr; subst.
    destruct (handle_counts i w w1 tr1 Hw Hi) as (Ha & Hs & Hsplit).
    destruct (IH w1 tr2 (handle_keeps_driver i w w1 tr1 Hw Hi) Hrest) as [Ha' Hs'].
    rewrite !count_app, Hsplit. lia.
Qed.

Lemma new_driver_follows_running (b2 : W) (running : bool) :
  driver_follows_running (Box2DWorld_new b2 running).
Proof. reflexivity. Qed.
End MethodFacts.

(** ** The step driver *)

Section StepDriver.
Context {W : Type} `{b2WorldOps W}.

Lemma count_step_trace (dt : float32) (vi pi : Z) (cs : list contact) :
  count is_advance (EngineStep dt vi pi :: flat_map pass_events cs ++ [Emit stepped]) = 1%nat /\
  count is_stepped (EngineStep dt vi pi :: flat_map pass_events cs ++ [Emit stepped]) = 1%nat /\
  count is_engine_call (EngineStep dt vi pi :: flat_map pass_events cs ++ [Emit stepped]) = 1%nat.
Proof.
  change (EngineStep dt vi pi :: flat_map pass_events cs ++ [Emit stepped])
    with ([EngineStep dt vi pi] ++ flat_map pass_events cs ++ [Emit stepped]).
  rewrite !count_app, !count_passes by reflexivity. now repeat split.
Qed.

Lemma frame_running (t : Z) (w : Box2DWorld.t W) :
  driver_follows_running w -> Box2DWorld.mIsRunning w = true ->
  frame t w = step w.
Proof.
  unfold driver_follows_running, frame. intros -> ->. reflexivity.
Qed.

Lemma frame_not_running (t : Z) (w : Box2DWorld.t W) :
  driver_follows_running w -> Box2DWorld.mIsRunning w = false ->
  frame t w = ([], Done (tt, w)).
Proof.
  unfold driver_follows_running, frame. intros -> ->. reflexivity.
Qed.
End StepDriver.

(** C1.  In a run of the world from its construction that completes, there
    are as many engine steps, and as many [stepped] emissions, as frames
    delivered while [running] was true.  In the world so reached, a frame
    delivered while [running] is true makes exactly one call of the
    engine's step, with the current [timeStep], [velocityIterations] and
    [positionIterations]; when the engine completes the advance, the frame's
    events end with the one [stepped] emission.  While [running] is false a
    frame does nothing. *)
Theorem frame_advances_once {W : Type} `{b2WorldOps W}
    (b2 : W) (running : bool) (inputs : list input) (tr : list event)
    (w : Box2DWorld.t W) (t : Z) :
  run inputs (Box2DWorld_new b2 running) = (tr, Done (tt, w)) ->
  (count is_advance tr = frames_while_running running inputs /\
   count is_stepped tr = frames_while_running running inputs) /\
  (Box2DWorld.mIsRunning w = true ->
     count is_advance (trace (frame t w)) = 1%nat /\
     head (trace (frame t w)) =
       Some (EngineStep (Box2DWorld.mTimeStep w) (Box2DWorld.mVelocityIterations w)
               (Box2DWorld.mPositionIterations w)) /\
     forall u, result (frame t w) = Done u ->
       count is_stepped (trace (frame t w)) = 1%nat /\
       last (trace (frame t w)) = Some (Emit stepped)) /\
  (Box2DWorld.mIsRunning w = false -> frame t w = ([], Done (tt, w))).
Proof.
  intros Hrun.
  assert (Hw : driver_follows_running w)
    by (eapply run_keeps_driver; [apply new_driver_follows_running|exact Hrun]).
  split; [exact (run_counts inputs _ w tr (new_driver_follows_running b2 running) Hrun)|].
  split; [|now apply frame_not_running].
  intros Hr. rewrite (frame_running t w Hw Hr), step_run. cbv zeta.
  destruct (b2_Step _ _ _ _) as [[cs b2']|o]; cbn [trace result fst snd].
  - destruct (count_step_trace (Box2DWorld.mTimeStep w)
                (Box2DWorld.mVelocityIterations w)
                (Box2DWorld.mPositionIterations w) cs) as (Ha & Hs & _).
    split; [exact Ha|]. split; [reflexivity|]. intros u _.
    split; [exact Hs|]. rewrite app_comm_cons. apply last_snoc.
  - split; [reflexivity|]. split; [reflexivity|]. intros u Hu. discriminate.
Qed.

(** Running the counting engine: start stopped, receive a frame, start,
    change the time step, receive another frame. *)
Lemma frame_advances_once_witness :
  count is_advance (trace (frame 32
    (Box2DWorld.mk 1%nat (Binary32.of_int 2) 8 3 true Running))) = 1%nat.
Proof.
  assert (Hrun : run [Frame 0; SetRunning true; SetTimeStep (Binary32.of_int 2); Frame 16]
                   (Box2DWorld_new 0%nat false) =
                 ([Emit runningChanged; DriverStart; Emit timeStepChanged;
                   EngineStep (Binary32.of_int 2) 8 3;
                   Emit (preSolve 1%positive); EngineSolve 1%positive;
                   Emit (postSolve 1%positive);
                   Emit (preSolve 2%positive); EngineSolve 2%positive;
                   Emit (postSolve 2%positive);
                   Emit stepped],
                  Done (tt, Box2DWorld.mk 1%nat (Binary32.of_int 2) 8 3 true Running)))
    by reflexivity.
  destruct (frame_advances_once _ _ _ _ _ 32 Hrun) as (_ & Hframe & _).
  exact (proj1 (Hframe eq_refl)).
Defined.

(** ** Notifications around the solver passes *)

(** The events of the pass over the [k]th contact. *)
Lemma passes_at (cs : list contact) (k : nat) (c : contact) :
  cs !! k = Some c ->
  flat_map pass_events cs !! (3 * k)%nat = Some (Emit (preSolve c)) /\
  flat_map pass_events cs !! (3 * k + 1)%nat = Some (EngineSolve c) /\
  flat_map pass_events cs !! (3 * k + 2)%nat = Some (Emit (postSolve c)).
Proof.
  revert k. induction cs as [|c0 cs IH]; intros k Hk; [discriminate|].
  destruct k as [|k].
  - cbn in Hk. inversion Hk; subst. now repeat split.
  - cbn in Hk. destruct (IH k Hk) as (Hpre & Hsolve & Hpost).
    replace (3 * S k)%nat with (S (S (S (3 * k)))) by lia.
    replace (S (S (S (3 * k))) + 1)%nat with (S (S (S (3 * k + 1)))) by lia.
    replace (S (S (S (3 * k))) + 2)%nat with (S (S (S (3 * k + 2)))) by lia.
    now repeat split.
Qed.

(** A pass among the events is the pass over one of the contacts. *)
Lemma passes_lookup (cs : list contact) (i : nat) (c : contact) :
  flat_map pass_events cs !! i = Some (EngineSolve c) ->
  exists k, i = (3 * k + 1)%nat /\ cs !! k = Some c.
Proof.
  revert i. induction cs as [|c0 cs IH]; intros i Hi; [discriminate|].
  cbn [flat_map pass_events app] in *.
  destruct i as [|[|[|i]]]; cbn in Hi; try discriminate.
  - inversion Hi; subst. exists 0%nat. now split.
  - destruct (IH i Hi) as (k & -> & Hk).
    exists (S k). split; [lia|exact Hk].
Qed.

Lemma lookup_after_head {A} (x y : A) (l l' : list A) (n : nat) :
  l !! n = Some y -> (x :: l ++ l') !! S n = Some y.
Proof.
  intros Hn. change ((l ++ l') !! n = Some y).
  rewrite lookup_app_l; [exact Hn|]. now apply lookup_lt_Some in Hn.
Qed.

Lemma count_is_pass (cs : list contact) :
  count is_pass (flat_map pass_events cs) = length cs.
Proof.
  induction cs as [|c cs IH]; [reflexivity|].
  cbn [flat_map]. rewrite count_app, IH. reflexivity.
Qed.

(** C6.  When the engine completes the advance of a step and reports the
    contacts [cs] it solved, in solving order, the events of the step hold
    one constraint-solving pass for each of them, in that order: the pass
    over the [k]th contact [c] is the event [3 k + 2], the event just
    before it is the [preSolve] notification for [c] and the event just
    after it is the [postSolve] notification for [c].  The events hold no
    other pass. *)
Theorem solve_between_notifications {W : Type} `{b2WorldOps W}
    (w : Box2DWorld.t W) (cs : list contact) (b2 : W) :
  b2_Step (Box2DWorld.mTimeStep w) (Box2DWorld.mVelocityIterations w)
    (Box2DWorld.mPositionIterations w) (Box2DWorld.mWorld w) = Done (cs, b2) ->
  (forall (k : nat) (c : contact),
     cs !! k = Some c ->
     trace (step w) !! (3 * k + 1)%nat = Some (Emit (preSolve c)) /\
     trace (step w) !! (3 * k + 2)%nat = Some (EngineSolve c) /\
     trace (step w) !! (3 * k + 3)%nat = Some (Emit (postSolve c))) /\
  (forall (i : nat) (c : contact),
     trace (step w) !! i = Some (EngineSolve c) ->
     exists k, i = (3 * k + 2)%nat /\ cs !! k = Some c) /\
  count is_pass (trace (step w)) = length cs.
Proof.
  intros Hstep. rewrite step_run. cbv zeta. rewrite Hstep. cbn [trace fst].
  split; [|split].
  - intros k c Hk. destruct (passes_at cs k c Hk) as (Hpre & Hsolve & Hpost).
    replace (3 * k + 1)%nat with (S (3 * k)) by lia.
    replace (3 * k + 2)%nat with (S (3 * k + 1)) by lia.
    replace (3 * k + 3)%nat with (S (3 * k + 2)) by lia.
    repeat split; now apply lookup_after_head.
  - intros i c Hi. destruct i as [|i]; [discriminate|].
    change ((flat_map pass_events cs ++ [Emit stepped]) !! i = Some (EngineSolve c)) in Hi.
    assert (Hin : flat_map pass_events cs !! i = Some (EngineSolve c)).
    { destruct (decide (i < length (flat_map pass_events cs))%nat) as [Hlt|Hge].
      - now rewrite lookup_app_l in Hi.
      - rewrite lookup_app_r in Hi by lia.
        destruct (i - length (flat_map pass_events cs))%nat as [|n]; cbn in Hi;
          [discriminate|]. now destruct n. }
    destruct (passes_lookup cs i c Hin) as (k & -> & Hk).
    exists k. split; [lia|exact Hk].
  - change (EngineStep (Box2DWorld.mTimeStep w) (Box2DWorld.mVelocityIterations w)
              (Box2DWorld.mPositionIterations w)
            :: flat_map pass_events cs ++ [Emit stepped])
      with ([EngineStep (Box2DWorld.mTimeStep w) (Box2DWorld.mVelocityIterations w)
               (Box2DWorld.mPositionIterations w)]
            ++ flat_map pass_events cs ++ [Emit stepped]).
    rewrite !count_app, count_is_pass. cbn. lia.
Qed.

(** The first step of a new world on the counting engine, whose advance
    solves the contacts 1 and 2: the second pass is over the contact 2. *)
Lemma solve_between_notifications_witness :
  trace (step (Box2DWorld_new 0%nat true)) !! 4%nat = Some (Emit (preSolve 2%positive)) /\
  trace (step (Box2DWorld_new 0%nat true)) !! 5%nat = Some (EngineSolve 2%positive) /\
  trace (step (Box2DWorld_new 0%nat true)) !! 6%nat = Some (Emit (postSolve 2%positive)).
Proof.
  exact (proj1 (solve_between_notifications (Box2DWorld_new 0%nat true)
                  [1%positive; 2%positive] 1%nat eq_refl) 1%nat 2%positive eq_refl).
Defined.

(** ** The destruction listener *)

Lemma clear_reference_Some (a b : positive) (r : option positive) :
  clear_reference a r = Some b -> r = Some b /\ b <> a.
Proof.
  unfold clear_reference. destruct (decide (r = Some a)) as [->|Hne]; [discriminate|].
  intros ->. split; [reflexivity|]. congruence.
Qed.

Lemma lookup_cleared (m : gmap positive (option positive)) (a b w : positive) :
  (clear_reference a <$> m) !! w = Some (Some b) ->
  m !! w = Some (Some b) /\ b <> a.
Proof.
  rewrite lookup_fmap. destruct (m !! w) as [r|]; [|discriminate].
  cbn. intros Hr. inversion Hr as [Hc].
  destruct (clear_reference_Some a b r Hc) as [-> Hne]. now split.
Qed.

(** After the callback the wrapper objects refer to what they referred to
    before, except to the object that is being destroyed. *)
Lemma SayGoodbye_refers (o o' : b2Object) (s : Scene.t) (w : positive) :
  refers_to (SayGoodbye o s) w o' -> refers_to s w o' /\ o' <> o.
Proof.
  destruct o as [a|a], o' as [b|b]; cbn; intros Hr.
  - destruct (lookup_cleared _ a b w Hr) as [Hm Hne]. split; [exact Hm|congruence].
  - split; [exact Hr|discriminate].
  - split; [exact Hr|discriminate].
  - destruct (lookup_cleared _ a b w Hr) as [Hm Hne]. split; [exact Hm|congruence].
Qed.

Lemma b2Free_refers (o o' : b2Object) (s : Scene.t) (w : positive) :
  refers_to (b2Free o s) w o' <-> refers_to s w o'.
Proof. now destruct o, o'. Qed.

Lemma SayGoodbye_allocated (o o' : b2Object) (s : Scene.t) :
  allocated (SayGoodbye o s) o' <-> allocated s o'.
Proof. now destruct o, o'. Qed.

Lemma b2Free_allocated (o o' : b2Object) (s : Scene.t) :
  allocated (b2Free o s) o' <-> allocated s o' /\ o' <> o.
Proof.
  destruct o as [a|a], o' as [b|b]; cbn;
    rewrite ?elem_of_difference, ?elem_of_singleton; split;
    try (intros [Hin Hne]; split; [exact Hin|congruence]);
    try (intros Hin; split; [exact Hin|discriminate]);
    try (intros [Hin _]; exact Hin).
Qed.

Lemma destroy_one_no_dangling (o : b2Object) (s : Scene.t) :
  no_dangling s -> no_dangling (b2Free o (SayGoodbye o s)).
Proof.
  intros Hs w o' Hr. apply b2Free_refers in Hr.
  apply SayGoodbye_refers in Hr as [Hr Hne].
  apply b2Free_allocated. split; [|exact Hne].
  apply SayGoodbye_allocated. exact (Hs w o' Hr).
Qed.

(** References only disappear during an implicit destruction. *)
Lemma destroyImplicitly_refers (objects : list b2Object) (s s' : Scene.t)
    (tr : list destruction_event) (w : positive) (o : b2Object) :
  destroyImplicitly objects s = (tr, s') -> refers_to s' w o -> refers_to s w o.
Proof.
  revert s tr. induction objects as [|o0 rest IH]; intros s tr Hd Hr.
  - now inversion Hd; subst.
  - cbn [destroyImplicitly] in Hd.
    destruct (destroyImplicitly rest (b2Free o0 (SayGoodbye o0 s))) as [tr1 s1] eqn:Hrest.
    inversion Hd; subst.
    pose proof (IH _ _ Hrest Hr) as Hr1. apply b2Free_refers in Hr1.
    now apply SayGoodbye_refers in Hr1.
Qed.

(** C5.  When the engine destroys joints and fixtures implicitly, each
    object's [SayGoodbye] callback comes right before the object is freed;
    afterwards no wrapper object refers to any destroyed object, and no
    wrapper object refers to freed memory. *)
Theorem destruction_leaves_no_dangling (objects : list b2Object) (s s' : Scene.t)
    (tr : list destruction_event) :
  no_dangling s -> destroyImplicitly objects s = (tr, s') ->
  tr = flat_map (fun o => [Goodbye o; Freed o]) objects /\
  (forall o w, In o objects -> ~ refers_to s' w o) /\
  no_dangling s'.
Proof.
  revert s tr. induction objects as [|o0 rest IH]; intros s tr Hs Hd.
  - inversion Hd; subst. split; [reflexivity|]. split; [|exact Hs].
    intros o w [].
  - cbn [destroyImplicitly] in Hd.
    destruct (destroyImplicitly rest (b2Free o0 (SayGoodbye o0 s))) as [tr1 s1] eqn:Hrest.
    inversion Hd; subst.
    destruct (IH _ _ (destroy_one_no_dangling o0 s Hs) Hrest) as (Htr & Hgone & Hnd).
    split; [cbn [flat_map app]; now rewrite Htr|].
    split; [|exact Hnd].
    intros o w [<-|Hin] Hr; [|exact (Hgone o w Hin Hr)].
    pose proof (destroyImplicitly_refers _ _ _ _ w o0 Hrest Hr) as Hr1.
    apply b2Free_refers in Hr1. apply SayGoodbye_refers in Hr1 as [_ Hne].
    now apply Hne.
Qed.

(** A body with the joint 7 and the fixture 9 is destroyed; the wrapper
    objects 1 and 2 referred to them, the wrapper object 3 to the fixture 4
    of another body. *)
Lemma destruction_leaves_no_dangling_witness :
  no_dangling
    (snd (destroyImplicitly [b2Joint 7%positive; b2Fixture 9%positive]
       (Scene.mk {[7%positive; 5%positive]} {[9%positive; 4%positive]}
          {[1%positive := Some 7%positive]}
          {[2%positive := Some 9%positive; 3%positive := Some 4%positive]}))).
Proof.
  eapply destruction_leaves_no_dangling; [|apply surjective_pairing].
  intros w [a|a]; cbn; intros Hr.
  - apply lookup_singleton_Some in Hr as [_ Ha]. inversion Ha. set_solver.
  - apply lookup_insert_Some in Hr as [[_ Ha]|[_ Hr]].
    + inversion Ha. set_solver.
    + apply lookup_singleton_Some in Hr as [_ Ha]. inversion Ha. set_solver.
Defined.
(** ** The inline functions, evaluated *)

Section Bodies.
Context {W : Type} {ops : b2WorldOps W}.
Variable b2_pi : float32.
Variable w : Box2DWorld.t W.

(** The conversion helpers evaluate to the functions of the same name. *)
Lemma run_invertY_b2Vec2 (vec : b2Vec2.t) :
  Cpp.run b2_pi Cpp.Body.invertY_b2Vec2 (Cpp.VVec2 vec) w =
  ([], inl (Cpp.VPointF (invertY_b2Vec2 vec), w)).
Proof. reflexivity. Qed.

Lemma run_invertY_QPointF (vec : QPointF.t) :
  Cpp.run b2_pi Cpp.Body.invertY_QPointF (Cpp.VPointF vec) w =
  ([], inl (Cpp.VVec2 (invertY_QPointF vec), w)).
Proof. reflexivity. Qed.

Lemma run_toPixels (length : float32) :
  Cpp.run b2_pi Cpp.Body.toPixels (Cpp.VFloat length) w =
  ([], inl (Cpp.VFloat (toPixels length), w)).
Proof. reflexivity. Qed.

Lemma run_toMeters (length : float32) :
  Cpp.run b2_pi Cpp.Body.toMeters (Cpp.VFloat length) w =
  ([], inl (Cpp.VFloat (toMeters length), w)).
Proof. reflexivity. Qed.

Lemma run_toPixels_b2Vec2 (vec : b2Vec2.t) :
  Cpp.run b2_pi Cpp.Body.toPixels_b2Vec2 (Cpp.VVec2 vec) w =
  ([], inl (Cpp.VPointF (toPixels_b2Vec2 vec), w)).
Proof. reflexivity. Qed.

Lemma run_toMeters_QPointF (point : QPointF.t) :
  Cpp.run b2_pi Cpp.Body.toMeters_QPointF (Cpp.VPointF point) w =
  ([], inl (Cpp.VVec2 (toMeters_QPointF point), w)).
Proof. reflexivity. Qed.

Lemma run_toDegrees (radians : float32) :
  Cpp.run b2_pi Cpp.Body.toDegrees (Cpp.VFloat radians) w =
  ([], inl (Cpp.VFloat (toDegrees b2_pi radians), w)).
Proof. reflexivity. Qed.

Lemma run_toRadians (degrees : float32) :
  Cpp.run b2_pi Cpp.Body.toRadians (Cpp.VFloat degrees) w =
  ([], inl (Cpp.VFloat (toRadians b2_pi degrees), w)).
Proof. reflexivity. Qed.

(** The inline members evaluate to the methods of the world. *)
Lemma run_timeStep :
  Cpp.run b2_pi Cpp.Body.timeStep Cpp.VVoid w =
  ([], inl (Cpp.VFloat (Box2DWorld.mTimeStep w), w)).
Proof. reflexivity. Qed.

Lemma run_isRunning :
  Cpp.run b2_pi Cpp.Body.isRunning Cpp.VVoid w =
  ([], inl (Cpp.VBool (Box2DWorld.mIsRunning w), w)).
Proof. reflexivity. Qed.

Lemma run_velocityIterations :
  Cpp.run b2_pi Cpp.Body.velocityIterations Cpp.VVoid w =
  ([], inl (Cpp.VInt (Box2DWorld.mVelocityIterations w), w)).
Proof. reflexivity. Qed.

Lemma run_positionIterations :
  Cpp.run b2_pi Cpp.Body.positionIterations Cpp.VVoid w =
  ([], inl (Cpp.VInt (Box2DWorld.mPositionIterations w), w)).
Proof. reflexivity. Qed.

Lemma run_autoClearForces :
  Cpp.run b2_pi Cpp.Body.autoClearForces Cpp.VVoid w =
  ([], inl (Cpp.VBool (b2_GetAutoClearForces (Box2DWorld.mWorld w)), w)).
Proof. reflexivity. Qed.

Lemma run_world :
  Cpp.run b2_pi Cpp.Body.world Cpp.VVoid w =
  ([], inl (Cpp.VWorld (Box2DWorld.mWorld w), w)).
Proof. reflexivity. Qed.

Lemma run_clearForces :
  Cpp.run b2_pi Cpp.Body.clearForces Cpp.VVoid w =
  match b2_ClearForces (Box2DWorld.mWorld w) with
  | Done b2 =>
      ([EngineClearForces],
       inl (Cpp.VVoid, Box2DWorld.mk b2 (Box2DWorld.mTimeStep w)
                         (Box2DWorld.mVelocityIterations w)
                         (Box2DWorld.mPositionIterations w)
                         (Box2DWorld.mIsRunning w) (Box2DWorld.mStepDriver w)))
  | Fault o => ([EngineClearForces], inr (Cpp.Propagated o))
  end.
Proof.
  cbn [Cpp.run Cpp.Body.clearForces Cpp.eval]. unfold Cpp.worldCall, Cpp.andThen.
  now destruct (b2_ClearForces _).
Qed.

Lemma clearForces_run :
  clearForces w =
  match b2_ClearForces (Box2DWorld.mWorld w) with
  | Done b2 =>
      ([EngineClearForces],
       Done (tt, Box2DWorld.mk b2 (Box2DWorld.mTimeStep w)
                   (Box2DWorld.mVelocityIterations w)
                   (Box2DWorld.mPositionIterations w)
                   (Box2DWorld.mIsRunning w) (Box2DWorld.mStepDriver w)))
  | Fault o => ([EngineClearForces], Fault o)
  end.
Proof. unfold clearForces, engine_do, engine. now destruct (b2_ClearForces _). Qed.
End Bodies.

(** ** Purity of the conversion helpers *)

Ltac run_helper ops :=
  first [ rewrite (run_invertY_b2Vec2 (ops := ops))
        | rewrite (run_invertY_QPointF (ops := ops))
        | rewrite (run_toPixels (ops := ops))
        | rewrite (run_toMeters (ops := ops))
        | rewrite (run_toPixels_b2Vec2 (ops := ops))
        | rewrite (run_toMeters_QPointF (ops := ops))
        | rewrite (run_toDegrees (ops := ops))
        | rewrite (run_toRadians (ops := ops)) ].

Ltac run_member ops :=
  first [ rewrite (run_timeStep (ops := ops))
        | rewrite (run_isRunning (ops := ops))
        | rewrite (run_velocityIterations (ops := ops))
        | rewrite (run_positionIterations (ops := ops))
        | rewrite (run_autoClearForces (ops := ops))
        | rewrite (run_world (ops := ops))
        | rewrite (run_clearForces (ops := ops)) ].

(** Purity is a property of a body, not of every body: an inline member of
    the world reads the world object it is called on, and [clearForces]
    calls the engine. *)
Lemma inline_members_not_pure (b2_pi : float32) :
  Forall (fun f => ~ pure_function b2_pi f) inline_members.
Proof.
  assert (Hw : forall (f : Cpp.body * Cpp.type) (W : Type) (ops : b2WorldOps W)
                 (w w' : Box2DWorld.t W),
             snd f = Cpp.TVoid ->
             (forall v v', Cpp.run b2_pi (fst f) Cpp.VVoid w = ([], inl (v, w)) ->
                           Cpp.run b2_pi (fst f) Cpp.VVoid w' = ([], inl (v', w')) ->
                           v <> v') ->
             ~ pure_function b2_pi f).
  { intros f W ops w w' Hf Hne Hp. destruct (Hp W ops Cpp.VVoid) as [v Hv].
    - now rewrite Hf.
    - exact (Hne v v (Hv w) (Hv w') eq_refl). }
  pose (w1 := Box2DWorld.mk 0%nat (Binary32.of_int 1) 8 3 true Running).
  pose (w2 := Box2DWorld.mk 1%nat (Binary32.of_int 2) 9 4 false Stopped).
  unfold inline_members. repeat apply List.Forall_cons; try apply List.Forall_nil.
  - apply (Hw _ nat counting_engine w1 w2); [reflexivity|]. cbn [fst].
    rewrite !run_timeStep. intros v v' E1 E2. inversion E1. inversion E2. subst.
    vm_compute. discriminate.
  - apply (Hw _ nat counting_engine w1 w2); [reflexivity|]. cbn [fst].
    rewrite !run_isRunning. intros v v' E1 E2. inversion E1. inversion E2. subst.
    discriminate.
  - apply (Hw _ nat counting_engine w1 w2); [reflexivity|]. cbn [fst].
    rewrite !run_velocityIterations. intros v v' E1 E2. inversion E1. inversion E2. subst.
    discriminate.
  - apply (Hw _ nat counting_engine w1 w2); [reflexivity|]. cbn [fst].
    rewrite !run_positionIterations. intros v v' E1 E2. inversion E1. inversion E2. subst.
    discriminate.
  - pose (flag_engine := {| b2_GetGravity := fun _ : bool => b2Vec2.mk (S754_zero false) (S754_zero false);
                           b2_SetGravity := fun _ b => Done b;
                           b2_GetAutoClearForces := fun b => b;
                           b2_SetAutoClearForces := fun b _ => Done b;
                           b2_ClearForces := fun b => Done b;
                           b2_Step := fun _ _ _ b => Done ([], b) |}).
    apply (Hw _ bool flag_engine
             (Box2DWorld.mk true (Binary32.of_int 1) 8 3 true Running)
             (Box2DWorld.mk false (Binary32.of_int 1) 8 3 true Running)); [reflexivity|].
    cbn [fst]. rewrite !run_autoClearForces. intros v v' E1 E2.
    inversion E1. inversion E2. subst. discriminate.
  - apply (Hw _ nat counting_engine w1 w2); [reflexivity|]. cbn [fst].
    rewrite !run_world. intros v v' E1 E2. inversion E1. inversion E2. subst.
    discriminate.
  - intros Hp. destruct (Hp nat counting_engine Cpp.VVoid eq_refl) as [v Hv].
    specialize (Hv w1). cbn [fst] in Hv. rewrite run_clearForces in Hv. discriminate.
Qed.

(** C7.  The conversion helpers are pure functions.  The body of each one,
    evaluated on an argument of its parameter type, gives the same value
    from whatever world object it is called on, logs no event and leaves
    the world object unchanged: it mentions its parameter and the constants
    only.  The value is the one of the function of the same name. *)
Theorem conversion_helpers_pure (b2_pi : float32) :
  Forall (pure_function b2_pi) conversion_helpers /\
  forall (W : Type) (ops : b2WorldOps W) (w : Box2DWorld.t W),
    (forall vec, Cpp.run b2_pi Cpp.Body.invertY_b2Vec2 (Cpp.VVec2 vec) w =
                 ([], inl (Cpp.VPointF (invertY_b2Vec2 vec), w))) /\
    (forall vec, Cpp.run b2_pi Cpp.Body.invertY_QPointF (Cpp.VPointF vec) w =
                 ([], inl (Cpp.VVec2 (invertY_QPointF vec), w))) /\
    (forall length, Cpp.run b2_pi Cpp.Body.toPixels (Cpp.VFloat length) w =
                    ([], inl (Cpp.VFloat (toPixels length), w))) /\
    (forall length, Cpp.run b2_pi Cpp.Body.toMeters (Cpp.VFloat length) w =
                    ([], inl (Cpp.VFloat (toMeters length), w))) /\
    (forall vec, Cpp.run b2_pi Cpp.Body.toPixels_b2Vec2 (Cpp.VVec2 vec) w =
                 ([], inl (Cpp.VPointF (toPixels_b2Vec2 vec), w))) /\
    (forall point, Cpp.run b2_pi Cpp.Body.toMeters_QPointF (Cpp.VPointF point) w =
                   ([], inl (Cpp.VVec2 (toMeters_QPointF point), w))) /\
    (forall radians, Cpp.run b2_pi Cpp.Body.toDegrees (Cpp.VFloat radians) w =
                     ([], inl (Cpp.VFloat (toDegrees b2_pi radians), w))) /\
    (forall degrees, Cpp.run b2_pi Cpp.Body.toRadians (Cpp.VFloat degrees) w =
                     ([], inl (Cpp.VFloat (toRadians b2_pi degrees), w))).
Proof.
  split.
  - unfold conversion_helpers.
    repeat apply List.Forall_cons; try apply List.Forall_nil;
      intros W ops a Ht; cbn [fst snd] in *;
      destruct a; try discriminate Ht; eexists; intros w; run_helper ops; reflexivity.
  - intros W ops w.
    split; [apply run_invertY_b2Vec2|]. split; [apply run_invertY_QPointF|].
    split; [apply run_toPixels|]. split; [apply run_toMeters|].
    split; [apply run_toPixels_b2Vec2|]. split; [apply run_toMeters_QPointF|].
    split; [apply run_toDegrees|apply run_toRadians].
Qed.

(** ** Failure modes *)

Section Failures.
Context {W : Type} {ops : b2WorldOps W}.

(** An operation of the world makes one engine call at most. *)
Lemma handle_engine_calls (i : input) (w : Box2DWorld.t W) :
  (count is_engine_call (trace (handle i w)) <= 1)%nat.
Proof.
  destruct i as [t|b|dt|n|n|g|a|]; cbn [handle].
  - unfold frame. destruct (Box2DWorld.mStepDriver w); [cbn; lia|].
    unfold updateCurrentTime. rewrite step_run. cbv zeta.
    destruct (b2_Step _ _ _ _) as [[cs b2]|o]; cbn [trace fst].
    + now rewrite (proj2 (proj2 (count_step_trace _ _ _ cs))).
    + cbn. lia.
  - destruct b; cbn; lia.
  - cbn. lia.
  - cbn. lia.
  - cbn. lia.
  - unfold setGravity, bind, engine_do, engine.
    destruct (b2_SetGravity _ _); cbn; lia.
  - unfold setAutoClearForces, bind, engine_do, engine.
    destruct (b2_SetAutoClearForces _ _); cbn; lia.
  - rewrite clearForces_run. destruct (b2_ClearForces _); cbn; lia.
Qed.

(** An operation that faults has made one engine call and nothing else. *)
Lemma handle_fault (i : input) (w : Box2DWorld.t W) (tr : list event) (o : origin) :
  handle i w = (tr, Fault o) -> exists e, tr = [e] /\ is_engine_call e = true.
Proof.
  destruct i as [t|b|dt|n|n|g|a|]; cbn [handle].
  - unfold frame. destruct (Box2DWorld.mStepDriver w); [discriminate|].
    unfold updateCurrentTime. rewrite step_run. cbv zeta.
    destruct (b2_Step _ _ _ _) as [[cs b2]|o']; [discriminate|].
    intros E. inversion E; subst. eexists. split; reflexivity.
  - destruct b; discriminate.
  - discriminate.
  - discriminate.
  - discriminate.
  - unfold setGravity, bind, engine_do, engine.
    destruct (b2_SetGravity _ _); [discriminate|].
    intros E. inversion E; subst. eexists. split; reflexivity.
  - unfold setAutoClearForces, bind, engine_do, engine.
    destruct (b2_SetAutoClearForces _ _); [discriminate|].
    intros E. inversion E; subst. eexists. split; reflexivity.
  - rewrite clearForces_run. destruct (b2_ClearForces _); [discriminate|].
    intros E. inversion E; subst. eexists. split; reflexivity.
Qed.

(** A run that faults stops at the engine call that faulted. *)
Lemma run_fault (inputs : list input) (w : Box2DWorld.t W) (tr : list event) (o : origin) :
  run inputs w = (tr, Fault o) ->
  exists tr0 e, tr = tr0 ++ [e] /\ is_engine_call e = true.
Proof.
  revert w tr. induction inputs as [|i rest IH]; intros w tr; [discriminate|].
  cbn [run]. unfold bind.
  destruct (handle i w) as [tr1 [[[] w1]|o1]] eqn:Hi.
  - destruct (run rest w1) as [tr2 r2] eqn:Hr. intros E. inversion E; subst.
    destruct (IH w1 tr2 Hr) as (tr0 & e & -> & He).
    exists (tr1 ++ tr0), e. split; [now rewrite app_assoc|exact He].
  - intros E. inversion E; subst.
    destruct (handle_fault i w tr o Hi) as (e & -> & He).
    exists [], e. split; [reflexivity|exact He].
Qed.
End Failures.

(** What the property excludes: a body that divides an [int] by zero, a
    body that calls the engine again when the call has faulted, and a body
    that swallows the fault, have a failure, a retry and a recovery of
    their own. *)
Lemma failures_of_its_own_are_seen (b2_pi : float32) :
  ~ no_failure_of_its_own b2_pi
      (Cpp.Return (Cpp.Divide (Cpp.IntLiteral 1) (Cpp.IntLiteral 0)), Cpp.TVoid) /\
  ~ no_failure_of_its_own b2_pi
      (Cpp.TryCatch Cpp.Body.clearForces Cpp.Body.clearForces, Cpp.TVoid) /\
  ~ no_failure_of_its_own b2_pi
      (Cpp.TryCatch Cpp.Body.clearForces (Cpp.Return Cpp.Param), Cpp.TVoid).
Proof.
  pose (faulty := {| b2_GetGravity := fun _ : unit => b2Vec2.mk (S754_zero false) (S754_zero false);
                     b2_SetGravity := fun _ _ => Fault Engine;
                     b2_GetAutoClearForces := fun _ => true;
                     b2_SetAutoClearForces := fun _ _ => Fault Engine;
                     b2_ClearForces := fun _ => Fault Engine;
                     b2_Step := fun _ _ _ _ => Fault Engine |}).
  pose (w := Box2DWorld.mk tt (Binary32.of_int 1) 8 3 true Running).
  split; [|split]; intros Hn; destruct (Hn unit faulty Cpp.VVoid w eq_refl) as [Hc Hr].
  - cbn in Hr. destruct Hr as (o & Ho & _). discriminate.
  - cbn in Hc. lia.
  - cbn in Hr. destruct Hr as [b2 Hb]; [now left|discriminate].
Qed.

(** C8.  No operation of the wrapper has a failure of its own.  The inline
    members and the conversion helpers, evaluated as the header writes
    them, never divide an [int] by zero, overflow an [int] or get stuck,
    call the engine once at most, catch no fault and retry nothing: each
    call completes, except a [clearForces] that fails with the fault of
    the engine's [ClearForces]; evaluated so, the inline members are the
    methods of the world.  Every operation on the world makes one engine
    call at most; a run of operations that faults stops at the engine call
    that faulted, with nothing retried after it; [clearForces], [step] and
    the writes that go to the engine fault exactly when their engine call
    does, with its fault, and the other writes complete. *)
Theorem wrapper_adds_no_failure {W : Type} {ops : b2WorldOps W} (b2_pi : float32)
    (w : Box2DWorld.t W) :
  Forall (no_failure_of_its_own b2_pi) (inline_members ++ conversion_helpers) /\
  (Cpp.run b2_pi Cpp.Body.timeStep Cpp.VVoid w = evaluated Cpp.VFloat (timeStep w) /\
   Cpp.run b2_pi Cpp.Body.isRunning Cpp.VVoid w = evaluated Cpp.VBool (isRunning w) /\
   Cpp.run b2_pi Cpp.Body.velocityIterations Cpp.VVoid w =
     evaluated Cpp.VInt (velocityIterations w) /\
   Cpp.run b2_pi Cpp.Body.positionIterations Cpp.VVoid w =
     evaluated Cpp.VInt (positionIterations w) /\
   Cpp.run b2_pi Cpp.Body.autoClearForces Cpp.VVoid w =
     evaluated Cpp.VBool (autoClearForces w) /\
   Cpp.run b2_pi Cpp.Body.world Cpp.VVoid w = evaluated Cpp.VWorld (world w) /\
   Cpp.run b2_pi Cpp.Body.clearForces Cpp.VVoid w =
     evaluated (fun _ => Cpp.VVoid) (clearForces w)) /\
  (forall i, (count is_engine_call (trace (handle i w)) <= 1)%nat) /\
  (forall inputs tr o,
     run inputs w = (tr, Fault o) ->
     exists tr0 e, tr = tr0 ++ [e] /\ is_engine_call e = true) /\
  (forall o, result (clearForces w) = Fault o <->
             b2_ClearForces (Box2DWorld.mWorld w) = Fault o) /\
  (forall o, result (step w) = Fault o <->
             b2_Step (Box2DWorld.mTimeStep w) (Box2DWorld.mVelocityIterations w)
               (Box2DWorld.mPositionIterations w) (Box2DWorld.mWorld w) = Fault o) /\
  (forall g o, result (setGravity g w) = Fault o <->
               b2_SetGravity (invertY_QPointF g) (Box2DWorld.mWorld w) = Fault o) /\
  (forall b o, result (setAutoClearForces b w) = Fault o <->
               b2_SetAutoClearForces b (Box2DWorld.mWorld w) = Fault o) /\
  (forall dt, exists w', setTimeStep dt w = ([Emit timeStepChanged], Done (tt, w'))) /\
  (forall n, exists w',
     setVelocityIterations n w = ([Emit velocityIterationsChanged], Done (tt, w'))) /\
  (forall n, exists w',
     setPositionIterations n w = ([Emit positionIterationsChanged], Done (tt, w'))) /\
  (forall b, exists w' e,
     setRunning b w = ([Emit runningChanged; e], Done (tt, w')) /\
     is_engine_call e = false) /\
  gravity w = ([], Done (invertY_b2Vec2 (b2_GetGravity (Box2DWorld.mWorld w)), w)).
Proof.
  split.
  { unfold inline_members, conversion_helpers. cbn [app].
    repeat apply List.Forall_cons; try apply List.Forall_nil;
      intros W' ops' a w' Ht; cbn [fst snd] in *;
      destruct a; try discriminate Ht;
      first [run_helper ops' | run_member ops'];
      try (cbn [fst snd]; split; [cbn; lia|intros []]).
    destruct (b2_ClearForces _) as [b2|o] eqn:E; cbn [fst snd];
      (split; [cbn; lia|]).
    - intros _. now exists b2.
    - exists o. now repeat split. }
  split.
  { repeat split; try reflexivity.
    rewrite run_clearForces, clearForces_run. unfold evaluated.
    now destruct (b2_ClearForces _). }
  split; [intros i; apply handle_engine_calls|].
  split; [intros inputs tr o; apply run_fault|].
  split.
  { intros o. rewrite clearForces_run.
    destruct (b2_ClearForces _) as [b2|o0]; cbn; split; congruence. }
  split.
  { intros o. rewrite step_run. cbv zeta.
    destruct (b2_Step _ _ _ _) as [[cs b2]|o0]; cbn [result snd]; split;
      try discriminate; congruence. }
  split.
  { intros g o. unfold setGravity, bind, engine_do, engine.
    destruct (b2_SetGravity _ _) as [b2|o0]; cbn; split; congruence. }
  split.
  { intros b o. unfold setAutoClearForces, bind, engine_do, engine.
    destruct (b2_SetAutoClearForces _ _) as [b2|o0]; cbn; split; congruence. }
  split; [intros dt; eexists; reflexivity|].
  split; [intros n; eexists; reflexivity|].
  split; [intros n; eexists; reflexivity|].
  split; [intros b; do 2 eexists; split; [reflexivity|now destruct b]|].
  reflexivity.
Qed.
(** ** Scaling by 32: exact results, overflow and underflow *)

Section Overflow.
Variables prec emax : Z.

(** An exact value beyond the largest exponent rounds to infinity. *)
Lemma binary_round_aux_exact_overflow (s : bool) (m M : positive) (e n : Z) :
  canonical_mantissa prec emax m e = true -> emax - prec < e ->
  0 <= n -> Z.pos M = Z.pos m * 2 ^ n ->
  binary_round_aux prec emax s (Z.pos M) (e - n) loc_Exact = S754_infinity s.
Proof.
  intros Hc He Hn HM.
  unfold canonical_mantissa in Hc. apply Z.eqb_eq in Hc.
  pose proof (digits2_pos_shift m M n Hn HM) as Hd.
  unfold binary_round_aux, shr_fexp. simpl Zdigits2. simpl shr_record_of_loc.
  replace (Z.pos (digits2_pos M) + (e - n)) with (Z.pos (digits2_pos m) + e) by lia.
  rewrite Hc.
  replace (e - (e - n)) with n by lia.
  rewrite (shr_exact m M (e - n) n Hn HM).
  simpl. replace (e - n + n) with e by lia.
  rewrite Hc, Z.sub_diag. simpl.
  replace (e <=? emax - prec) with false by (symmetry; apply Z.leb_gt; lia).
  reflexivity.
Qed.
End Overflow.

Lemma toPixels_overflow (s : bool) (m : positive) (e : Z) :
  Binary32.valid (S754_finite s m e) = true -> 100 <= e ->
  toPixels (S754_finite s m e) = S754_infinity s.
Proof.
  intros Hv He. pose proof (valid32_inv s m e Hv) as (Hd & Hr & Hn).
  unfold toPixels, Binary32.mul. rewrite pixelsPerMeter_eq. cbn [SFmul].
  rewrite xorb_false_r.
  replace (e + -18) with ((e + 5) - 23) by lia.
  apply (binary_round_aux_exact_overflow Binary32.prec Binary32.emax s m
           (m * 8388608) (e + 5) 23).
  - unfold canonical_mantissa, fexp, emin, Binary32.prec, Binary32.emax.
    apply Z.eqb_eq. lia.
  - unfold Binary32.prec, Binary32.emax. lia.
  - lia.
  - lia.
Qed.

Local Open Scope Q_scope.

Lemma toPixels_value (s : bool) (m : positive) (e : Z) :
  Binary32.valid (S754_finite s m e) = true -> (e <= 99)%Z ->
  Binary32.valid (toPixels (S754_finite s m e)) = true /\
  is_finite (toPixels (S754_finite s m e)) = true /\
  SF2Q (toPixels (S754_finite s m e)) == 32 * SF2Q (S754_finite s m e).
Proof.
  intros Hv He.
  destruct (toPixels_finite s m e Hv He) as (m' & k & Hk & Hm' & Hb & ->).
  split; [exact Hb|]. split; [reflexivity|].
  rewrite !SF2Q_finite, Hm', inject_Z_mult, pow2_Z by lia.
  assert (Hp : 2 ^ k * 2 ^ (e + 5 - k) == 32 * 2 ^ e).
  { rewrite <- pow2_add. replace (k + (e + 5 - k))%Z with (5 + e)%Z by lia.
    rewrite pow2_add. reflexivity. }
  assert (Hassoc : forall a b c d : Q, a * (b * c * d) == a * b * (c * d))
    by (intros; ring).
  rewrite Hassoc, Hp. ring.
Qed.

(** [toPixels] on every single of magnitude below [2^123]. *)
Lemma toPixels_in_range (L : float32) :
  Binary32.valid L = true -> exponent_in (-149) 99 L = true ->
  Binary32.valid (toPixels L) = true /\ is_finite (toPixels L) = is_finite L /\
  SF2Q (toPixels L) == 32 * SF2Q L.
Proof.
  intros Hv Hr. destruct L as [s|s| |s m e].
  - repeat split; destruct s; reflexivity.
  - repeat split; destruct s; reflexivity.
  - repeat split; reflexivity.
  - cbn [exponent_in] in Hr. apply andb_true_iff in Hr as [_ Hr].
    apply Z.leb_le in Hr. now apply toPixels_value.
Qed.

(** The result of [toPixels] is a single, whatever the length. *)
Lemma toPixels_valid (L : float32) :
  Binary32.valid L = true -> Binary32.valid (toPixels L) = true.
Proof.
  intros Hv. destruct L as [s|s| |s m e]; try (now destruct s); try reflexivity.
  destruct (Z_le_gt_dec e 99) as [Hle|Hgt].
  - now apply toPixels_value.
  - now rewrite toPixels_overflow by (exact Hv || lia).
Qed.

(** X1.  [toPixels] never rounds: on a length of magnitude below [2^123]
    the result is finite and is 32 times the length, exactly; on every
    larger finite length it is the infinity of the same sign.  The result
    is a single-precision value in every case. *)
Theorem toPixels_exact_or_overflow (L : float32) :
  Binary32.valid L = true ->
  Binary32.valid (toPixels L) = true /\
  (exponent_in (-149) 99 L = true ->
   is_finite (toPixels L) = is_finite L /\ SF2Q (toPixels L) == 32 * SF2Q L) /\
  (forall (s : bool) (m : positive) (e : Z),
     L = S754_finite s m e -> (100 <= e)%Z -> toPixels L = S754_infinity s).
Proof.
  intros Hv. destruct L as [s|s| |s m e].
  - split; [now destruct s|]. split; [|discriminate].
    intros _. split; destruct s; reflexivity.
  - split; [now destruct s|]. split; [|discriminate].
    intros _. split; destruct s; reflexivity.
  - split; [reflexivity|]. split; [|discriminate]. intros _. split; reflexivity.
  - destruct (Z_le_gt_dec e 99) as [Hle|Hgt].
    + destruct (toPixels_value s m e Hv Hle) as (Hb & Hf & Hval).
      split; [exact Hb|]. split; [intros _; split; [exact Hf|exact Hval]|].
      intros s' m' e' Heq He'. inversion Heq; subst. lia.
    + split; [rewrite toPixels_overflow by (exact Hv || lia); reflexivity|].
      split.
      * cbn [exponent_in]. intros Hr. apply andb_true_iff in Hr as [_ Hr].
        apply Z.leb_le in Hr. lia.
      * intros s' m' e' Heq He'. inversion Heq; subst. now apply toPixels_overflow.
Qed.

(** The length 1.5: 48 pixels. *)
Lemma toPixels_exact_or_overflow_witness :
  SF2Q (toPixels (S754_finite false 12582912 (-23))) ==
  32 * SF2Q (S754_finite false 12582912 (-23)).
Proof.
  destruct (toPixels_exact_or_overflow (S754_finite false 12582912 (-23)) eq_refl)
    as (_ & Hx & _).
  apply Hx. reflexivity.
Defined.

Local Close Scope Q_scope.
Local Open Scope Q_scope.

Lemma digits_le_of_bound (q : positive) (k : Z) :
  (0 <= k)%Z -> (Z.pos q <= 2 ^ k)%Z -> (Z.pos (digits2_pos q) <= k + 1)%Z.
Proof.
  intros Hk Hq.
  pose proof (Zdigits2_bounds (Z.pos q) ltac:(lia)) as [Hql _].
  pose proof (Zdigits2_pos (Z.pos q) ltac:(lia)) as Hqd. cbn [Zdigits2] in *.
  assert (Hlt : (2 ^ (Z.pos (digits2_pos q) - 1) < 2 ^ (k + 1))%Z).
  { rewrite Z.pow_add_r by lia. change (2 ^ 1)%Z with 2%Z. lia. }
  apply pow2_lt_inv in Hlt; lia.
Qed.

(** From [2^-121] up, [toMeters] lowers the exponent by 5. *)
Lemma toMeters_normal (s : bool) (m : positive) (e : Z) :
  Binary32.valid (S754_finite s m e) = true -> (-144 <= e)%Z ->
  toMeters (S754_finite s m e) = S754_finite s m (e - 5) /\
  Binary32.valid (S754_finite s m (e - 5)) = true.
Proof.
  intros Hv He. pose proof (valid32_inv s m e Hv) as (Hd & Her & Hn).
  assert (Hb : bounded Binary32.prec Binary32.emax m (e - 5) = true)
    by (apply bounded32_intro; lia).
  split; [|exact Hb].
  replace e with (e - 5 + 5 - 0)%Z at 1 by lia.
  apply toMeters_finite_scaled; [exact Hb|lia|lia].
Qed.

(** Below [2^-121], [toMeters] rounds to a multiple of [2^-149]. *)
Lemma toMeters_subnormal (s : bool) (m : positive) (e : Z) :
  Binary32.valid (S754_finite s m e) = true -> (e < -144)%Z ->
  exists m2 : Z,
    (0 <= m2 <= 2 ^ 23)%Z /\
    toMeters (S754_finite s m e) =
      match m2 with
      | Z.pos q => S754_finite s q (-149)
      | _ => S754_zero s
      end /\
    Qabs (inject_Z m2 * 2 ^ (-149) - inject_Z (Z.pos m) * 2 ^ e * (1 # 32))
      <= 2 ^ (-150).
Proof.
  intros Hv He. pose proof (valid32_inv s m e Hv) as (Hd & Her & Hn).
  unfold toMeters, Binary32.mul. rewrite metersPerPixel_eq. cbn [SFmul].
  rewrite xorb_false_r.
  set (M := Z.pos (m * 8388608)).
  assert (HM : M = (Z.pos m * 2 ^ 23)%Z) by (unfold M; lia).
  assert (HdM : Zdigits2 M = (Z.pos (digits2_pos m) + 23)%Z).
  { unfold M. cbn [Zdigits2]. apply digits2_pos_shift; lia. }
  destruct (binary_round_aux_subnormal Binary32.prec Binary32.emax ltac:(reflexivity)
              s M (e + -28) loc_Exact (inject_Z M))
    as (m2 & Hm2 & Hres & Herr);
    try (unfold emin, Binary32.prec, Binary32.emax; lia).
  { unfold located. cbn. reflexivity. }
  change (emin Binary32.prec Binary32.emax) with (-149)%Z in *.
  change (2 ^ (Binary32.prec - 1))%Z with (2 ^ 23)%Z in Hm2.
  exists m2. split; [exact Hm2|]. split; [exact Hres|].
  assert (HL : inject_Z (Z.pos m) * 2 ^ e * (1 # 32) == inject_Z M * 2 ^ (e + -28)).
  { assert (Hp : 2 ^ (e + -28) * 2 ^ 28 == 2 ^ e).
    { rewrite <- pow2_add. replace (e + -28 + 28)%Z with e by lia. reflexivity. }
    rewrite <- Hp, HM, inject_Z_mult.
    change (inject_Z (2 ^ 23)) with 8388608. change (2 ^ 28) with 268435456. ring. }
  rewrite HL.
  assert (H150 : 2 ^ (-150) == (1 # 2) * 2 ^ (-149)) by reflexivity.
  rewrite H150. exact Herr.
Qed.

(** The result of [toMeters] is a single of exponent 99 at most. *)
Lemma toMeters_range (L : float32) :
  Binary32.valid L = true ->
  Binary32.valid (toMeters L) = true /\ exponent_in (-149) 99 (toMeters L) = true.
Proof.
  intros Hv. destruct L as [s|s| |s m e].
  - split; destruct s; reflexivity.
  - split; destruct s; reflexivity.
  - split; reflexivity.
  - pose proof (valid32_inv s m e Hv) as (Hd & Her & Hn).
    destruct (Z_lt_le_dec e (-144)) as [Hlt|Hge].
    + destruct (toMeters_subnormal s m e Hv Hlt) as (m2 & Hm2 & -> & _).
      destruct m2 as [|q|q]; try lia; split; try reflexivity.
      apply bounded32_intro; [lia| |right; reflexivity].
      pose proof (digits_le_of_bound q 23 ltac:(lia) (proj2 Hm2)). lia.
    + destruct (toMeters_normal s m e Hv Hge) as [-> Hb].
      split; [exact Hb|]. cbn [exponent_in].
      apply andb_true_iff. split; apply Z.leb_le; lia.
Qed.

(** The distance of [toMeters L] from the 32nd part of [L]. *)
Lemma toMeters_error (L : float32) :
  Binary32.valid L = true -> is_finite L = true ->
  is_finite (toMeters L) = true /\
  Qabs (SF2Q (toMeters L) - SF2Q L * (1 # 32)) <= 2 ^ (-150) /\
  (exponent_in (-144) 104 L = true -> SF2Q (toMeters L) == SF2Q L * (1 # 32)).
Proof.
  intros Hv Hfin. destruct L as [s|s| |s m e]; try discriminate.
  - split; [now destruct s|].
    split; [destruct s; now apply Qle_bool_imp_le|]. intros _. destruct s; reflexivity.
  - destruct (Z_lt_le_dec e (-144)) as [Hlt|Hge].
    + destruct (toMeters_subnormal s m e Hv Hlt) as (m2 & Hm2 & Hres & Herr).
      assert (Hval : SF2Q (toMeters (S754_finite s m e)) ==
                     sign_of s * (inject_Z m2 * 2 ^ (-149))).
      { rewrite Hres. destruct m2 as [|q|q]; try lia.
        - cbn [SF2Q]. change (inject_Z 0) with 0. ring.
        - reflexivity. }
      split.
      { rewrite Hres. now destruct m2. }
      split.
      * rewrite Hval, SF2Q_finite.
        assert (Hs : sign_of s * (inject_Z m2 * 2 ^ (-149)) -
                     sign_of s * (inject_Z (Z.pos m) * 2 ^ e) * (1 # 32) ==
                     sign_of s * (inject_Z m2 * 2 ^ (-149) -
                                  inject_Z (Z.pos m) * 2 ^ e * (1 # 32))) by ring.
        rewrite Hs, Qabs_Qmult.
        assert (Hsa : Qabs (sign_of s) == 1) by (destruct s; reflexivity).
        now rewrite Hsa, Qmult_1_l.
      * cbn [exponent_in]. intros Hr. apply andb_true_iff in Hr as [Hr _].
        apply Z.leb_le in Hr. lia.
    + destruct (toMeters_normal s m e Hv Hge) as [Hres Hb].
      assert (Hval : SF2Q (toMeters (S754_finite s m e)) ==
                     SF2Q (S754_finite s m e) * (1 # 32)).
      { rewrite Hres, !SF2Q_finite.
        replace (e - 5)%Z with (e + -5)%Z by lia. rewrite pow2_add.
        change (2 ^ (-5)) with (1 # 32). ring. }
      split; [rewrite Hres; reflexivity|].
      split; [|intros _; exact Hval].
      assert (H0 : SF2Q (toMeters (S754_finite s m e)) -
                   SF2Q (S754_finite s m e) * (1 # 32) == 0) by (rewrite Hval; ring).
      rewrite H0. now apply Qle_bool_imp_le.
Qed.

(** X2.  [toMeters] never overflows and never fails: on every finite
    length the result is a finite single-precision value, at most [2^-150]
    (half the smallest positive single) away from the length divided by 32,
    and equal to it when the length is zero or of magnitude [2^-121] or
    more. *)
Theorem toMeters_never_overflows (L : float32) :
  Binary32.valid L = true -> is_finite L = true ->
  Binary32.valid (toMeters L) = true /\ is_finite (toMeters L) = true /\
  Qabs (SF2Q (toMeters L) - SF2Q L * (1 # 32)) <= 2 ^ (-150) /\
  (exponent_in (-144) 104 L = true -> SF2Q (toMeters L) == SF2Q L * (1 # 32)).
Proof.
  intros Hv Hfin. split; [now apply toMeters_range|]. now apply toMeters_error.
Qed.

(** The largest finite single: its 32nd part is finite. *)
Lemma toMeters_never_overflows_witness : is_finite (toMeters max_float32) = true.
Proof.
  exact (proj1 (proj2 (toMeters_never_overflows max_float32 eq_refl eq_refl))).
Defined.

Local Close Scope Q_scope.
(** ** Negation, special values and repeated round trips *)

Lemma toMeters_opp (a : float32) : toMeters (SFopp a) = SFopp (toMeters a).
Proof. apply SFmul_opp_l. Qed.

Lemma toDegrees_opp (b2_pi a : float32) :
  toDegrees b2_pi (SFopp a) = SFopp (toDegrees b2_pi a).
Proof. unfold toDegrees, Binary32.div, Binary32.mul. now rewrite SFmul_opp_l, SFdiv_opp_l. Qed.

Lemma toRadians_opp (b2_pi a : float32) :
  toRadians b2_pi (SFopp a) = SFopp (toRadians b2_pi a).
Proof. unfold toRadians, Binary32.div, Binary32.mul. now rewrite SFmul_opp_l, SFdiv_opp_l. Qed.

(** X3.  Every conversion commutes with negation: the mirror image of a
    length, an angle, a vector or a point converts to the mirror image of
    its conversion, whatever the value (zeros, infinities and NaN
    included). *)
Theorem conversions_commute_with_negation (b2_pi a b : float32) (c d : qreal) :
  toPixels (SFopp a) = SFopp (toPixels a) /\
  toMeters (SFopp a) = SFopp (toMeters a) /\
  toDegrees b2_pi (SFopp a) = SFopp (toDegrees b2_pi a) /\
  toRadians b2_pi (SFopp a) = SFopp (toRadians b2_pi a) /\
  toPixels_b2Vec2 (b2Vec2.mk (SFopp a) (SFopp b)) =
    QPointF.mk (SFopp (QPointF.x (toPixels_b2Vec2 (b2Vec2.mk a b))))
               (SFopp (QPointF.y (toPixels_b2Vec2 (b2Vec2.mk a b)))) /\
  toMeters_QPointF (QPointF.mk (SFopp c) (SFopp d)) =
    b2Vec2.mk (SFopp (b2Vec2.x (toMeters_QPointF (QPointF.mk c d))))
              (SFopp (b2Vec2.y (toMeters_QPointF (QPointF.mk c d)))).
Proof.
  split; [apply toPixels_opp|]. split; [apply toMeters_opp|].
  split; [apply toDegrees_opp|]. split; [apply toRadians_opp|].
  unfold toPixels_b2Vec2, toMeters_QPointF, Binary32.mul.
  cbn [b2Vec2.x b2Vec2.y QPointF.x QPointF.y].
  split; f_equal;
    now rewrite ?mul64_opp_l, ?SFmul_opp_l, ?of_float64_opp, ?of_float32_opp.
Qed.

(** X4.  Zeros, infinities and NaN pass through the conversions: [toPixels]
    and [toMeters] return them unchanged; [toDegrees] and [toRadians]
    return them with the sign inverted, so that the angle [+0] converts to
    [-0]. *)
Theorem conversions_of_special_values (b2_pi : float32) (s : bool) :
  in_binade_of_pi b2_pi = true ->
  (toPixels (S754_zero s) = S754_zero s /\
   toPixels (S754_infinity s) = S754_infinity s /\ toPixels S754_nan = S754_nan) /\
  (toMeters (S754_zero s) = S754_zero s /\
   toMeters (S754_infinity s) = S754_infinity s /\ toMeters S754_nan = S754_nan) /\
  (toDegrees b2_pi (S754_zero s) = S754_zero (negb s) /\
   toDegrees b2_pi (S754_infinity s) = S754_infinity (negb s) /\
   toDegrees b2_pi S754_nan = S754_nan) /\
  (toRadians b2_pi (S754_zero s) = S754_zero (negb s) /\
   toRadians b2_pi (S754_infinity s) = S754_infinity (negb s) /\
   toRadians b2_pi S754_nan = S754_nan).
Proof.
  intros Hpi. destruct (in_binade_of_pi_inv b2_pi Hpi) as (mp & -> & _).
  split; [repeat split; destruct s; reflexivity|].
  split; [repeat split; destruct s; reflexivity|].
  unfold toDegrees, toRadians. rewrite of_int_180.
  split; repeat split; destruct s; reflexivity.
Qed.

(** Box2D's [b2_pi] and the positive zero. *)
Lemma conversions_of_special_values_witness :
  toDegrees b2_pi_literal (S754_zero false) = S754_zero true.
Proof.
  exact (proj1 (proj1 (proj2 (proj2
           (conversions_of_special_values b2_pi_literal false eq_refl))))).
Defined.

Lemma toPixels_toMeters_toPixels (L : float32) :
  Binary32.valid L = true -> toPixels (toMeters (toPixels L)) = toPixels L.
Proof.
  intros Hv. destruct L as [s|s| |s m e].
  - destruct s; reflexivity.
  - destruct s; reflexivity.
  - reflexivity.
  - destruct (Z_le_gt_dec e 99) as [Hle|Hgt].
    + destruct (toPixels_finite s m e Hv Hle) as (m' & k & Hk & Hm' & _ & Hres).
      rewrite Hres at 1.
      now rewrite (toMeters_finite_scaled s m m' e k Hv (proj1 Hk) Hm').
    + rewrite toPixels_overflow by (exact Hv || lia). now destruct s.
Qed.

(** X5.  A second round trip changes nothing: whatever a conversion of a
    length loses (to underflow or overflow), it loses the first time, and
    the converted value then survives the way back and forth exactly.  This
    holds for every single, with no bound on its magnitude. *)
Theorem second_round_trip_of_a_length (L : float32) :
  Binary32.valid L = true ->
  toMeters (toPixels (toMeters L)) = toMeters L /\
  toPixels (toMeters (toPixels L)) = toPixels L.
Proof.
  intros Hv. split.
  - destruct (toMeters_range L Hv) as [Hv' Hr]. now apply toMeters_toPixels_exact.
  - now apply toPixels_toMeters_toPixels.
Qed.

(** The smallest positive single: it underflows to zero on the way to
    meters, and zero comes back as zero. *)
Lemma second_round_trip_of_a_length_witness :
  toMeters (toPixels (toMeters min_float32)) = toMeters min_float32.
Proof. exact (proj1 (second_round_trip_of_a_length min_float32 eq_refl)). Defined.
(** ** Order of lengths *)

Local Open Scope Q_scope.

Lemma SF2Q_neg (m : positive) (e : Z) : SF2Q (S754_finite true m e) < 0.
Proof.
  pose proof (SF2Q_pos m e) as Hp. rewrite SF2Q_finite in *.
  unfold sign_of in *. lra.
Qed.

(** A finite single is a multiple of [2^-149]. *)
Lemma valid32_grid (f : float32) :
  Binary32.valid f = true -> exists k : Z, SF2Q f == inject_Z k * 2 ^ (-149).
Proof.
  intros Hv. destruct f as [s|s| |s m e]; try (exists 0%Z; reflexivity).
  pose proof (valid32_inv s m e Hv) as (_ & He & _).
  exists ((if s then -1 else 1) * (Z.pos m * 2 ^ (e + 149)))%Z.
  rewrite SF2Q_finite, !inject_Z_mult, pow2_Z by lia.
  assert (Hp : 2 ^ (e + 149) * 2 ^ (-149) == 2 ^ e).
  { rewrite <- pow2_add. replace (e + 149 + -149)%Z with e by lia. reflexivity. }
  assert (Hassoc : forall a b c d : Q, a * (b * c) * d == a * (b * (c * d)))
    by (intros; ring).
  rewrite Hassoc, Hp. destruct s; reflexivity.
Qed.

(** Two singles of the same sign and value are the same single. *)
Lemma valid32_unique_le (m1 m2 : positive) (e1 e2 : Z) :
  Binary32.valid (S754_finite false m1 e1) = true ->
  Binary32.valid (S754_finite false m2 e2) = true ->
  inject_Z (Z.pos m1) * 2 ^ e1 == inject_Z (Z.pos m2) * 2 ^ e2 ->
  (e1 <= e2)%Z -> m1 = m2 /\ e1 = e2.
Proof.
  intros Hv1 Hv2 Heq Hle.
  pose proof (valid32_inv false m1 e1 Hv1) as (Hd1 & Hr1 & Hn1).
  pose proof (valid32_inv false m2 e2 Hv2) as (Hd2 & Hr2 & Hn2).
  assert (Hz : Z.pos m1 = (Z.pos m2 * 2 ^ (e2 - e1))%Z).
  { apply inject_Z_injective. rewrite inject_Z_mult, pow2_Z by lia.
    assert (Hp : 2 ^ e2 == 2 ^ (e2 - e1) * 2 ^ e1).
    { rewrite <- pow2_add. replace (e2 - e1 + e1)%Z with e2 by lia. reflexivity. }
    rewrite Hp in Heq. pose proof (pow2_pos e1) as Hpos.
    assert (Hc : (inject_Z (Z.pos m1) - inject_Z (Z.pos m2) * 2 ^ (e2 - e1)) * 2 ^ e1 == 0)
      by (rewrite <- (Qplus_opp_r (inject_Z (Z.pos m1) * 2 ^ e1)); rewrite Heq at 2; ring).
    apply Qmult_integral in Hc as [Hc|Hc]; lra. }
  pose proof (digits2_pos_shift m2 m1 (e2 - e1) ltac:(lia) Hz) as Hd.
  assert (e1 = e2) by lia. subst e2. split; [|reflexivity].
  rewrite Z.sub_diag, Z.mul_1_r in Hz. congruence.
Qed.

Lemma valid32_unique (s1 s2 : bool) (m1 m2 : positive) (e1 e2 : Z) :
  Binary32.valid (S754_finite s1 m1 e1) = true ->
  Binary32.valid (S754_finite s2 m2 e2) = true ->
  SF2Q (S754_finite s1 m1 e1) == SF2Q (S754_finite s2 m2 e2) ->
  S754_finite s1 m1 e1 = S754_finite s2 m2 e2.
Proof.
  intros Hv1 Hv2 Heq.
  assert (Hs : s1 = s2).
  { destruct s1, s2; try reflexivity.
    - pose proof (SF2Q_neg m1 e1). pose proof (SF2Q_pos m2 e2). lra.
    - pose proof (SF2Q_pos m1 e1). pose proof (SF2Q_neg m2 e2). lra. }
  subst s2.
  assert (Hm : inject_Z (Z.pos m1) * 2 ^ e1 == inject_Z (Z.pos m2) * 2 ^ e2).
  { rewrite !SF2Q_finite in Heq. destruct s1; unfold sign_of in Heq; lra. }
  destruct (Z_le_gt_dec e1 e2) as [Hle|Hgt].
  - destruct (valid32_unique_le m1 m2 e1 e2 Hv1 Hv2 Hm Hle) as [-> ->]. reflexivity.
  - symmetry in Hm.
    destruct (valid32_unique_le m2 m1 e2 e1 Hv2 Hv1 Hm ltac:(lia)) as [-> ->]. reflexivity.
Qed.

(** Finite singles of the same value have [toMeters] of the same value. *)
Lemma toMeters_value_ext (L1 L2 : float32) :
  Binary32.valid L1 = true -> Binary32.valid L2 = true ->
  is_finite L1 = true -> is_finite L2 = true ->
  SF2Q L1 == SF2Q L2 -> SF2Q (toMeters L1) == SF2Q (toMeters L2).
Proof.
  intros Hv1 Hv2 Hf1 Hf2 Heq.
  destruct L1 as [s1|s1| |s1 m1 e1], L2 as [s2|s2| |s2 m2 e2]; try discriminate.
  - destruct s1, s2; reflexivity.
  - exfalso. cbn [SF2Q] in Heq.
    destruct s2; [pose proof (SF2Q_neg m2 e2)|pose proof (SF2Q_pos m2 e2)];
      rewrite SF2Q_finite in *; lra.
  - exfalso. cbn [SF2Q] in Heq.
    destruct s1; [pose proof (SF2Q_neg m1 e1)|pose proof (SF2Q_pos m1 e1)];
      rewrite SF2Q_finite in *; lra.
  - now rewrite (valid32_unique s1 s2 m1 m2 e1 e2 Hv1 Hv2 Heq).
Qed.
Local Close Scope Q_scope.

Local Open Scope Q_scope.

(** X6.  The conversions of lengths keep their order.  [toMeters] is
    monotone on all finite lengths, although it rounds the smallest ones:
    a length that is not larger converts to a length that is not larger.
    [toPixels] keeps the strict order of lengths of magnitude below
    [2^123]. *)
Theorem lengths_keep_their_order (L1 L2 : float32) :
  Binary32.valid L1 = true -> Binary32.valid L2 = true ->
  is_finite L1 = true -> is_finite L2 = true ->
  (SF2Q L1 <= SF2Q L2 -> SF2Q (toMeters L1) <= SF2Q (toMeters L2)) /\
  (exponent_in (-149) 99 L1 = true -> exponent_in (-149) 99 L2 = true ->
   (SF2Q L1 < SF2Q L2 <-> SF2Q (toPixels L1) < SF2Q (toPixels L2))).
Proof.
  intros Hv1 Hv2 Hf1 Hf2. split.
  - intros Hle.
    destruct (toMeters_range L1 Hv1) as [Hr1 _].
    destruct (toMeters_range L2 Hv2) as [Hr2 _].
    destruct (valid32_grid _ Hr1) as [k1 Hk1].
    destruct (valid32_grid _ Hr2) as [k2 Hk2].
    destruct (toMeters_error L1 Hv1 Hf1) as (_ & He1 & _).
    destruct (toMeters_error L2 Hv2 Hf2) as (_ & He2 & _).
    apply Qabs_Qle_condition in He1 as [He1l He1u].
    apply Qabs_Qle_condition in He2 as [He2l He2u].
    pose proof (pow2_pos (-149)) as Hg.
    assert (Hh : 2 ^ (-150) == (1 # 2) * 2 ^ (-149)) by reflexivity.
    destruct (Z_le_gt_dec k1 k2) as [Hk|Hk].
    + rewrite Hk1, Hk2. apply Qmult_le_compat_r; [|lra]. now rewrite <- Zle_Qle.
    + assert (Hk' : inject_Z k2 + 1 <= inject_Z k1).
      { change 1 with (inject_Z 1). rewrite <- inject_Z_plus, <- Zle_Qle. lia. }
      assert (Hstep : SF2Q (toMeters L2) + 2 ^ (-149) <= SF2Q (toMeters L1)).
      { rewrite Hk1, Hk2. nra. }
      assert (Heq : SF2Q L1 == SF2Q L2) by lra.
      pose proof (toMeters_value_ext L1 L2 Hv1 Hv2 Hf1 Hf2 Heq). lra.
  - intros Hx1 Hx2.
    destruct (toPixels_in_range L1 Hv1 Hx1) as (_ & _ & Hp1).
    destruct (toPixels_in_range L2 Hv2 Hx2) as (_ & _ & Hp2).
    rewrite Hp1, Hp2. split; lra.
Qed.

(** The two smallest positive singles, [2^-149] and [2^-148]: both are
    below the smallest 32nd part that a single can hold, and their images
    are in order (both are zero). *)
Lemma lengths_keep_their_order_witness :
  SF2Q (toMeters (S754_finite false 1 (-149))) <= SF2Q (toMeters (S754_finite false 2 (-149))).
Proof.
  apply (lengths_keep_their_order (S754_finite false 1 (-149)) (S754_finite false 2 (-149))
           eq_refl eq_refl eq_refl eq_refl).
  apply Qle_bool_imp_le. reflexivity.
Defined.

Local Close Scope Q_scope.
(** ** Vectors and points *)

Lemma widen_valid (f : float32) :
  Binary32.valid f = true -> Binary64.valid (Binary64.of_float f) = true.
Proof.
  intros Hv. destruct f as [s|s| |s m e]; try reflexivity.
  pose proof (valid32_inv s m e Hv) as (Hd & He & _).
  destruct (widen_finite s m e Hv) as (m64 & j & Hj & Hm & Hd64 & ->).
  pose proof (digits2_pos_shift m m64 j Hj Hm) as Hs.
  apply bounded64_intro; lia.
Qed.

Lemma is_finite_opp (f : spec_float) : is_finite (SFopp f) = is_finite f.
Proof. now destruct f. Qed.

Lemma valid64_opp (f : spec_float) : Binary64.valid (SFopp f) = Binary64.valid f.
Proof. now destruct f. Qed.

Lemma valid32_opp (f : spec_float) : Binary32.valid (SFopp f) = Binary32.valid f.
Proof. now destruct f. Qed.

Local Open Scope Q_scope.

(** X7.  A vector with coordinates of magnitude below [2^123] converts to
    the point (32 x, -32 y), exactly: both coordinates are double-precision
    values, finite when the vector's are, and no rounding takes place. *)
Theorem toPixels_b2Vec2_exact (v : b2Vec2.t) :
  b2Vec2.valid v = true ->
  exponent_in (-149) 99 (b2Vec2.x v) = true ->
  exponent_in (-149) 99 (b2Vec2.y v) = true ->
  QPointF.valid (toPixels_b2Vec2 v) = true /\
  is_finite (QPointF.x (toPixels_b2Vec2 v)) = is_finite (b2Vec2.x v) /\
  is_finite (QPointF.y (toPixels_b2Vec2 v)) = is_finite (b2Vec2.y v) /\
  SF2Q (QPointF.x (toPixels_b2Vec2 v)) == 32 * SF2Q (b2Vec2.x v) /\
  SF2Q (QPointF.y (toPixels_b2Vec2 v)) == - (32 * SF2Q (b2Vec2.y v)).
Proof.
  destruct v as [a b]. unfold b2Vec2.valid. cbn [b2Vec2.x b2Vec2.y].
  intros Hv Hra Hrb. apply andb_true_iff in Hv as [Ha Hb].
  destruct (toPixels_in_range a Ha Hra) as (Hva & Hfa & Hxa).
  destruct (toPixels_in_range b Hb Hrb) as (Hvb & Hfb & Hxb).
  unfold toPixels_b2Vec2, QPointF.valid. cbn [b2Vec2.x b2Vec2.y QPointF.x QPointF.y].
  rewrite mul_pixelsPerMeterY, of_float64_opp. fold (toPixels a).
  destruct (widen_value _ Hva) as [Hwa Hwfa].
  destruct (widen_value _ Hvb) as [Hwb Hwfb].
  split; [now rewrite valid64_opp, !widen_valid|].
  split; [now rewrite Hwfa|]. split; [now rewrite is_finite_opp, Hwfb|].
  split; [now rewrite Hwa|]. now rewrite SF2Q_opp, Hwb, Hxb.
Qed.

(** The vector (1, 2). *)
Lemma toPixels_b2Vec2_exact_witness :
  SF2Q (QPointF.y (toPixels_b2Vec2 (b2Vec2.mk (Binary32.of_int 1) (Binary32.of_int 2)))) ==
  - (32 * SF2Q (Binary32.of_int 2)).
Proof.
  exact (proj2 (proj2 (proj2 (proj2
    (toPixels_b2Vec2_exact (b2Vec2.mk (Binary32.of_int 1) (Binary32.of_int 2))
       eq_refl eq_refl eq_refl))))).
Defined.

(** One coordinate of [toMeters (point)], without the sign inversion: the
    32nd part is computed exactly in double precision and rounded once. *)
Lemma coordinate_meters (c : qreal) :
  Binary64.valid c = true -> exponent_in (-173) 79 c = true -> is_finite c = true ->
  Binary32.valid (Binary32.of_float
    (Binary64.mul c (Binary64.of_float metersPerPixel))) = true /\
  is_finite (Binary32.of_float
    (Binary64.mul c (Binary64.of_float metersPerPixel))) = true /\
  rel_err roundoff32
    (SF2Q (Binary32.of_float (Binary64.mul c (Binary64.of_float metersPerPixel))))
    (SF2Q c * (1 # 32)).
Proof.
  intros Hv Hr Hf. destruct c as [s|s| |s m e]; try discriminate.
  - split; [now destruct s|]. split; [now destruct s|].
    unfold rel_err. destruct s; now apply Qle_bool_imp_le.
  - cbn [exponent_in] in Hr.
    apply andb_true_iff in Hr as [H1 H2]. apply Z.leb_le in H1, H2.
    pose proof (valid64_inv s m e Hv) as (Hd & He & Hn).
    assert (Hd53 : Z.pos (digits2_pos m) = 53%Z) by lia.
    rewrite mul64_metersPerPixel by lia.
    unfold Binary32.of_float.
    destruct (binary_round_normal Binary32.prec Binary32.emax ltac:(reflexivity) s m (e - 5))
      as (m' & e' & -> & Hd' & He' & Herr);
      try (unfold emin, Binary32.prec, Binary32.emax; lia).
    unfold Binary32.prec in *.
    split; [apply bounded32_intro; lia|]. split; [reflexivity|].
    eapply rel_err_ext; [reflexivity| |exact Herr].
    rewrite !SF2Q_finite. replace (e - 5)%Z with (e + -5)%Z by lia.
    rewrite pow2_add. change (2 ^ (-5)) with (1 # 32). ring.
Qed.

Lemma rel_err_opp (eps x y : Q) : rel_err eps x y -> rel_err eps (- x) (- y).
Proof.
  unfold rel_err. intros H.
  assert (Hd : - x - - y == - (x - y)) by ring.
  now rewrite Hd, !Qabs_opp.
Qed.

(** X8.  A point converts to meters with one rounding per coordinate: for
    finite coordinates that are zero or of magnitude from [2^-121] up to
    [2^132], well beyond the largest single, the result is a finite vector
    whose coordinates are within the relative error [2^-24] of x / 32 and
    of - y / 32. *)
Theorem toMeters_QPointF_accuracy (p : QPointF.t) :
  QPointF.valid p = true ->
  exponent_in (-173) 79 (QPointF.x p) = true -> is_finite (QPointF.x p) = true ->
  exponent_in (-173) 79 (QPointF.y p) = true -> is_finite (QPointF.y p) = true ->
  b2Vec2.valid (toMeters_QPointF p) = true /\
  is_finite (b2Vec2.x (toMeters_QPointF p)) = true /\
  is_finite (b2Vec2.y (toMeters_QPointF p)) = true /\
  rel_err roundoff32 (SF2Q (b2Vec2.x (toMeters_QPointF p))) (SF2Q (QPointF.x p) * (1 # 32)) /\
  rel_err roundoff32 (SF2Q (b2Vec2.y (toMeters_QPointF p)))
    (- (SF2Q (QPointF.y p) * (1 # 32))).
Proof.
  destruct p as [a b]. unfold QPointF.valid. cbn [QPointF.x QPointF.y].
  intros Hv Hra Hfa Hrb Hfb. apply andb_true_iff in Hv as [Ha Hb].
  destruct (coordinate_meters a Ha Hra Hfa) as (Hva & Hfa' & Hea).
  destruct (coordinate_meters b Hb Hrb Hfb) as (Hvb & Hfb' & Heb).
  unfold toMeters_QPointF, b2Vec2.valid. cbn [b2Vec2.x b2Vec2.y QPointF.x QPointF.y].
  rewrite mul_metersPerPixelY, of_float32_opp.
  split; [now rewrite valid32_opp, Hva, Hvb|].
  split; [exact Hfa'|]. split; [now rewrite is_finite_opp|].
  split; [exact Hea|].
  eapply rel_err_ext; [symmetry; apply SF2Q_opp|reflexivity|]. now apply rel_err_opp.
Qed.

(** The point (0.1, 0.1) in double precision. *)
Lemma toMeters_QPointF_accuracy_witness :
  is_finite (b2Vec2.x (toMeters_QPointF
    (QPointF.mk (S754_finite false 7205759403792794 (-56))
                (S754_finite false 7205759403792794 (-56))))) = true.
Proof.
  exact (proj1 (proj2
    (toMeters_QPointF_accuracy
       (QPointF.mk (S754_finite false 7205759403792794 (-56))
                   (S754_finite false 7205759403792794 (-56)))
       eq_refl eq_refl eq_refl eq_refl eq_refl))).
Defined.

Local Close Scope Q_scope.
(** ** Vector conversions, coordinate by coordinate *)

Section Shift.
Variables prec emax : Z.

(** Rounding an exact value does not depend on how many trailing zero bits
    its mantissa is given with. *)
Lemma binary_round_aux_shift (s : bool) (m M : positive) (E n : Z) :
  0 <= n -> Z.pos M = Z.pos m * 2 ^ n ->
  E <= fexp prec emax (Z.pos (digits2_pos m) + E) ->
  binary_round_aux prec emax s (Z.pos M) (E - n) loc_Exact =
  binary_round_aux prec emax s (Z.pos m) E loc_Exact.
Proof.
  intros Hn HM HE.
  assert (Hshr : shr_fexp prec emax (Z.pos M) (E - n) loc_Exact =
                 shr_fexp prec emax (Z.pos m) E loc_Exact).
  { unfold shr_fexp. cbn [Zdigits2].
    rewrite (digits2_pos_shift m M n Hn HM).
    replace (Z.pos (digits2_pos m) + n + (E - n)) with (Z.pos (digits2_pos m) + E) by lia.
    set (F := fexp prec emax (Z.pos (digits2_pos m) + E)) in *.
    rewrite !shr_nat by lia. f_equal; [|lia].
    replace (Z.to_nat (F - (E - n))) with (Z.to_nat (F - E) + Z.to_nat n)%nat by lia.
    rewrite Nat.iter_add. f_equal.
    apply shr_iter_exact. now rewrite Z2Nat.id. }
  unfold binary_round_aux. now rewrite Hshr.
Qed.
End Shift.

(** [toMeters] rounds the exact 32nd part. *)
Lemma toMeters_as_rounding (s : bool) (m : positive) (e : Z) :
  Binary32.valid (S754_finite s m e) = true ->
  toMeters (S754_finite s m e) =
  binary_round_aux Binary32.prec Binary32.emax s (Z.pos m) (e - 5) loc_Exact.
Proof.
  intros Hv. pose proof (valid32_inv s m e Hv) as (Hd & He & Hn).
  unfold toMeters, Binary32.mul. rewrite metersPerPixel_eq. cbn [SFmul].
  rewrite xorb_false_r. replace (e + -28) with (e - 5 - 23) by lia.
  apply binary_round_aux_shift; [lia|lia|].
  unfold fexp, emin, Binary32.prec, Binary32.emax. lia.
Qed.

(** So does the double-precision product of the widened single, narrowed. *)
Lemma coordinate_as_rounding (s : bool) (m : positive) (e : Z) :
  Binary32.valid (S754_finite s m e) = true ->
  Binary32.of_float
    (Binary64.mul (Binary64.of_float (S754_finite s m e))
                  (Binary64.of_float metersPerPixel)) =
  binary_round_aux Binary32.prec Binary32.emax s (Z.pos m) (e - 5) loc_Exact.
Proof.
  intros Hv. pose proof (valid32_inv s m e Hv) as (Hd & He & Hn).
  destruct (widen_finite s m e Hv) as (m64 & j & Hj & Hm & Hd64 & ->).
  pose proof (digits2_pos_shift m m64 j Hj Hm) as Hs.
  rewrite mul64_metersPerPixel by lia.
  unfold Binary32.of_float, binary_round, shl_align.
  assert (Hf : fexp Binary32.prec Binary32.emax (Z.pos (digits2_pos m64) + (e - j - 5)) -
               (e - j - 5) >= 0)
    by (unfold fexp, emin, Binary32.prec, Binary32.emax; lia).
  destruct (fexp Binary32.prec Binary32.emax (Z.pos (digits2_pos m64) + (e - j - 5)) -
            (e - j - 5)) as [|p|p]; try lia;
    (replace (e - j - 5) with (e - 5 - j) by lia;
     apply binary_round_aux_shift; [lia|exact Hm|];
     unfold fexp, emin, Binary32.prec, Binary32.emax; lia).
Qed.

Lemma coordinate_toMeters (a : float32) :
  Binary32.valid a = true ->
  Binary32.of_float
    (Binary64.mul (Binary64.of_float a) (Binary64.of_float metersPerPixel)) = toMeters a.
Proof.
  intros Hv. destruct a as [s|s| |s m e].
  - now destruct s.
  - now destruct s.
  - reflexivity.
  - now rewrite coordinate_as_rounding, toMeters_as_rounding.
Qed.

Lemma toPixels_b2Vec2_by_coordinate (v : b2Vec2.t) :
  toPixels_b2Vec2 v =
  invertY_b2Vec2 (b2Vec2.mk (toPixels (b2Vec2.x v)) (toPixels (b2Vec2.y v))).
Proof.
  unfold toPixels_b2Vec2, invertY_b2Vec2. cbn [b2Vec2.x b2Vec2.y].
  now rewrite mul_pixelsPerMeterY.
Qed.

Lemma toMeters_invertY_by_coordinate (v : b2Vec2.t) :
  b2Vec2.valid v = true ->
  toMeters_QPointF (invertY_b2Vec2 v) =
  b2Vec2.mk (toMeters (b2Vec2.x v)) (toMeters (b2Vec2.y v)).
Proof.
  destruct v as [a b]. unfold b2Vec2.valid. cbn [b2Vec2.x b2Vec2.y].
  intros Hv. apply andb_true_iff in Hv as [Ha Hb].
  unfold toMeters_QPointF, invertY_b2Vec2. cbn [b2Vec2.x b2Vec2.y QPointF.x QPointF.y].
  rewrite mul_metersPerPixelY, of_float32_opp.
  rewrite !coordinate_toMeters by (now rewrite ?valid32_opp).
  now rewrite toMeters_opp, SFopp_involutive.
Qed.

(** X9.  The conversions of vectors are the conversions of lengths, applied
    to each coordinate, composed with [invertY]: a vector converts to the
    inverted vector of its coordinates in pixels, and the inverted point of
    a vector converts to the vector of its coordinates in meters.  This
    holds for all single-precision coordinates, the ones that overflow or
    underflow included. *)
Theorem vector_conversions_by_coordinate (v : b2Vec2.t) :
  b2Vec2.valid v = true ->
  toPixels_b2Vec2 v =
    invertY_b2Vec2 (b2Vec2.mk (toPixels (b2Vec2.x v)) (toPixels (b2Vec2.y v))) /\
  toMeters_QPointF (invertY_b2Vec2 v) =
    b2Vec2.mk (toMeters (b2Vec2.x v)) (toMeters (b2Vec2.y v)).
Proof.
  intros Hv. split; [apply toPixels_b2Vec2_by_coordinate|].
  now apply toMeters_invertY_by_coordinate.
Qed.

(** The vector ([2^-149], 3): its first coordinate underflows both ways. *)
Lemma vector_conversions_by_coordinate_witness :
  toMeters_QPointF (invertY_b2Vec2 (b2Vec2.mk min_float32 (Binary32.of_int 3))) =
  b2Vec2.mk (toMeters min_float32) (toMeters (Binary32.of_int 3)).
Proof.
  exact (proj2 (vector_conversions_by_coordinate
                  (b2Vec2.mk min_float32 (Binary32.of_int 3)) eq_refl)).
Defined.
(** ** Angles, one way *)

Local Open Scope Q_scope.

Lemma SF2Q_sign (s : bool) (m : positive) (e : Z) :
  (0 < SF2Q (S754_finite s m e) -> s = false) /\
  (SF2Q (S754_finite s m e) < 0 -> s = true).
Proof.
  destruct s; [pose proof (SF2Q_neg m e)|pose proof (SF2Q_pos m e)];
    split; intros; try reflexivity; lra.
Qed.

(** X10.  [toDegrees] is accurate to two roundings.  With [b2_pi] a single
    from 2 up to 4, a finite angle that is zero or of magnitude from
    [2^-125] up to [2^119] converts to a finite single within the relative
    error [2 * 2^-24 + 2^-48] of [- r * 180 / b2_pi], and of the opposite
    sign. *)
Theorem toDegrees_accuracy (b2_pi r : float32) :
  in_binade_of_pi b2_pi = true ->
  Binary32.valid r = true -> is_finite r = true -> exponent_in (-148) 95 r = true ->
  Binary32.valid (toDegrees b2_pi r) = true /\
  is_finite (toDegrees b2_pi r) = true /\
  rel_err two_roundings (SF2Q (toDegrees b2_pi r)) (- SF2Q r * 180 * / SF2Q b2_pi) /\
  (0 < SF2Q r -> SF2Q (toDegrees b2_pi r) < 0) /\
  (SF2Q r < 0 -> 0 < SF2Q (toDegrees b2_pi r)).
Proof.
  intros Hpi Hv Hf Hr. destruct r as [s|s| |s m e]; try discriminate.
  - destruct (in_binade_of_pi_inv b2_pi Hpi) as (mp & -> & _).
    unfold toDegrees. rewrite of_int_180.
    split; [now destruct s|]. split; [now destruct s|].
    split; [|split; destruct s; cbn; intros; lra].
    unfold rel_err. destruct s; cbn [SFopp Binary32.mul SFmul Binary32.div SFdiv SF2Q xorb negb];
      rewrite !Qmult_0_l; now apply Qle_bool_imp_le.
  - destruct (normal_of_exponent s m e (-148) 95 Hv Hr ltac:(lia)) as [Hd He].
    destruct (toDegrees_normal b2_pi s m e Hpi Hd ltac:(lia))
      as (m' & e' & -> & Hd' & He' & Herr).
    split; [apply bounded32_intro; lia|]. split; [reflexivity|].
    split; [exact Herr|].
    destruct (SF2Q_sign s m e) as [Hp Hn].
    split; intros Hs.
    + rewrite (Hp Hs). apply SF2Q_neg.
    + rewrite (Hn Hs). apply SF2Q_pos.
Qed.

(** One radian, with Box2D's [b2_pi]. *)
Lemma toDegrees_accuracy_witness :
  rel_err two_roundings (SF2Q (toDegrees b2_pi_literal (Binary32.of_int 1)))
    (- SF2Q (Binary32.of_int 1) * 180 * / SF2Q b2_pi_literal).
Proof.
  exact (proj1 (proj2 (proj2
    (toDegrees_accuracy b2_pi_literal (Binary32.of_int 1) eq_refl eq_refl eq_refl eq_refl)))).
Defined.

(** X11.  [toRadians] is accurate to two roundings.  With [b2_pi] a single
    from 2 up to 4, a finite angle that is zero or of magnitude from
    [2^-119] up to [2^125] converts to a finite single within the relative
    error [2 * 2^-24 + 2^-48] of [- d * b2_pi / 180], and of the opposite
    sign. *)
Theorem toRadians_accuracy (b2_pi d : float32) :
  in_binade_of_pi b2_pi = true ->
  Binary32.valid d = true -> is_finite d = true -> exponent_in (-142) 101 d = true ->
  Binary32.valid (toRadians b2_pi d) = true /\
  is_finite (toRadians b2_pi d) = true /\
  rel_err two_roundings (SF2Q (toRadians b2_pi d)) (- SF2Q d * SF2Q b2_pi * / 180) /\
  (0 < SF2Q d -> SF2Q (toRadians b2_pi d) < 0) /\
  (SF2Q d < 0 -> 0 < SF2Q (toRadians b2_pi d)).
Proof.
  intros Hpi Hv Hf Hr. destruct d as [s|s| |s m e]; try discriminate.
  - destruct (in_binade_of_pi_inv b2_pi Hpi) as (mp & -> & _).
    unfold toRadians. rewrite of_int_180.
    split; [now destruct s|]. split; [now destruct s|].
    split; [|split; destruct s; cbn; intros; lra].
    unfold rel_err. destruct s; cbn [SFopp Binary32.mul SFmul Binary32.div SFdiv SF2Q xorb negb];
      rewrite !Qmult_0_l; now apply Qle_bool_imp_le.
  - destruct (normal_of_exponent s m e (-142) 101 Hv Hr ltac:(lia)) as [Hd He].
    destruct (toRadians_normal b2_pi s m e Hpi Hd ltac:(lia))
      as (m' & e' & -> & Hd' & He' & Herr).
    split; [apply bounded32_intro; lia|]. split; [reflexivity|].
    split; [exact Herr|].
    destruct (SF2Q_sign s m e) as [Hp Hn].
    split; intros Hs.
    + rewrite (Hp Hs). apply SF2Q_neg.
    + rewrite (Hn Hs). apply SF2Q_pos.
Qed.

(** 90 degrees, with Box2D's [b2_pi]. *)
Lemma toRadians_accuracy_witness :
  rel_err two_roundings (SF2Q (toRadians b2_pi_literal (Binary32.of_int 90)))
    (- SF2Q (Binary32.of_int 90) * SF2Q b2_pi_literal * / 180).
Proof.
  exact (proj1 (proj2 (proj2
    (toRadians_accuracy b2_pi_literal (Binary32.of_int 90) eq_refl eq_refl eq_refl eq_refl)))).
Defined.

Local Close Scope Q_scope.
(** ** Angles out of range *)

Local Open Scope Q_scope.

Section RoundingOverflow.
Variables prec emax : Z.
Hypothesis prec_pos : (0 < prec)%Z.

(** Rounding in the normal range, with or without overflow: the result has
    a mantissa of [prec] digits, and is infinite when its exponent is beyond
    the largest one. *)
Lemma binary_round_aux_normal_cases (s : bool) (M E : Z) (l : location) (t : Q) :
  (0 < M)%Z -> located (shr_record_of_loc M l) t ->
  (prec <= Zdigits2 M)%Z -> (emin prec emax <= Zdigits2 M + E - prec)%Z ->
  exists (m : positive) (e k : Z),
    Z.pos (digits2_pos m) = prec /\
    (Zdigits2 M + E - prec <= e <= Zdigits2 M + E - prec + 1)%Z /\
    binary_round_aux prec emax s M E l =
      (if (e <=? emax - prec)%Z then S754_finite s m e else S754_infinity s) /\
    (Z.pos m * 2 ^ (e - (Zdigits2 M + E - prec)) = k)%Z /\
    (2 ^ (prec - 1) <= k <= 2 ^ prec)%Z /\
    - (1 # 2) <= inject_Z k - t * 2 ^ (prec - Zdigits2 M) /\
    inject_Z k - t * 2 ^ (prec - Zdigits2 M) <= 1 # 2 /\
    2 ^ (prec - 1) <= t * 2 ^ (prec - Zdigits2 M) /\
    t * 2 ^ (prec - Zdigits2 M) < 2 ^ prec.
Proof.
  intros HM Ht Hd He.
  destruct (shr_fexp_normal prec emax prec_pos M E l t HM Ht Hd He)
    as (mrs & Hshr & Hl & Hm1 & Hlo1).
  set (d := Zdigits2 M) in *. set (e1 := (d + E - prec)%Z) in *.
  set (t1 := t * 2 ^ (prec - d)) in *.
  pose proof (round_nearest_even_located mrs t1 Hl) as (Hm2 & Hr1 & Hr2).
  set (m2 := round_nearest_even (shr_m mrs) (loc_of_shr_record mrs)) in *.
  assert (Hhi1 : t1 < 2 ^ prec).
  { pose proof (located_bounds _ _ Hl) as [_ Hb].
    apply Qlt_le_trans with (1 := Hb).
    rewrite <- pow2_Z by lia. change 1 with (inject_Z 1).
    rewrite <- inject_Z_plus, <- Zle_Qle. lia. }
  unfold binary_round_aux. rewrite Hshr. fold m2.
  assert (Hm2pos : (0 < m2)%Z) by (pose proof (Z.pow_pos_nonneg 2 (prec - 1)); lia).
  destruct (Z.eq_dec m2 (2 ^ prec)%Z) as [Hcarry|Hnocarry].
  - assert (Hdig : Zdigits2 m2 = (prec + 1)%Z).
    { apply Zdigits2_unique; [lia|]. rewrite Hcarry.
      replace (prec + 1 - 1)%Z with prec by lia.
      rewrite Z.pow_add_r by lia. pose proof (Z.pow_pos_nonneg 2 prec). lia. }
    unfold shr_fexp, fexp. rewrite Hdig, Z.max_l by (unfold e1 in *; lia).
    replace (prec + 1 + e1 - prec - e1)%Z with 1%Z by lia.
    destruct (scaled_mantissa 1 (prec - 1)) as [p Hp]; [lia|].
    assert (Hm2p : m2 = (Z.pos p * 2 ^ 1)%Z).
    { rewrite Hcarry, Hp. replace prec with (prec - 1 + 1)%Z at 1 by lia.
      rewrite Z.pow_add_r by lia. lia. }
    assert (Hm2k : (Z.pos p * 2 ^ (e1 + 1 - e1) = m2)%Z)
      by (replace (e1 + 1 - e1)%Z with 1%Z by lia; now rewrite Hm2p).
    clearbody m2. destruct m2 as [|q|q]; try lia.
    cbn [shr_record_of_loc]. rewrite (shr_exact p q e1 1) by (lia || exact Hm2p).
    cbn [shr_m fst snd].
    exists p, (e1 + 1)%Z, (Z.pos q).
    split; [rewrite digits2_pos_log2, Hp, Z.mul_1_l, Z.log2_pow2 by lia; lia|].
    split; [unfold e1; lia|]. split; [reflexivity|].
    split; [exact Hm2k|]. split; [lia|]. repeat split; assumption.
  - assert (Hdig : Zdigits2 m2 = prec) by (apply Zdigits2_unique; lia).
    unfold shr_fexp, fexp. rewrite Hdig, Z.max_l by (unfold e1 in *; lia).
    replace (prec + e1 - prec - e1)%Z with 0%Z by lia.
    clearbody m2. destruct m2 as [|q|q]; try lia.
    cbn [shr_record_of_loc shr shr_m fst snd].
    exists q, e1, (Z.pos q). split; [exact Hdig|]. split; [unfold e1; lia|].
    split; [reflexivity|].
    split; [rewrite Z.sub_diag; lia|]. split; [lia|]. repeat split; assumption.
Qed.

(** Rounding beyond the largest exponent gives infinity. *)
Lemma binary_round_aux_overflow (s : bool) (M E : Z) (l : location) (t : Q) :
  (0 < M)%Z -> located (shr_record_of_loc M l) t ->
  (prec <= Zdigits2 M)%Z -> (emin prec emax <= Zdigits2 M + E - prec)%Z ->
  (emax - prec < Zdigits2 M + E - prec)%Z ->
  binary_round_aux prec emax s M E l = S754_infinity s.
Proof.
  intros HM Ht Hd He Ho.
  destruct (binary_round_aux_normal_cases s M E l t HM Ht Hd He)
    as (m & e & k & _ & Hr & -> & _).
  replace (e <=? emax - prec)%Z with false by (symmetry; apply Z.leb_gt; lia).
  reflexivity.
Qed.

(** The result of rounding in the normal range is a value of the format. *)
Lemma binary_round_aux_normal_valid (s : bool) (M E : Z) (l : location) (t : Q) :
  (0 < M)%Z -> located (shr_record_of_loc M l) t ->
  (prec <= Zdigits2 M)%Z -> (emin prec emax <= Zdigits2 M + E - prec)%Z ->
  valid_binary prec emax (binary_round_aux prec emax s M E l) = true.
Proof.
  intros HM Ht Hd He.
  destruct (binary_round_aux_normal_cases s M E l t HM Ht Hd He)
    as (m & e & k & Hm & Hr & -> & _).
  destruct (e <=? emax - prec)%Z eqn:Hle; [|reflexivity].
  apply Z.leb_le in Hle. cbn [valid_binary]. unfold bounded, canonical_mantissa, fexp.
  apply andb_true_iff. split; [apply Z.eqb_eq; lia|apply Z.leb_le; lia].
Qed.
End RoundingOverflow.

Lemma Zdigits2_lower (M k : Z) : (0 < k)%Z -> (2 ^ (k - 1) <= M)%Z -> (k <= Zdigits2 M)%Z.
Proof.
  intros Hk HM.
  assert (HMpos : (0 < M)%Z) by (pose proof (Z.pow_pos_nonneg 2 (k - 1)); lia).
  pose proof (Zdigits2_bounds M HMpos) as [_ Hu].
  pose proof (Zdigits2_pos M HMpos) as Hd.
  assert (Hlt : (2 ^ (k - 1) < 2 ^ Zdigits2 M)%Z) by lia.
  apply pow2_lt_inv in Hlt; lia.
Qed.

(** A product of two normal singles whose exponents add up to 82 or more
    overflows. *)
Lemma mul32_overflow (sa sb : bool) (ma mb : positive) (ea eb : Z) :
  Z.pos (digits2_pos ma) = 24%Z -> Z.pos (digits2_pos mb) = 24%Z ->
  (82 <= ea + eb)%Z ->
  Binary32.mul (S754_finite sa ma ea) (S754_finite sb mb eb) = S754_infinity (xorb sa sb).
Proof.
  intros Ha Hb He. unfold Binary32.mul. cbn [SFmul].
  pose proof (digits_bounds ma 24 Ha) as [Hal _].
  pose proof (digits_bounds mb 24 Hb) as [Hbl _].
  assert (HM : (2 ^ (47 - 1) <= Z.pos (ma * mb))%Z).
  { rewrite Pos2Z.inj_mul. change (2 ^ (47 - 1))%Z with (2 ^ (24 - 1) * 2 ^ (24 - 1))%Z.
    apply Z.mul_le_mono_nonneg; lia. }
  pose proof (Zdigits2_lower _ 47 ltac:(lia) HM) as Hd.
  apply (binary_round_aux_overflow Binary32.prec Binary32.emax ltac:(reflexivity)
           (xorb sa sb) (Z.pos (ma * mb)) (ea + eb) loc_Exact (inject_Z (Z.pos (ma * mb))));
    unfold emin, Binary32.prec, Binary32.emax; try lia.
  unfold located. cbn. reflexivity.
Qed.

(** X12.  The angle conversions overflow before their results do.  With
    [b2_pi] a single from 2 up to 4, [toDegrees] of a finite angle of
    magnitude [2^121] or more is infinite, and so is [toRadians] of a finite
    angle of magnitude [2^127] or more, although that angle times
    [b2_pi / 180] is below [2^123], far inside the range of a single: the
    product with [b2_pi] is taken first, and it overflows.  The infinity has
    the opposite sign. *)
Theorem angle_conversions_overflow (b2_pi : float32) (s : bool) (m : positive) (e : Z) :
  in_binade_of_pi b2_pi = true -> Binary32.valid (S754_finite s m e) = true ->
  ((98 <= e)%Z -> toDegrees b2_pi (S754_finite s m e) = S754_infinity (negb s)) /\
  (e = 104%Z -> toRadians b2_pi (S754_finite s m e) = S754_infinity (negb s)) /\
  Qabs (SF2Q (S754_finite s m e) * SF2Q b2_pi * (1 # 180)) < 2 ^ 123.
Proof.
  intros Hpi Hv. destruct (in_binade_of_pi_inv b2_pi Hpi) as (mp & -> & Hdp).
  pose proof (valid32_inv s m e Hv) as (Hd & He & Hn).
  split; [|split].
  - intros Hge. assert (Hd24 : Z.pos (digits2_pos m) = 24%Z) by lia.
    unfold toDegrees. rewrite of_int_180. cbn [SFopp].
    rewrite mul32_overflow by (try reflexivity; try assumption; lia).
    cbn. now rewrite !xorb_false_r.
  - intros ->. assert (Hd24 : Z.pos (digits2_pos m) = 24%Z) by lia.
    unfold toRadians. rewrite of_int_180. cbn [SFopp].
    rewrite mul32_overflow by (try reflexivity; try assumption; lia).
    cbn. now rewrite !xorb_false_r.
  - rewrite !SF2Q_finite. cbn [sign_of]. rewrite Qmult_1_l.
    assert (Hm : inject_Z (Z.pos m) < 2 ^ 24).
    { assert (Hz : (Z.pos m < 2 ^ 24)%Z).
      { pose proof (Zdigits2_bounds (Z.pos m) ltac:(lia)) as [_ Hu]. cbn [Zdigits2] in Hu.
        apply Z.lt_le_trans with (1 := Hu). apply Z.pow_le_mono_r; lia. }
      rewrite Zlt_Qlt in Hz. exact Hz. }
    assert (Hmp : inject_Z (Z.pos mp) < 2 ^ 24).
    { pose proof (digits_bounds mp 24 Hdp) as [_ Hu]. rewrite Zlt_Qlt in Hu. exact Hu. }
    assert (Hm0 : 0 < inject_Z (Z.pos m)) by (change 0 with (inject_Z 0); now rewrite <- Zlt_Qlt).
    assert (Hmp0 : 0 < inject_Z (Z.pos mp)) by (change 0 with (inject_Z 0); now rewrite <- Zlt_Qlt).
    assert (He' : 2 ^ e <= 2 ^ 104).
    { assert (Hs : 2 ^ 104 == 2 ^ (104 - e) * 2 ^ e).
      { rewrite <- pow2_add. replace (104 - e + e)%Z with 104%Z by lia. reflexivity. }
      rewrite Hs. pose proof (pow2_pos e).
      assert (1 <= 2 ^ (104 - e)).
      { rewrite <- pow2_Z by lia. change 1 with (inject_Z 1). rewrite <- Zle_Qle.
        pose proof (Z.pow_pos_nonneg 2 (104 - e)). lia. }
      nra. }
    pose proof (pow2_pos e) as Hpe.
    set (a := inject_Z (Z.pos m)) in *. set (b := inject_Z (Z.pos mp)) in *.
    set (x := 2 ^ e) in *.
    assert (Hs : Qabs (sign_of s * (a * x) * (b * 2 ^ (-22)) * (1 # 180)) ==
                 a * x * (b * 2 ^ (-22)) * (1 # 180)).
    { assert (Hf : sign_of s * (a * x) * (b * 2 ^ (-22)) * (1 # 180) ==
                   sign_of s * (a * x * (b * 2 ^ (-22)) * (1 # 180))) by ring.
      rewrite Hf, Qabs_Qmult.
      assert (Hsa : Qabs (sign_of s) == 1) by (destruct s; reflexivity).
      rewrite Hsa, Qmult_1_l. apply Qabs_pos.
      assert (H22 : 0 < 2 ^ (-22)) by apply pow2_pos.
      apply Qlt_le_weak. repeat apply Qmult_lt_0_compat; try assumption; try reflexivity. }
    rewrite Hs.
    assert (Hax0 : 0 < a * x) by (apply Qmult_lt_0_compat; assumption).
    assert (Hax : a * x <= 2 ^ 24 * 2 ^ 104).
    { apply Qle_trans with (a * 2 ^ 104).
      - apply Qmult_le_l; assumption.
      - apply Qmult_le_compat_r; [now apply Qlt_le_weak|]. now apply Qlt_le_weak, pow2_pos. }
    assert (H22 : 2 ^ (-22) == 1 # 4194304) by reflexivity.
    rewrite H22.
    assert (Hb4 : b * (1 # 4194304) < 4).
    { change (2 ^ 24) with 16777216 in Hmp. lra. }
    assert (Hb0 : 0 < b * (1 # 4194304)) by lra.
    assert (Hprod : a * x * (b * (1 # 4194304)) < 2 ^ 24 * 2 ^ 104 * 4) by nra.
    assert (Hfin : 2 ^ 24 * 2 ^ 104 * 4 * (1 # 180) < 2 ^ 123) by reflexivity.
    assert (Hmul : a * x * (b * (1 # 4194304)) * (1 # 180) <
                   2 ^ 24 * 2 ^ 104 * 4 * (1 # 180)) by lra.
    lra.
Qed.

(** The largest finite single, with Box2D's [b2_pi]. *)
Lemma angle_conversions_overflow_witness :
  toRadians b2_pi_literal max_float32 = S754_infinity true.
Proof.
  exact (proj1 (proj2
    (angle_conversions_overflow b2_pi_literal false 16777215 104 eq_refl eq_refl)) eq_refl).
Defined.

Local Close Scope Q_scope.
(** ** Narrowing in [invertY] *)

Local Open Scope Q_scope.

Lemma pow2_le (a b : Z) : (a <= b)%Z -> 2 ^ a <= 2 ^ b.
Proof.
  intros Hab.
  assert (Hs : 2 ^ b == 2 ^ (b - a) * 2 ^ a).
  { rewrite <- pow2_add. replace (b - a + a)%Z with b by lia. reflexivity. }
  rewrite Hs. pose proof (pow2_pos a).
  assert (1 <= 2 ^ (b - a)).
  { rewrite <- pow2_Z by lia. change 1 with (inject_Z 1). rewrite <- Zle_Qle.
    pose proof (Z.pow_pos_nonneg 2 (b - a)). lia. }
  nra.
Qed.

(** A double in the normal range of singles narrows with one rounding. *)
Lemma narrow_accuracy (c : qreal) :
  Binary64.valid c = true -> is_finite c = true -> exponent_in (-178) 74 c = true ->
  Binary32.valid (Binary32.of_float c) = true /\
  is_finite (Binary32.of_float c) = true /\
  rel_err roundoff32 (SF2Q (Binary32.of_float c)) (SF2Q c).
Proof.
  intros Hv Hf Hr. destruct c as [s|s| |s m e]; try discriminate.
  - split; [reflexivity|]. split; [reflexivity|].
    unfold rel_err. cbn. now apply Qle_bool_imp_le.
  - cbn [exponent_in] in Hr.
    apply andb_true_iff in Hr as [H1 H2]. apply Z.leb_le in H1, H2.
    pose proof (valid64_inv s m e Hv) as (Hd & He & Hn).
    assert (Hd53 : Z.pos (digits2_pos m) = 53%Z) by lia.
    unfold Binary32.of_float.
    destruct (binary_round_normal Binary32.prec Binary32.emax ltac:(reflexivity) s m e)
      as (m' & e' & -> & Hd' & He' & Herr);
      try (unfold emin, Binary32.prec, Binary32.emax; lia).
    unfold Binary32.prec in *.
    split; [apply bounded32_intro; lia|]. split; [reflexivity|exact Herr].
Qed.

(** A double of magnitude below [2^-150] narrows to zero. *)
Lemma narrow_underflow (s : bool) (m : positive) (e : Z) :
  Binary64.valid (S754_finite s m e) = true -> (e <= -203)%Z ->
  Binary32.of_float (S754_finite s m e) = S754_zero s.
Proof.
  intros Hv He. pose proof (valid64_inv s m e Hv) as (Hd & Her & Hn).
  unfold Binary32.of_float, binary_round, shl_align.
  assert (Hfe : fexp Binary32.prec Binary32.emax (Z.pos (digits2_pos m) + e) = (-149)%Z)
    by (unfold fexp, emin, Binary32.prec, Binary32.emax; lia).
  rewrite Hfe.
  destruct (-149 - e)%Z as [|p|p] eqn:Hp; try lia.
  destruct (binary_round_aux_subnormal Binary32.prec Binary32.emax ltac:(reflexivity)
              s (Z.pos m) e loc_Exact (inject_Z (Z.pos m)))
    as (m2 & Hm2 & -> & Herr);
    try (unfold emin, Binary32.prec, Binary32.emax; cbn [Zdigits2]; lia).
  { unfold located. cbn. reflexivity. }
  change (emin Binary32.prec Binary32.emax) with (-149)%Z in *.
  apply Qabs_Qle_condition in Herr as [_ Herr].
  assert (Hm : inject_Z (Z.pos m) < 2 ^ 53).
  { assert (Hz : (Z.pos m < 2 ^ 53)%Z).
    { pose proof (Zdigits2_bounds (Z.pos m) ltac:(lia)) as [_ Hu]. cbn [Zdigits2] in Hu.
      apply Z.lt_le_trans with (1 := Hu). apply Z.pow_le_mono_r; lia. }
    rewrite Zlt_Qlt in Hz. exact Hz. }
  pose proof (pow2_le e (-203) He) as Hpe. pose proof (pow2_pos e) as Hpe0.
  assert (Hm0 : 0 < inject_Z (Z.pos m)) by (change 0 with (inject_Z 0); now rewrite <- Zlt_Qlt).
  assert (Hval : inject_Z (Z.pos m) * 2 ^ e < 2 ^ 53 * 2 ^ (-203)).
  { apply Qle_lt_trans with (inject_Z (Z.pos m) * 2 ^ (-203)).
    - apply Qmult_le_l; assumption.
    - apply Qmult_lt_compat_r; [apply pow2_pos|exact Hm]. }
  assert (Hhalf : 2 ^ 53 * 2 ^ (-203) == (1 # 2) * 2 ^ (-149)) by reflexivity.
  pose proof (pow2_pos (-149)) as Hg.
  assert (Hlt : inject_Z m2 < inject_Z 1).
  { change (inject_Z 1) with 1. nra. }
  apply Qlt_inject_Z in Hlt. destruct m2 as [|q|q]; try lia; reflexivity.
Qed.

(** X13.  [invertY] of a point narrows its coordinates to single
    precision.  A finite coordinate that is zero or of magnitude from
    [2^-126] up to [2^127] is kept within the relative error [2^-24], y with
    the sign inverted, and the result is a finite vector; a coordinate of
    magnitude below [2^-150] becomes a zero, of the same sign for x and of
    the opposite sign for y. *)
Theorem invertY_QPointF_narrows (p : QPointF.t) :
  QPointF.valid p = true ->
  (is_finite (QPointF.x p) = true -> exponent_in (-178) 74 (QPointF.x p) = true ->
   is_finite (QPointF.y p) = true -> exponent_in (-178) 74 (QPointF.y p) = true ->
   b2Vec2.valid (invertY_QPointF p) = true /\
   is_finite (b2Vec2.x (invertY_QPointF p)) = true /\
   is_finite (b2Vec2.y (invertY_QPointF p)) = true /\
   rel_err roundoff32 (SF2Q (b2Vec2.x (invertY_QPointF p))) (SF2Q (QPointF.x p)) /\
   rel_err roundoff32 (SF2Q (b2Vec2.y (invertY_QPointF p))) (- SF2Q (QPointF.y p))) /\
  (forall (s : bool) (m : positive) (e : Z),
     QPointF.x p = S754_finite s m e -> (e <= -203)%Z ->
     b2Vec2.x (invertY_QPointF p) = S754_zero s) /\
  (forall (s : bool) (m : positive) (e : Z),
     QPointF.y p = S754_finite s m e -> (e <= -203)%Z ->
     b2Vec2.y (invertY_QPointF p) = S754_zero (negb s)).
Proof.
  destruct p as [a b]. unfold QPointF.valid. cbn [QPointF.x QPointF.y].
  intros Hv. apply andb_true_iff in Hv as [Ha Hb].
  unfold invertY_QPointF. cbn [b2Vec2.x b2Vec2.y QPointF.x QPointF.y].
  split; [|split].
  - intros Hfa Hra Hfb Hrb.
    destruct (narrow_accuracy a Ha Hfa Hra) as (Hva & Hfa' & Hea).
    destruct (narrow_accuracy b Hb Hfb Hrb) as (Hvb & Hfb' & Heb).
    rewrite of_float32_opp. unfold b2Vec2.valid. cbn [b2Vec2.x b2Vec2.y].
    split; [now rewrite valid32_opp, Hva, Hvb|].
    split; [exact Hfa'|]. split; [now rewrite is_finite_opp|].
    split; [exact Hea|].
    eapply rel_err_ext; [symmetry; apply SF2Q_opp|reflexivity|]. now apply rel_err_opp.
  - intros s m e -> He. now apply narrow_underflow.
  - intros s m e -> He. cbn [SFopp]. now apply narrow_underflow.
Qed.

(** The point (0.1, 0.1) in double precision. *)
Lemma invertY_QPointF_narrows_witness :
  rel_err roundoff32
    (SF2Q (b2Vec2.y (invertY_QPointF
       (QPointF.mk (S754_finite false 7205759403792794 (-56))
                   (S754_finite false 7205759403792794 (-56))))))
    (- SF2Q (S754_finite false 7205759403792794 (-56))).
Proof.
  destruct (invertY_QPointF_narrows
              (QPointF.mk (S754_finite false 7205759403792794 (-56))
                          (S754_finite false 7205759403792794 (-56))) eq_refl)
    as (Hacc & _ & _).
  exact (proj2 (proj2 (proj2 (proj2 (Hacc eq_refl eq_refl eq_refl eq_refl))))).
Defined.

Local Close Scope Q_scope.
(** ** What a conversion loses, it loses once *)

Local Open Scope Q_scope.

(** Narrowing a double gives a single, whatever the double. *)
Lemma narrow_valid (c : qreal) :
  Binary64.valid c = true -> Binary32.valid (Binary32.of_float c) = true.
Proof.
  intros Hv. destruct c as [s|s| |s m e]; try reflexivity.
  pose proof (valid64_inv s m e Hv) as (Hd & He & Hn).
  unfold Binary32.of_float, binary_round, shl_align.
  assert (Hf : (fexp Binary32.prec Binary32.emax (Z.pos (digits2_pos m) + e) - e >= 0)%Z)
    by (unfold fexp, emin, Binary32.prec, Binary32.emax; lia).
  assert (Hres : Binary32.valid
            (binary_round_aux Binary32.prec Binary32.emax s (Z.pos m) e loc_Exact) = true).
  { destruct (Z_lt_le_dec (Z.pos (digits2_pos m) + e - 24) (-149)) as [Hsub|Hnor].
    - destruct (binary_round_aux_subnormal Binary32.prec Binary32.emax ltac:(reflexivity)
                  s (Z.pos m) e loc_Exact (inject_Z (Z.pos m)))
        as (m2 & Hm2 & -> & _);
        try (unfold emin, Binary32.prec, Binary32.emax; cbn [Zdigits2]; lia).
      { unfold located. cbn. reflexivity. }
      change (emin Binary32.prec Binary32.emax) with (-149)%Z.
      change (2 ^ (Binary32.prec - 1))%Z with (2 ^ 23)%Z in Hm2.
      destruct m2 as [|q|q]; try lia; try reflexivity.
      apply bounded32_intro; [lia| |right; reflexivity].
      pose proof (digits_le_of_bound q 23 ltac:(lia) (proj2 Hm2)). lia.
    - apply (binary_round_aux_normal_valid Binary32.prec Binary32.emax ltac:(reflexivity)
               s (Z.pos m) e loc_Exact (inject_Z (Z.pos m)));
        try (unfold emin, Binary32.prec, Binary32.emax; cbn [Zdigits2]; lia).
      unfold located. cbn. reflexivity. }
  destruct (fexp Binary32.prec Binary32.emax (Z.pos (digits2_pos m) + e) - e)%Z
    as [|p|p]; try lia; exact Hres.
Qed.

Lemma invertY_QPointF_valid (p : QPointF.t) :
  QPointF.valid p = true -> b2Vec2.valid (invertY_QPointF p) = true.
Proof.
  destruct p as [a b]. unfold QPointF.valid, b2Vec2.valid, invertY_QPointF.
  cbn [QPointF.x QPointF.y b2Vec2.x b2Vec2.y].
  intros Hv. apply andb_true_iff in Hv as [Ha Hb].
  rewrite of_float32_opp, valid32_opp, !narrow_valid by assumption. reflexivity.
Qed.

Local Close Scope Q_scope.

(** X14.  [invertY] loses precision once.  The vector of a point, whatever
    its double-precision coordinates, has single-precision coordinates and
    comes back exactly from the point it converts to; so a point that has
    been through [invertY] twice survives any further pair of [invertY]
    unchanged. *)
Theorem invertY_loses_precision_once (p : QPointF.t) :
  QPointF.valid p = true ->
  b2Vec2.valid (invertY_QPointF p) = true /\
  invertY_QPointF (invertY_b2Vec2 (invertY_QPointF p)) = invertY_QPointF p /\
  invertY_b2Vec2 (invertY_QPointF (invertY_b2Vec2 (invertY_QPointF p))) =
    invertY_b2Vec2 (invertY_QPointF p).
Proof.
  intros Hv. pose proof (invertY_QPointF_valid p Hv) as Hv'.
  split; [exact Hv'|]. split.
  - now apply invertY_QPointF_b2Vec2.
  - now rewrite invertY_QPointF_b2Vec2.
Qed.

(** The point (0.1, 0.1) in double precision. *)
Lemma invertY_loses_precision_once_witness :
  invertY_QPointF (invertY_b2Vec2 (invertY_QPointF
    (QPointF.mk (S754_finite false 7205759403792794 (-56))
                (S754_finite false 7205759403792794 (-56))))) =
  invertY_QPointF (QPointF.mk (S754_finite false 7205759403792794 (-56))
                              (S754_finite false 7205759403792794 (-56))).
Proof.
  exact (proj1 (proj2 (invertY_loses_precision_once
    (QPointF.mk (S754_finite false 7205759403792794 (-56))
                (S754_finite false 7205759403792794 (-56))) eq_refl))).
Defined.

(** X15.  The round trip of a vector through pixels is the round trip of
    its coordinates, and a second round trip changes nothing: the point of
    a vector comes back from meters exactly, whatever the single-precision
    coordinates, the ones that overflow on the way to pixels included. *)
Theorem vector_round_trip_stable (v : b2Vec2.t) :
  b2Vec2.valid v = true ->
  toMeters_QPointF (toPixels_b2Vec2 v) =
    b2Vec2.mk (toMeters (toPixels (b2Vec2.x v))) (toMeters (toPixels (b2Vec2.y v))) /\
  toPixels_b2Vec2 (toMeters_QPointF (toPixels_b2Vec2 v)) = toPixels_b2Vec2 v.
Proof.
  destruct v as [a b]. unfold b2Vec2.valid. cbn [b2Vec2.x b2Vec2.y].
  intros Hv. apply andb_true_iff in Hv as [Ha Hb].
  assert (Hrt : toMeters_QPointF (toPixels_b2Vec2 (b2Vec2.mk a b)) =
                b2Vec2.mk (toMeters (toPixels a)) (toMeters (toPixels b))).
  { rewrite toPixels_b2Vec2_by_coordinate. cbn [b2Vec2.x b2Vec2.y].
    rewrite toMeters_invertY_by_coordinate; [reflexivity|].
    unfold b2Vec2.valid. cbn [b2Vec2.x b2Vec2.y].
    now rewrite !toPixels_valid. }
  split; [exact Hrt|].
  rewrite Hrt, !toPixels_b2Vec2_by_coordinate. cbn [b2Vec2.x b2Vec2.y].
  now rewrite !toPixels_toMeters_toPixels.
Qed.

(** The vector ([2^125], 1): its first coordinate overflows to infinity,
    which then comes back unchanged. *)
Lemma vector_round_trip_stable_witness :
  toPixels_b2Vec2 (toMeters_QPointF (toPixels_b2Vec2
    (b2Vec2.mk (S754_finite false 8388608 102) (Binary32.of_int 1)))) =
  toPixels_b2Vec2 (b2Vec2.mk (S754_finite false 8388608 102) (Binary32.of_int 1)).
Proof.
  exact (proj2 (vector_round_trip_stable
    (b2Vec2.mk (S754_finite false 8388608 102) (Binary32.of_int 1)) eq_refl)).
Defined.
(** ** No conversion invents a NaN *)

Lemma shr_1_nonneg (mrs : shr_record) : 0 <= shr_m mrs -> 0 <= shr_m (shr_1 mrs).
Proof.
  destruct mrs as [m r s]. cbn [shr_m]. intros Hm.
  destruct m as [|[p|p|]|p]; cbn; lia.
Qed.

Lemma shr_nonneg (mrs : shr_record) (e n : Z) :
  0 <= shr_m mrs -> 0 <= shr_m (fst (shr mrs e n)).
Proof.
  intros Hm. unfold shr. destruct n as [|p|p]; cbn [fst]; try exact Hm.
  rewrite iter_pos_nat. induction (Pos.to_nat p) as [|k IH]; [exact Hm|].
  cbn [Nat.iter]. now apply shr_1_nonneg.
Qed.

Lemma round_nearest_even_nonneg (m : Z) (l : location) :
  0 <= m -> 0 <= round_nearest_even m l.
Proof.
  intros Hm. unfold round_nearest_even.
  destruct l as [|[| |]]; try lia. destruct (Z.even m); lia.
Qed.

Section NotNan.
Variables prec emax : Z.

(** Rounding a nonnegative mantissa gives a zero, a finite value or an
    infinity. *)
Lemma binary_round_aux_not_nan (s : bool) (M E : Z) (l : location) :
  0 <= M -> binary_round_aux prec emax s M E l <> S754_nan.
Proof.
  intros HM. unfold binary_round_aux, shr_fexp.
  pose proof (shr_nonneg (shr_record_of_loc M l) E
                (fexp prec emax (Zdigits2 M + E) - E)) as H1.
  destruct (shr (shr_record_of_loc M l) E _) as [mrs e'].
  cbn [fst] in H1.
  assert (Hloc : shr_m (shr_record_of_loc M l) = M) by (destruct l as [|[| |]]; reflexivity).
  rewrite Hloc in H1. specialize (H1 HM).
  pose proof (round_nearest_even_nonneg (shr_m mrs) (loc_of_shr_record mrs) H1) as H2.
  set (m2 := round_nearest_even (shr_m mrs) (loc_of_shr_record mrs)) in *.
  pose proof (shr_nonneg (shr_record_of_loc m2 loc_Exact) e'
                (fexp prec emax (Zdigits2 m2 + e') - e')) as H3.
  destruct (shr (shr_record_of_loc m2 loc_Exact) e' _) as [mrs' e''].
  cbn [fst shr_record_of_loc shr_m] in H3. specialize (H3 H2).
  destruct (shr_m mrs') as [|q|q]; try lia; try discriminate.
  destruct (e'' <=? emax - prec); discriminate.
Qed.

Lemma binary_round_not_nan (s : bool) (m : positive) (e : Z) :
  binary_round prec emax s m e <> S754_nan.
Proof.
  unfold binary_round. destruct (shl_align m e _) as [mz ez].
  apply binary_round_aux_not_nan. lia.
Qed.

Lemma SFmul_not_nan (sa sb : bool) (ma mb : positive) (ea eb : Z) :
  SFmul prec emax (S754_finite sa ma ea) (S754_finite sb mb eb) <> S754_nan.
Proof. cbn [SFmul]. apply binary_round_aux_not_nan. lia. Qed.

Lemma SFdiv_not_nan (sa sb : bool) (ma mb : positive) (ea eb : Z) :
  SFdiv prec emax (S754_finite sa ma ea) (S754_finite sb mb eb) <> S754_nan.
Proof.
  cbn [SFdiv]. unfold SFdiv_core_binary.
  set (m' := match _ with Z0 => Z.pos ma | Z.pos _ => _ | Z.neg _ => 0 end).
  assert (Hm' : 0 <= m').
  { unfold m'. destruct (_ - _ - _) as [|p|p]; try lia.
    apply Z.shiftl_nonneg. lia. }
  pose proof (Z_div_mod m' (Z.pos mb) ltac:(lia)) as Hdiv.
  destruct (Z.div_eucl m' (Z.pos mb)) as [q r]. destruct Hdiv as [Hqr Hr].
  apply binary_round_aux_not_nan. nia.
Qed.
End NotNan.

Lemma mul32_finite_not_nan (a : float32) (s : bool) (m : positive) (e : Z) :
  a <> S754_nan -> Binary32.mul a (S754_finite s m e) <> S754_nan.
Proof.
  intros Ha. destruct a as [sa|sa| |sa ma ea]; try discriminate; [congruence|].
  apply SFmul_not_nan.
Qed.

Lemma div32_finite_not_nan (a : float32) (s : bool) (m : positive) (e : Z) :
  a <> S754_nan -> Binary32.div a (S754_finite s m e) <> S754_nan.
Proof.
  intros Ha. destruct a as [sa|sa| |sa ma ea]; try discriminate; [congruence|].
  apply SFdiv_not_nan.
Qed.

Lemma SFopp_not_nan (a : spec_float) : a <> S754_nan -> SFopp a <> S754_nan.
Proof. destruct a; try discriminate. congruence. Qed.

Lemma widen_not_nan (a : spec_float) : a <> S754_nan -> Binary64.of_float a <> S754_nan.
Proof.
  intros Ha. destruct a as [sa|sa| |sa ma ea]; try discriminate; [congruence|].
  apply binary_round_not_nan.
Qed.

Lemma narrow_not_nan (a : spec_float) : a <> S754_nan -> Binary32.of_float a <> S754_nan.
Proof.
  intros Ha. destruct a as [sa|sa| |sa ma ea]; try discriminate; [congruence|].
  apply binary_round_not_nan.
Qed.

Lemma mul64_metersPerPixel_not_nan (a : qreal) :
  a <> S754_nan -> Binary64.mul a (Binary64.of_float metersPerPixel) <> S754_nan.
Proof.
  intros Ha. rewrite metersPerPixel_double.
  destruct a as [sa|sa| |sa ma ea]; try discriminate; [congruence|].
  apply SFmul_not_nan.
Qed.

(** X16.  No conversion invents a NaN.  With [b2_pi] a single from 2 up to
    4, the conversion of a length or an angle that is not NaN is not NaN,
    and neither are the coordinates of a converted or inverted vector or
    point whose coordinates are not NaN.  No bound on the values is needed:
    this holds also where a conversion overflows or underflows. *)
Theorem conversions_never_invent_nan (b2_pi a b : float32) (c d : qreal) :
  in_binade_of_pi b2_pi = true ->
  a <> S754_nan -> b <> S754_nan -> c <> S754_nan -> d <> S754_nan ->
  (toPixels a <> S754_nan /\ toMeters a <> S754_nan /\
   toDegrees b2_pi a <> S754_nan /\ toRadians b2_pi a <> S754_nan) /\
  (QPointF.x (toPixels_b2Vec2 (b2Vec2.mk a b)) <> S754_nan /\
   QPointF.y (toPixels_b2Vec2 (b2Vec2.mk a b)) <> S754_nan /\
   QPointF.x (invertY_b2Vec2 (b2Vec2.mk a b)) <> S754_nan /\
   QPointF.y (invertY_b2Vec2 (b2Vec2.mk a b)) <> S754_nan) /\
  (b2Vec2.x (toMeters_QPointF (QPointF.mk c d)) <> S754_nan /\
   b2Vec2.y (toMeters_QPointF (QPointF.mk c d)) <> S754_nan /\
   b2Vec2.x (invertY_QPointF (QPointF.mk c d)) <> S754_nan /\
   b2Vec2.y (invertY_QPointF (QPointF.mk c d)) <> S754_nan).
Proof.
  intros Hpi Ha Hb Hc Hd.
  destruct (in_binade_of_pi_inv b2_pi Hpi) as (mp & -> & _).
  split; [|split].
  - split; [unfold toPixels; rewrite pixelsPerMeter_eq; now apply mul32_finite_not_nan|].
    split; [unfold toMeters; rewrite metersPerPixel_eq; now apply mul32_finite_not_nan|].
    unfold toDegrees, toRadians. rewrite of_int_180.
    split; apply div32_finite_not_nan, mul32_finite_not_nan, SFopp_not_nan, Ha.
  - unfold toPixels_b2Vec2, invertY_b2Vec2. cbn [b2Vec2.x b2Vec2.y QPointF.x QPointF.y].
    rewrite mul_pixelsPerMeterY. unfold toPixels. rewrite pixelsPerMeter_eq.
    split; [now apply widen_not_nan, mul32_finite_not_nan|].
    split; [now apply widen_not_nan, SFopp_not_nan, mul32_finite_not_nan|].
    split; [now apply widen_not_nan|now apply widen_not_nan, SFopp_not_nan].
  - unfold toMeters_QPointF, invertY_QPointF. cbn [b2Vec2.x b2Vec2.y QPointF.x QPointF.y].
    rewrite mul_metersPerPixelY.
    split; [now apply narrow_not_nan, mul64_metersPerPixel_not_nan|].
    split; [now apply narrow_not_nan, SFopp_not_nan, mul64_metersPerPixel_not_nan|].
    split; [now apply narrow_not_nan|now apply narrow_not_nan, SFopp_not_nan].
Qed.

(** The largest finite single, with Box2D's [b2_pi]: its conversion to
    degrees overflows, to an infinity. *)
Lemma conversions_never_invent_nan_witness :
  toDegrees b2_pi_literal max_float32 <> S754_nan.
Proof.
  refine (proj1 (proj2 (proj2 (proj1
    (conversions_never_invent_nan b2_pi_literal max_float32 max_float32
       (S754_zero false) (S754_zero false) eq_refl _ _ _ _))))); discriminate.
Defined.
(** ** Order of angles *)

Local Open Scope Q_scope.

Section RoundingOrder.
Variables prec emax : Z.
Hypothesis prec_pos : (0 < prec)%Z.

(** The value of a rounding in the normal range, on the grid of its
    binade: [k * 2^e1] with [k] within one half of the scaled value. *)
Lemma binary_round_aux_normal_value (s : bool) (M E : Z) (l : location) (t : Q) :
  (0 < M)%Z -> located (shr_record_of_loc M l) t ->
  (prec <= Zdigits2 M)%Z -> (emin prec emax <= Zdigits2 M + E - prec)%Z ->
  (Zdigits2 M + E < emax)%Z ->
  exists k : Z,
    (2 ^ (prec - 1) <= k <= 2 ^ prec)%Z /\
    SF2Q (binary_round_aux prec emax s M E l) ==
      sign_of s * (inject_Z k * 2 ^ (Zdigits2 M + E - prec)) /\
    - (1 # 2) <= inject_Z k - t * 2 ^ (prec - Zdigits2 M) /\
    inject_Z k - t * 2 ^ (prec - Zdigits2 M) <= 1 # 2 /\
    2 ^ (prec - 1) <= t * 2 ^ (prec - Zdigits2 M) /\
    t * 2 ^ (prec - Zdigits2 M) < 2 ^ prec.
Proof.
  intros HM Ht Hd He Ho.
  destruct (binary_round_aux_normal_cases prec emax prec_pos s M E l t HM Ht Hd He)
    as (m & e & k & Hm & Hr & -> & Hk & Hkb & H1 & H2 & H3 & H4).
  exists k. split; [exact Hkb|].
  split; [|repeat split; assumption].
  replace (e <=? emax - prec)%Z with true by (symmetry; apply Z.leb_le; lia).
  rewrite SF2Q_finite, <- Hk, inject_Z_mult, pow2_Z by lia.
  set (e1 := (Zdigits2 M + E - prec)%Z) in *.
  replace e with ((e - e1) + e1)%Z at 1 by lia. rewrite pow2_add. ring.
Qed.

(** Rounding in the normal range is monotone; a way to decide ties is
    asked of the caller. *)
Lemma binary_round_aux_normal_le (M1 E1 : Z) (l1 : location) (t1 : Q)
    (M2 E2 : Z) (l2 : location) (t2 : Q) :
  (0 < M1)%Z -> located (shr_record_of_loc M1 l1) t1 ->
  (prec <= Zdigits2 M1)%Z -> (emin prec emax <= Zdigits2 M1 + E1 - prec)%Z ->
  (Zdigits2 M1 + E1 < emax)%Z ->
  (0 < M2)%Z -> located (shr_record_of_loc M2 l2) t2 ->
  (prec <= Zdigits2 M2)%Z -> (emin prec emax <= Zdigits2 M2 + E2 - prec)%Z ->
  (Zdigits2 M2 + E2 < emax)%Z ->
  t1 * 2 ^ E1 <= t2 * 2 ^ E2 ->
  (t1 * 2 ^ E1 == t2 * 2 ^ E2 ->
   binary_round_aux prec emax false M1 E1 l1 = binary_round_aux prec emax false M2 E2 l2) ->
  SF2Q (binary_round_aux prec emax false M1 E1 l1) <=
  SF2Q (binary_round_aux prec emax false M2 E2 l2).
Proof.
  intros HM1 Ht1 Hd1 He1 Ho1 HM2 Ht2 Hd2 He2 Ho2 Hle Htie.
  destruct (binary_round_aux_normal_value false M1 E1 l1 t1 HM1 Ht1 Hd1 He1 Ho1)
    as (k1 & Hk1 & Hv1 & Ha1 & Hb1 & Hc1 & Hf1).
  destruct (binary_round_aux_normal_value false M2 E2 l2 t2 HM2 Ht2 Hd2 He2 Ho2)
    as (k2 & Hk2 & Hv2 & Ha2 & Hb2 & Hc2 & Hf2).
  set (e1 := (Zdigits2 M1 + E1 - prec)%Z) in *.
  set (e2 := (Zdigits2 M2 + E2 - prec)%Z) in *.
  set (u1 := t1 * 2 ^ (prec - Zdigits2 M1)) in *.
  set (u2 := t2 * 2 ^ (prec - Zdigits2 M2)) in *.
  assert (Hx1 : t1 * 2 ^ E1 == u1 * 2 ^ e1).
  { unfold u1, e1. rewrite <- Qmult_assoc, <- pow2_add.
    replace (prec - Zdigits2 M1 + (Zdigits2 M1 + E1 - prec))%Z with E1 by lia. reflexivity. }
  assert (Hx2 : t2 * 2 ^ E2 == u2 * 2 ^ e2).
  { unfold u2, e2. rewrite <- Qmult_assoc, <- pow2_add.
    replace (prec - Zdigits2 M2 + (Zdigits2 M2 + E2 - prec))%Z with E2 by lia. reflexivity. }
  assert (Hs : forall x : Q, sign_of false * x == x) by (intros; unfold sign_of; ring).
  rewrite Hs in Hv1, Hv2.
  pose proof (pow2_pos e1) as Hp1. pose proof (pow2_pos e2) as Hp2.
  assert (Hk1l : 2 ^ (prec - 1) <= inject_Z k1)
    by (rewrite <- pow2_Z by lia; rewrite <- Zle_Qle; lia).
  assert (Hk1u : inject_Z k1 <= 2 ^ prec)
    by (rewrite <- pow2_Z by lia; rewrite <- Zle_Qle; lia).
  assert (Hk2l : 2 ^ (prec - 1) <= inject_Z k2)
    by (rewrite <- pow2_Z by lia; rewrite <- Zle_Qle; lia).
  assert (Hk2u : inject_Z k2 <= 2 ^ prec)
    by (rewrite <- pow2_Z by lia; rewrite <- Zle_Qle; lia).
  destruct (Z_lt_le_dec e1 e2) as [Hlt|Hge].
  - (* a lower binade: everything in it is below everything in the other *)
    rewrite Hv1, Hv2.
    apply Qle_trans with (2 ^ prec * 2 ^ e1); [apply Qmult_le_compat_r; lra|].
    apply Qle_trans with (2 ^ (prec - 1) * 2 ^ e2); [|apply Qmult_le_compat_r; lra].
    rewrite <- !pow2_add. apply pow2_le. lia.
  - destruct (Z_lt_le_dec e2 e1) as [Hgt|Hle'].
    + exfalso. rewrite Hx1, Hx2 in Hle.
      assert (H1 : 2 ^ (prec - 1) * 2 ^ e1 <= u1 * 2 ^ e1)
        by (apply Qmult_le_compat_r; lra).
      assert (H2 : u2 * 2 ^ e2 < 2 ^ prec * 2 ^ e2)
        by (apply Qmult_lt_compat_r; assumption).
      assert (H3 : 2 ^ prec * 2 ^ e2 <= 2 ^ (prec - 1) * 2 ^ e1)
        by (rewrite <- !pow2_add; apply pow2_le; lia).
      lra.
    + assert (He : e1 = e2) by lia.
      rewrite Hv1, Hv2. rewrite Hx1, Hx2 in Hle, Htie.
      fold e1 e2. rewrite He in *.
      assert (Hu : u1 <= u2).
      { destruct (Qlt_le_dec u2 u1) as [Hc|Hc]; [|exact Hc].
        exfalso. assert (u2 * 2 ^ e2 < u1 * 2 ^ e2)
          by (apply Qmult_lt_compat_r; assumption). lra. }
      destruct (Z_le_gt_dec k1 k2) as [Hk|Hk].
      * apply Qmult_le_compat_r; [|lra]. now rewrite <- Zle_Qle.
      * assert (Hk' : inject_Z k2 + 1 <= inject_Z k1).
        { change 1 with (inject_Z 1). rewrite <- inject_Z_plus, <- Zle_Qle. lia. }
        assert (Heq : u1 == u2) by lra.
        assert (Hres : binary_round_aux prec emax false M1 E1 l1 =
                       binary_round_aux prec emax false M2 E2 l2)
          by (apply Htie; now rewrite Heq).
        rewrite Hres in Hv1. rewrite <- Hv1, <- Hv2. apply Qle_refl.
Qed.
End RoundingOrder.

Local Close Scope Q_scope.
Local Open Scope Q_scope.

Section OperationsOrder.
Variables prec emax : Z.
Hypothesis prec_pos : (0 < prec)%Z.

Lemma product_digits (ma mb : positive) :
  Z.pos (digits2_pos ma) = prec -> Z.pos (digits2_pos mb) = prec ->
  (2 * prec - 1 <= Zdigits2 (Z.pos (ma * mb)) <= 2 * prec)%Z.
Proof.
  intros Hda Hdb.
  pose proof (digits_bounds ma prec Hda) as [Hal Hau].
  pose proof (digits_bounds mb prec Hdb) as [Hbl Hbu].
  set (M := Z.pos (ma * mb)).
  assert (HM : M = (Z.pos ma * Z.pos mb)%Z) by (unfold M; lia).
  pose proof (Zdigits2_bounds M ltac:(lia)) as [HMl HMu].
  pose proof (Zdigits2_pos M ltac:(lia)) as HMd.
  pose proof (Z.pow_pos_nonneg 2 (prec - 1) ltac:(lia) ltac:(lia)) as Hp1.
  split.
  - assert (Hlt : (2 ^ (2 * prec - 2) < 2 ^ Zdigits2 M)%Z).
    { apply Z.le_lt_trans with M; [|exact HMu].
      replace (2 * prec - 2)%Z with ((prec - 1) + (prec - 1))%Z by lia.
      rewrite Z.pow_add_r, HM by lia. nia. }
    apply pow2_lt_inv in Hlt; lia.
  - assert (Hlt : (2 ^ (Zdigits2 M - 1) < 2 ^ (2 * prec))%Z).
    { apply Z.le_lt_trans with M; [exact HMl|].
      replace (2 * prec)%Z with (prec + prec)%Z by lia.
      rewrite Z.pow_add_r, HM by lia. nia. }
    apply pow2_lt_inv in Hlt; lia.
Qed.

(** The product with a positive normal constant is monotone on positive
    normal floats, in the normal range. *)
Lemma SFmul_normal_le (mc : positive) (ec : Z) (m1 m2 : positive) (e1 e2 : Z) :
  Z.pos (digits2_pos mc) = prec ->
  Z.pos (digits2_pos m1) = prec -> Z.pos (digits2_pos m2) = prec ->
  (emin prec emax <= e1 + ec + prec - 1)%Z -> (e1 + ec + 2 * prec < emax)%Z ->
  (emin prec emax <= e2 + ec + prec - 1)%Z -> (e2 + ec + 2 * prec < emax)%Z ->
  inject_Z (Z.pos m1) * 2 ^ e1 <= inject_Z (Z.pos m2) * 2 ^ e2 ->
  (inject_Z (Z.pos m1) * 2 ^ e1 == inject_Z (Z.pos m2) * 2 ^ e2 -> m1 = m2 /\ e1 = e2) ->
  SF2Q (SFmul prec emax (S754_finite false m1 e1) (S754_finite false mc ec)) <=
  SF2Q (SFmul prec emax (S754_finite false m2 e2) (S754_finite false mc ec)).
Proof.
  intros Hdc Hd1 Hd2 Hlo1 Hhi1 Hlo2 Hhi2 Hle Htie. cbn [SFmul xorb].
  pose proof (product_digits m1 mc Hd1 Hdc) as Hp1.
  pose proof (product_digits m2 mc Hd2 Hdc) as Hp2.
  assert (Hc : 0 < inject_Z (Z.pos mc) * 2 ^ ec).
  { apply Qmult_lt_0_compat; [|apply pow2_pos].
    change 0 with (inject_Z 0). now rewrite <- Zlt_Qlt. }
  assert (Hx : forall (m : positive) (e : Z),
             inject_Z (Z.pos (m * mc)) * 2 ^ (e + ec) ==
             inject_Z (Z.pos m) * 2 ^ e * (inject_Z (Z.pos mc) * 2 ^ ec)).
  { intros m e. rewrite Pos2Z.inj_mul, inject_Z_mult, pow2_add. ring. }
  apply (binary_round_aux_normal_le prec emax prec_pos
           (Z.pos (m1 * mc)) (e1 + ec) loc_Exact (inject_Z (Z.pos (m1 * mc)))
           (Z.pos (m2 * mc)) (e2 + ec) loc_Exact (inject_Z (Z.pos (m2 * mc))));
    try lia; try (unfold located; cbn; reflexivity).
  - rewrite !Hx. apply Qmult_le_compat_r; [exact Hle|lra].
  - rewrite !Hx. intros Heq.
    assert (Ha : inject_Z (Z.pos m1) * 2 ^ e1 == inject_Z (Z.pos m2) * 2 ^ e2).
    { apply Qmult_inj_r with (z := inject_Z (Z.pos mc) * 2 ^ ec); [lra|exact Heq]. }
    destruct (Htie Ha) as [-> ->]. reflexivity.
Qed.

(** A quotient of normal floats as the rounding of a located value. *)
Lemma SFdiv_as_rounding (sa sb : bool) (ma mb : positive) (ea eb : Z) :
  Z.pos (digits2_pos ma) = prec -> Z.pos (digits2_pos mb) = prec ->
  (emin prec emax <= ea - eb - prec)%Z ->
  exists (q : Z) (l : location) (t : Q),
    SFdiv prec emax (S754_finite sa ma ea) (S754_finite sb mb eb) =
      binary_round_aux prec emax (xorb sa sb) q (ea - eb - prec) l /\
    (0 < q)%Z /\ located (shr_record_of_loc q l) t /\
    (prec <= Zdigits2 q <= prec + 1)%Z /\
    t * 2 ^ (ea - eb - prec) ==
      inject_Z (Z.pos ma) * 2 ^ ea * / (inject_Z (Z.pos mb) * 2 ^ eb).
Proof.
  intros Hda Hdb Hlo.
  pose proof (digits_bounds ma prec Hda) as [Hal Hau].
  pose proof (digits_bounds mb prec Hdb) as [Hbl Hbu].
  pose proof (Z.pow_pos_nonneg 2 (prec - 1) ltac:(lia) ltac:(lia)) as Hp1.
  assert (Hpp : (2 ^ prec = 2 * 2 ^ (prec - 1))%Z).
  { replace prec with (1 + (prec - 1))%Z at 1 by lia. now rewrite Z.pow_add_r by lia. }
  cbn [SFdiv]. unfold SFdiv_core_binary. cbn [Zdigits2].
  rewrite Hda, Hdb. unfold fexp.
  replace (prec + ea - (prec + eb))%Z with (ea - eb)%Z by lia.
  rewrite Z.max_l by lia. rewrite Z.min_l by lia.
  replace (ea - eb - (ea - eb - prec))%Z with prec by lia.
  rewrite shiftl_dividend by lia.
  set (m' := (Z.pos ma * 2 ^ prec)%Z).
  pose proof (Z_div_mod m' (Z.pos mb) ltac:(lia)) as Hdiv.
  destruct (Z.div_eucl m' (Z.pos mb)) as [q r]. destruct Hdiv as [Hqr Hr].
  assert (Hq : (2 ^ (prec - 1) <= q < 2 ^ (prec + 1))%Z).
  { replace (prec + 1)%Z with (1 + prec)%Z by lia. rewrite Z.pow_add_r by lia.
    change (2 ^ 1)%Z with 2%Z. unfold m' in Hqr. split; nia. }
  assert (Hdq : (prec <= Zdigits2 q <= prec + 1)%Z).
  { pose proof (Zdigits2_bounds q ltac:(lia)) as [Hql Hqu].
    pose proof (Zdigits2_pos q ltac:(lia)) as Hqd. split.
    - assert (Hlt : (2 ^ (prec - 1) < 2 ^ Zdigits2 q)%Z) by lia.
      apply pow2_lt_inv in Hlt; lia.
    - assert (Hlt : (2 ^ (Zdigits2 q - 1) < 2 ^ (prec + 1))%Z) by lia.
      apply pow2_lt_inv in Hlt; lia. }
  assert (Hbpos : 0 < inject_Z (Z.pos mb))
    by (change 0 with (inject_Z 0); now rewrite <- Zlt_Qlt).
  set (t := inject_Z m' * / inject_Z (Z.pos mb)).
  assert (Ht : t * inject_Z (Z.pos mb) == inject_Z q * inject_Z (Z.pos mb) + inject_Z r).
  { unfold t. rewrite Hqr, inject_Z_plus, inject_Z_mult. field. lra. }
  exists q, (new_location (Z.pos mb) r), t.
  split; [reflexivity|]. split; [lia|].
  split; [apply new_location_located; [lia|lia|exact Ht]|]. split; [exact Hdq|].
  unfold t, m'. rewrite inject_Z_mult, pow2_Z by lia.
  replace (ea - eb - prec)%Z with (ea + (- eb + - prec))%Z by lia.
  rewrite !pow2_add.
  pose proof (pow2_pos eb). pose proof (pow2_pos prec).
  assert (Heb : 2 ^ (- eb) == / 2 ^ eb) by (apply Qpower_opp).
  assert (Hpr : 2 ^ (- prec) == / 2 ^ prec) by (apply Qpower_opp).
  rewrite Heb, Hpr. field. repeat split; lra.
Qed.

(** The quotient by a positive normal constant is monotone on positive
    normal floats, in the normal range. *)
Lemma SFdiv_normal_le (mc : positive) (ec : Z) (m1 m2 : positive) (e1 e2 : Z) :
  Z.pos (digits2_pos mc) = prec ->
  Z.pos (digits2_pos m1) = prec -> Z.pos (digits2_pos m2) = prec ->
  (emin prec emax <= e1 - ec - prec)%Z -> (e1 - ec + 1 < emax)%Z ->
  (emin prec emax <= e2 - ec - prec)%Z -> (e2 - ec + 1 < emax)%Z ->
  inject_Z (Z.pos m1) * 2 ^ e1 <= inject_Z (Z.pos m2) * 2 ^ e2 ->
  (inject_Z (Z.pos m1) * 2 ^ e1 == inject_Z (Z.pos m2) * 2 ^ e2 -> m1 = m2 /\ e1 = e2) ->
  SF2Q (SFdiv prec emax (S754_finite false m1 e1) (S754_finite false mc ec)) <=
  SF2Q (SFdiv prec emax (S754_finite false m2 e2) (S754_finite false mc ec)).
Proof.
  intros Hdc Hd1 Hd2 Hlo1 Hhi1 Hlo2 Hhi2 Hle Htie.
  destruct (SFdiv_as_rounding false false m1 mc e1 ec Hd1 Hdc Hlo1)
    as (q1 & l1 & t1 & Hr1 & Hq1 & Hl1 & Hdq1 & Hx1).
  destruct (SFdiv_as_rounding false false m2 mc e2 ec Hd2 Hdc Hlo2)
    as (q2 & l2 & t2 & Hr2 & Hq2 & Hl2 & Hdq2 & Hx2).
  assert (Hc : 0 < inject_Z (Z.pos mc) * 2 ^ ec).
  { apply Qmult_lt_0_compat; [|apply pow2_pos].
    change 0 with (inject_Z 0). now rewrite <- Zlt_Qlt. }
  assert (Hci : 0 < / (inject_Z (Z.pos mc) * 2 ^ ec)) by now apply Qinv_lt_0_compat.
  rewrite Hr1, Hr2. cbn [xorb].
  apply (binary_round_aux_normal_le prec emax prec_pos
           q1 (e1 - ec - prec) l1 t1 q2 (e2 - ec - prec) l2 t2);
    try assumption; try lia.
  - rewrite Hx1, Hx2. apply Qmult_le_compat_r; [exact Hle|lra].
  - rewrite Hx1, Hx2. intros Heq.
    assert (Ha : inject_Z (Z.pos m1) * 2 ^ e1 == inject_Z (Z.pos m2) * 2 ^ e2).
    { apply Qmult_inj_r with (z := / (inject_Z (Z.pos mc) * 2 ^ ec)); [lra|exact Heq]. }
    destruct (Htie Ha) as [-> ->]. cbn [xorb] in Hr1, Hr2. congruence.
Qed.
End OperationsOrder.

Local Close Scope Q_scope.
Local Open Scope Q_scope.

Lemma normal32_tie (m1 m2 : positive) (e1 e2 : Z) :
  Z.pos (digits2_pos m1) = 24%Z -> Z.pos (digits2_pos m2) = 24%Z ->
  (-149 <= e1 <= 104)%Z -> (-149 <= e2 <= 104)%Z ->
  inject_Z (Z.pos m1) * 2 ^ e1 == inject_Z (Z.pos m2) * 2 ^ e2 -> m1 = m2 /\ e1 = e2.
Proof.
  intros Hd1 Hd2 He1 He2 Heq.
  assert (Hv1 : Binary32.valid (S754_finite false m1 e1) = true)
    by (apply bounded32_intro; lia).
  assert (Hv2 : Binary32.valid (S754_finite false m2 e2) = true)
    by (apply bounded32_intro; lia).
  assert (H : S754_finite false m1 e1 = S754_finite false m2 e2).
  { apply valid32_unique; try assumption. rewrite !SF2Q_finite. now rewrite Heq. }
  now inversion H.
Qed.

Lemma SF2Q_false (m : positive) (e : Z) :
  SF2Q (S754_finite false m e) == inject_Z (Z.pos m) * 2 ^ e.
Proof. rewrite SF2Q_finite. unfold sign_of. ring. Qed.

(** The rounded product with a constant followed by the rounded quotient by
    another, on positive normal singles. *)
Lemma mul_div32_le (mc md : positive) (ec ed : Z) (m1 m2 : positive) (e1 e2 : Z) :
  Z.pos (digits2_pos mc) = 24%Z -> Z.pos (digits2_pos md) = 24%Z ->
  Z.pos (digits2_pos m1) = 24%Z -> Z.pos (digits2_pos m2) = 24%Z ->
  (-149 <= e1 <= 104)%Z -> (-149 <= e2 <= 104)%Z ->
  (-172 <= e1 + ec <= 79)%Z -> (-172 <= e2 + ec <= 79)%Z ->
  (-148 <= e1 + ec - ed <= 101)%Z -> (-148 <= e2 + ec - ed <= 101)%Z ->
  SF2Q (S754_finite false m1 e1) <= SF2Q (S754_finite false m2 e2) ->
  SF2Q (Binary32.div (Binary32.mul (S754_finite false m1 e1) (S754_finite false mc ec))
                     (S754_finite false md ed)) <=
  SF2Q (Binary32.div (Binary32.mul (S754_finite false m2 e2) (S754_finite false mc ec))
                     (S754_finite false md ed)).
Proof.
  intros Hdc Hdd Hd1 Hd2 He1 He2 Hr1 Hr2 Hq1 Hq2 Hle.
  rewrite !SF2Q_false in Hle.
  assert (Hmul : SF2Q (Binary32.mul (S754_finite false m1 e1) (S754_finite false mc ec)) <=
                 SF2Q (Binary32.mul (S754_finite false m2 e2) (S754_finite false mc ec))).
  { apply (SFmul_normal_le Binary32.prec Binary32.emax ltac:(reflexivity));
      try assumption; try (unfold emin, Binary32.prec, Binary32.emax; lia).
    now apply normal32_tie. }
  destruct (mul32_normal false false m1 mc e1 ec Hd1 Hdc Hr1)
    as (u1 & f1 & Hu1 & Hdu1 & Hf1 & _).
  destruct (mul32_normal false false m2 mc e2 ec Hd2 Hdc Hr2)
    as (u2 & f2 & Hu2 & Hdu2 & Hf2 & _).
  rewrite Hu1, Hu2 in *. cbn [xorb] in *.
  rewrite !SF2Q_false in Hmul.
  apply (SFdiv_normal_le Binary32.prec Binary32.emax ltac:(reflexivity));
    try assumption; try (unfold emin, Binary32.prec, Binary32.emax; lia).
  apply normal32_tie; try assumption; lia.
Qed.

Section Antitone.
Variable f : float32 -> float32.
Variables lo hi : Z.
Hypothesis lo_normal : (-149 < lo)%Z.
Hypothesis f_opp : forall a, f (SFopp a) = SFopp (f a).
Hypothesis f_zero : forall s, SF2Q (f (S754_zero s)) == 0.
Hypothesis f_negative :
  forall m e, Z.pos (digits2_pos m) = 24%Z -> (lo <= e <= hi)%Z ->
              SF2Q (f (S754_finite false m e)) < 0.
Hypothesis f_antitone :
  forall m1 e1 m2 e2,
    Z.pos (digits2_pos m1) = 24%Z -> Z.pos (digits2_pos m2) = 24%Z ->
    (lo <= e1 <= hi)%Z -> (lo <= e2 <= hi)%Z ->
    SF2Q (S754_finite false m1 e1) <= SF2Q (S754_finite false m2 e2) ->
    SF2Q (f (S754_finite false m2 e2)) <= SF2Q (f (S754_finite false m1 e1)).

(** A sign-inverting conversion that reverses the order of positive values
    reverses the order of all values. *)
Lemma antitone_all (r1 r2 : float32) :
  Binary32.valid r1 = true -> Binary32.valid r2 = true ->
  is_finite r1 = true -> is_finite r2 = true ->
  exponent_in lo hi r1 = true -> exponent_in lo hi r2 = true ->
  SF2Q r1 <= SF2Q r2 -> SF2Q (f r2) <= SF2Q (f r1).
Proof.
  intros Hv1 Hv2 Hf1 Hf2 Hx1 Hx2 Hle.
  assert (Hneg : forall m e, SF2Q (f (S754_finite true m e)) ==
                             - SF2Q (f (S754_finite false m e))).
  { intros m e. change (S754_finite true m e) with (SFopp (S754_finite false m e)).
    now rewrite f_opp, SF2Q_opp. }
  assert (Hval : forall m e, SF2Q (S754_finite true m e) == - SF2Q (S754_finite false m e)).
  { intros m e. rewrite !SF2Q_finite. unfold sign_of. ring. }
  destruct r1 as [s1|s1| |s1 m1 e1], r2 as [s2|s2| |s2 m2 e2]; try discriminate.
  - rewrite !f_zero. apply Qle_refl.
  - destruct (normal_of_exponent s2 m2 e2 lo hi Hv2 Hx2 lo_normal) as [Hd2 He2].
    rewrite f_zero. destruct s2.
    + exfalso. pose proof (SF2Q_neg m2 e2). cbn [SF2Q] in Hle. rewrite SF2Q_finite in *.
      lra.
    + pose proof (f_negative m2 e2 Hd2 He2). lra.
  - destruct (normal_of_exponent s1 m1 e1 lo hi Hv1 Hx1 lo_normal) as [Hd1 He1].
    rewrite f_zero. destruct s1.
    + rewrite Hneg. pose proof (f_negative m1 e1 Hd1 He1). lra.
    + exfalso. pose proof (SF2Q_pos m1 e1). cbn [SF2Q] in Hle. rewrite SF2Q_finite in *.
      lra.
  - destruct (normal_of_exponent s1 m1 e1 lo hi Hv1 Hx1 lo_normal) as [Hd1 He1].
    destruct (normal_of_exponent s2 m2 e2 lo hi Hv2 Hx2 lo_normal) as [Hd2 He2].
    pose proof (f_negative m1 e1 Hd1 He1) as Hn1.
    pose proof (f_negative m2 e2 Hd2 He2) as Hn2.
    destruct s1, s2.
    + rewrite !Hneg. rewrite !Hval in Hle.
      assert (Hle' : SF2Q (S754_finite false m2 e2) <= SF2Q (S754_finite false m1 e1))
        by lra.
      pose proof (f_antitone m2 e2 m1 e1 Hd2 Hd1 He2 He1 Hle'). lra.
    + rewrite Hneg. lra.
    + exfalso. pose proof (SF2Q_pos m1 e1). pose proof (SF2Q_neg m2 e2). lra.
    + now apply f_antitone.
Qed.
End Antitone.

Lemma toDegrees_positive (b2_pi : float32) (m : positive) (e : Z) :
  toDegrees b2_pi (S754_finite false m e) =
  SFopp (Binary32.div (Binary32.mul (S754_finite false m e) (Binary32.of_int 180)) b2_pi).
Proof.
  unfold toDegrees, Binary32.div, Binary32.mul. now rewrite SFmul_opp_l, SFdiv_opp_l.
Qed.

Lemma toRadians_positive (b2_pi : float32) (m : positive) (e : Z) :
  toRadians b2_pi (S754_finite false m e) =
  SFopp (Binary32.div (Binary32.mul (S754_finite false m e) b2_pi) (Binary32.of_int 180)).
Proof.
  unfold toRadians, Binary32.div, Binary32.mul. now rewrite SFmul_opp_l, SFdiv_opp_l.
Qed.

(** X17.  The angle conversions reverse the order of angles.  With [b2_pi]
    a single from 2 up to 4, and two finite angles that are zero or of
    magnitude from [2^-119] up to [2^119]: if the first is not larger than
    the second, its conversion to degrees, and to radians, is not smaller.
    The roundings of the product and of the quotient never swap two
    angles. *)
Theorem angle_conversions_reverse_order (b2_pi r1 r2 : float32) :
  in_binade_of_pi b2_pi = true ->
  Binary32.valid r1 = true -> Binary32.valid r2 = true ->
  is_finite r1 = true -> is_finite r2 = true ->
  exponent_in (-142) 95 r1 = true -> exponent_in (-142) 95 r2 = true ->
  SF2Q r1 <= SF2Q r2 ->
  SF2Q (toDegrees b2_pi r2) <= SF2Q (toDegrees b2_pi r1) /\
  SF2Q (toRadians b2_pi r2) <= SF2Q (toRadians b2_pi r1).
Proof.
  intros Hpi Hv1 Hv2 Hf1 Hf2 Hx1 Hx2 Hle.
  destruct (in_binade_of_pi_inv b2_pi Hpi) as (mp & Hp & Hdp).
  assert (Hd180 : Z.pos (digits2_pos 11796480) = 24%Z) by reflexivity.
  split.
  - apply (antitone_all (toDegrees b2_pi) (-142) 95); try assumption; try lia.
    + apply toDegrees_opp.
    + intros s. subst b2_pi. unfold toDegrees. rewrite of_int_180. now destruct s.
    + intros m e Hd He.
      destruct (toDegrees_normal b2_pi false m e Hpi Hd ltac:(lia)) as (m' & e' & -> & _).
      apply SF2Q_neg.
    + intros m1 e1 m2 e2 Hd1 Hd2 He1 He2 Hle'.
      rewrite !toDegrees_positive, !SF2Q_opp, of_int_180. subst b2_pi.
      apply Qopp_le_compat. apply mul_div32_le; try assumption; lia.
  - apply (antitone_all (toRadians b2_pi) (-142) 95); try assumption; try lia.
    + apply toRadians_opp.
    + intros s. subst b2_pi. unfold toRadians. rewrite of_int_180. now destruct s.
    + intros m e Hd He.
      destruct (toRadians_normal b2_pi false m e Hpi Hd ltac:(lia)) as (m' & e' & -> & _).
      apply SF2Q_neg.
    + intros m1 e1 m2 e2 Hd1 Hd2 He1 He2 Hle'.
      rewrite !toRadians_positive, !SF2Q_opp, of_int_180. subst b2_pi.
      apply Qopp_le_compat. apply mul_div32_le; try assumption; lia.
Qed.

(** One and two radians, with Box2D's [b2_pi]. *)
Lemma angle_conversions_reverse_order_witness :
  SF2Q (toDegrees b2_pi_literal (Binary32.of_int 2)) <=
  SF2Q (toDegrees b2_pi_literal (Binary32.of_int 1)).
Proof.
  apply (angle_conversions_reverse_order b2_pi_literal (Binary32.of_int 1) (Binary32.of_int 2)
           eq_refl eq_refl eq_refl eq_refl eq_refl eq_refl eq_refl).
  apply Qle_bool_imp_le. reflexivity.
Defined.

Local Close Scope Q_scope.
(** ** The round trip of a point *)

Local Open Scope Q_scope.

Section Scaling.
Variables prec emax : Z.
Hypothesis prec_pos : (0 < prec)%Z.

(** In the normal range the first shift does not depend on the exponent. *)
Lemma shr_fexp_shift (M E c : Z) (l : location) :
  fexp prec emax (Zdigits2 M + E) = (Zdigits2 M + E - prec)%Z ->
  fexp prec emax (Zdigits2 M + (E + c)) = (Zdigits2 M + (E + c) - prec)%Z ->
  shr_fexp prec emax M (E + c) l =
  (fst (shr_fexp prec emax M E l), (snd (shr_fexp prec emax M E l) + c)%Z).
Proof.
  intros H1 H2. unfold shr_fexp. rewrite H1, H2.
  replace (Zdigits2 M + (E + c) - prec - (E + c))%Z with (Zdigits2 M + E - prec - E)%Z by lia.
  unfold shr. destruct (Zdigits2 M + E - prec - E)%Z as [|p|p]; cbn [fst snd];
    try reflexivity.
  f_equal. lia.
Qed.

(** Rounding commutes with a change of exponent that stays in the normal
    range. *)
Lemma binary_round_aux_scale (s : bool) (M E c : Z) (l : location) (t : Q) :
  (0 < M)%Z -> located (shr_record_of_loc M l) t ->
  (prec <= Zdigits2 M)%Z ->
  (emin prec emax <= Zdigits2 M + E - prec)%Z -> (Zdigits2 M + E < emax)%Z ->
  (emin prec emax <= Zdigits2 M + (E + c) - prec)%Z -> (Zdigits2 M + (E + c) < emax)%Z ->
  exists (m : positive) (e : Z),
    binary_round_aux prec emax s M E l = S754_finite s m e /\
    binary_round_aux prec emax s M (E + c) l = S754_finite s m (e + c) /\
    Z.pos (digits2_pos m) = prec /\
    (Zdigits2 M + E - prec <= e <= Zdigits2 M + E - prec + 1)%Z.
Proof.
  intros HM Ht Hd He Ho He' Ho'.
  destruct (binary_round_aux_normal prec emax prec_pos s M E l t HM Ht Hd He Ho)
    as (m & e & Hr & Hdm & Hre & _).
  destruct (binary_round_aux_normal prec emax prec_pos s M (E + c) l t HM Ht Hd He' Ho')
    as (m' & e' & Hr' & _).
  exists m, e. split; [exact Hr|]. split; [|split; assumption].
  revert Hr Hr'. unfold binary_round_aux.
  destruct (shr_fexp_normal prec emax prec_pos M E l t HM Ht Hd He)
    as (mrs & Hshr & Hl & Hm1 & _).
  rewrite (shr_fexp_shift M E c l) by (unfold fexp; lia).
  rewrite Hshr. cbn [fst snd].
  pose proof (round_nearest_even_located mrs _ Hl) as (Hm2 & _ & _).
  set (m2 := round_nearest_even (shr_m mrs) (loc_of_shr_record mrs)) in *.
  assert (Hd2 : (prec <= Zdigits2 m2)%Z) by (apply Zdigits2_lower; lia).
  rewrite (shr_fexp_shift m2 (Zdigits2 M + E - prec) c loc_Exact) by (unfold fexp; lia).
  destruct (shr_fexp prec emax m2 (Zdigits2 M + E - prec) loc_Exact) as [mrs2 e2].
  cbn [fst snd].
  destruct (shr_m mrs2) as [|q|q]; try discriminate.
  destruct (e2 <=? emax - prec)%Z; try discriminate.
  destruct (e2 + c <=? emax - prec)%Z; try discriminate.
  intros H1 _. now inversion H1.
Qed.
End Scaling.

(** One coordinate of the round trip of a point, without the sign
    inversions: the coordinate narrowed to single precision. *)
Lemma coordinate_round_trip (c : qreal) :
  Binary64.valid c = true -> exponent_in (-173) 74 c = true ->
  toPixels (Binary32.of_float (Binary64.mul c (Binary64.of_float metersPerPixel))) =
  Binary32.of_float c.
Proof.
  intros Hv Hr. destruct c as [s|s| |s m e].
  - now destruct s.
  - now destruct s.
  - reflexivity.
  - cbn [exponent_in] in Hr.
    apply andb_true_iff in Hr as [H1 H2]. apply Z.leb_le in H1, H2.
    pose proof (valid64_inv s m e Hv) as (Hd & He & Hn).
    assert (Hd53 : Z.pos (digits2_pos m) = 53%Z) by lia.
    rewrite mul64_metersPerPixel by lia.
    unfold Binary32.of_float, binary_round, shl_align.
    assert (Hf1 : (fexp Binary32.prec Binary32.emax (Z.pos (digits2_pos m) + (e - 5)) -
                   (e - 5) = 29)%Z)
      by (unfold fexp, emin, Binary32.prec, Binary32.emax; lia).
    assert (Hf2 : (fexp Binary32.prec Binary32.emax (Z.pos (digits2_pos m) + e) - e = 29)%Z)
      by (unfold fexp, emin, Binary32.prec, Binary32.emax; lia).
    rewrite Hf1, Hf2.
    destruct (binary_round_aux_scale Binary32.prec Binary32.emax ltac:(reflexivity)
                s (Z.pos m) (e - 5) 5 loc_Exact (inject_Z (Z.pos m)))
      as (m' & e' & Hr1 & Hr2 & Hdm & He');
      try (unfold emin, Binary32.prec, Binary32.emax; cbn [Zdigits2]; lia).
    { unfold located. cbn. reflexivity. }
    replace (e - 5 + 5)%Z with e in Hr2 by lia.
    rewrite Hr1, Hr2. cbn [Zdigits2] in He'. unfold Binary32.prec in *.
    apply toPixels_normal; [exact Hdm|lia].
Qed.

Local Close Scope Q_scope.

(** X18.  What the round trip of a point loses is exactly the narrowing to
    single precision: for a point whose coordinates are zero, infinite, NaN
    or of magnitude from [2^-121] up to [2^127], converting to meters and
    back gives the same point as [invertY] applied twice, each coordinate
    rounded once to a single.  The scaling by 1/32 and by 32 adds no
    error. *)
Theorem point_round_trip_is_narrowing (p : QPointF.t) :
  QPointF.valid p = true ->
  exponent_in (-173) 74 (QPointF.x p) = true ->
  exponent_in (-173) 74 (QPointF.y p) = true ->
  toPixels_b2Vec2 (toMeters_QPointF p) = invertY_b2Vec2 (invertY_QPointF p) /\
  toPixels_b2Vec2 (toMeters_QPointF p) =
    QPointF.mk (Binary64.of_float (Binary32.of_float (QPointF.x p)))
               (Binary64.of_float (Binary32.of_float (QPointF.y p))).
Proof.
  destruct p as [a b]. unfold QPointF.valid. cbn [QPointF.x QPointF.y].
  intros Hv Hra Hrb. apply andb_true_iff in Hv as [Ha Hb].
  assert (H : toPixels_b2Vec2 (toMeters_QPointF (QPointF.mk a b)) =
              QPointF.mk (Binary64.of_float (Binary32.of_float a))
                         (Binary64.of_float (Binary32.of_float b))).
  { rewrite toPixels_toMeters_coordinates. cbn [QPointF.x QPointF.y].
    now rewrite !coordinate_round_trip. }
  split; [|exact H]. now rewrite H, invertY_b2Vec2_QPointF.
Qed.

(** The point (0.1, 0.1) in double precision. *)
Lemma point_round_trip_is_narrowing_witness :
  toPixels_b2Vec2 (toMeters_QPointF
    (QPointF.mk (S754_finite false 7205759403792794 (-56))
                (S754_finite false 7205759403792794 (-56)))) =
  invertY_b2Vec2 (invertY_QPointF
    (QPointF.mk (S754_finite false 7205759403792794 (-56))
                (S754_finite false 7205759403792794 (-56)))).
Proof.
  exact (proj1 (point_round_trip_is_narrowing
    (QPointF.mk (S754_finite false 7205759403792794 (-56))
                (S754_finite false 7205759403792794 (-56))) eq_refl eq_refl eq_refl)).
Defined.
